(** * goodteachtech: the background-canvas particle field and the contact form

    A shallow embedding of [script.js].  JavaScript numbers are IEEE-754
    binary64 values, so they are modelled by Rocq's primitive [float]s, whose
    operations are the same correctly rounded binary64 operations.  The host
    functions the script calls but does not define ([Math.random],
    [Math.sin], [Math.cos], [Math.atan2]) are fields of a [MathObj] record
    that every definition takes as a parameter; [Math.random] is an oracle
    indexed by the number of draws made so far, threaded through the code
    as an explicit counter.  Module-level [let] variables of the script are
    the fields of [World]; DOM events are the constructors of [event]. *)

From Stdlib Require Import ZArith List Bool Lia String Ascii Floats Reals Lra.
Import ListNotations.

Set Warnings "-inexact-float".
Local Open Scope float_scope.

(** ** Host environment *)

Record MathObj := {
  Math_random : nat -> float;             (* n-th value returned by Math.random() *)
  Math_sin    : float -> float;
  Math_cos    : float -> float;
  Math_atan2  : float -> float -> float  (* Math.atan2(y, x) *)
}.

Definition Math_PI : float := 0x1.921fb54442d18p+1.
Definition Math_sqrt : float -> float := PrimFloat.sqrt.
Definition Math_abs : float -> float := PrimFloat.abs.

(** [Math.floor] on the values the script feeds it, as an integer; [None]
    for NaN and the infinities (which index no array element). *)
Definition Math_floor (f : float) : option Z :=
  match Prim2SF f with
  | S754_zero _ => Some 0%Z
  | S754_finite s m e =>
      let n := if s then Z.neg m else Z.pos m in
      Some (match e with
            | Z.neg k => Z.div n (Z.pow_pos 2 k)
            | _ => (n * 2 ^ e)%Z
            end)
  | _ => None
  end.

(** A small non-negative integer as a JavaScript number. *)
Definition num (n : nat) : float := PrimFloat.of_uint63 (Uint63.of_Z (Z.of_nat n)).

(** [ToNumber] of a value that is a number or [null]. *)
Definition to_number (v : option float) : float :=
  match v with Some f => f | None => 0 end.

(** ** Configuration *)

Module config.
Definition particleCount : nat := 12.
Definition baseSize : float := 400.
Definition colorSpeed : float := 0.002.
Definition moveSpeed : float := 0.8.
Definition mouseRepelDist : float := 600.
Definition mouseRepelForce : float := 0.02.
Definition scrollForce : float := 0.05.
End config.

Definition colors : list string :=
  [ "rgba(255, 153, 51, 0.8)";
    "rgba(255, 180, 100, 0.7)";
    "rgba(240, 240, 255, 0.8)";
    "rgba(19, 136, 8, 0.8)";
    "rgba(50, 200, 80, 0.7)" ]%string.

(** [colors[i]] for a computed index: [None] is JavaScript's [undefined]. *)
Definition colors_at (i : option Z) : option string :=
  match i with
  | Some (Z.pos p) => nth_error colors (Pos.to_nat p)
  | Some Z0 => nth_error colors 0
  | _ => None
  end.

(** ** The 2D drawing context, as the list of calls made on it *)

Inductive ctx_call :=
| clearRect (x0 y0 w h : float)
| save
| restore
| translate (tx ty : float)
| rotate (a : float)
| beginPath
| moveTo (px py : float)
| lineTo (px py : float)
| closePath
| fillStyle (c : option string)
| fill.

(** ** Particles *)

Module Particle.

Record t := mk {
  x : float;
  y : float;
  vx : float;
  vy : float;
  targetSize : float;
  radius : float;
  color : option string;
  angle : float;
  spin : float;
  offsets : list float
}.

Definition set_x (p : t) (v : float) : t :=
  mk v (y p) (vx p) (vy p) (targetSize p) (radius p) (color p) (angle p) (spin p) (offsets p).
Definition set_y (p : t) (v : float) : t :=
  mk (x p) v (vx p) (vy p) (targetSize p) (radius p) (color p) (angle p) (spin p) (offsets p).
Definition set_vx (p : t) (v : float) : t :=
  mk (x p) (y p) v (vy p) (targetSize p) (radius p) (color p) (angle p) (spin p) (offsets p).
Definition set_vy (p : t) (v : float) : t :=
  mk (x p) (y p) (vx p) v (targetSize p) (radius p) (color p) (angle p) (spin p) (offsets p).
Definition set_angle (p : t) (v : float) : t :=
  mk (x p) (y p) (vx p) (vy p) (targetSize p) (radius p) (color p) v (spin p) (offsets p).

Section Methods.
Variable M : MathObj.
(** The module-level variables a particle reads. *)
Variables width height : float.
Variables mouse_x mouse_y : option float.
Variable scrollSpeed : float.

(** [Array(8).fill(0).map(() => Math.random() * 2 * Math.PI)],
    drawing from index [n] on. *)
Fixpoint fresh_offsets (k n : nat) : list float :=
  match k with
  | O => []
  | S k' => (Math_random M n * 2 * Math_PI) :: fresh_offsets k' (S n)
  end.

(** [reset()]: every field is overwritten, so the result does not depend
    on the receiver; draws [n .. n+15]. *)
Definition reset (n : nat) : t * nat :=
  let x0 := Math_random M n * width in
  let y0 := Math_random M (n + 1) * height in
  let vx0 := (Math_random M (n + 2) - 0.5) * config.moveSpeed in
  let vy0 := (Math_random M (n + 3) - 0.5) * config.moveSpeed in
  let ts := config.baseSize + Math_random M (n + 4) * 200 in
  let c := colors_at (Math_floor (Math_random M (n + 5) * num (List.length colors))) in
  let a := Math_random M (n + 6) * Math_PI * 2 in
  let s := (Math_random M (n + 7) - 0.5) * 0.005 in
  let os := fresh_offsets 8 (n + 8) in
  (mk x0 y0 vx0 vy0 ts ts c a s os, n + 16)%nat.

(** [new Particle()]: [reset()], then position is drawn once more. *)
Definition new (n : nat) : t * nat :=
  let '(p, n1) := reset n in
  let p := set_x p (Math_random M n1 * width) in
  let p := set_y p (Math_random M (n1 + 1) * height) in
  (p, n1 + 2)%nat.

(** *** [update()], one block of the method at a time *)

(** Scroll interaction. *)
Definition scroll_interaction (p : t) : t :=
  set_vy p (vy p + scrollSpeed * config.scrollForce).

(** Basic motion. *)
Definition basic_motion (p : t) : t :=
  let p := set_x p (x p + vx p) in
  let p := set_y p (y p + vy p) in
  set_angle p (angle p + spin p).

(** Boundaries (wrap around): the two tests on one coordinate, in the
    order of the source; the second sees the result of the first. *)
Definition wrap_coord (dim buffer c : float) : float :=
  let c := if c <? - buffer then dim + buffer else c in
  if dim + buffer <? c then - buffer else c.

Definition boundaries (p : t) : t :=
  let buffer := radius p in
  let p := set_x p (wrap_coord width buffer (x p)) in
  set_y p (wrap_coord height buffer (y p)).

(** Mouse interaction.  [dx], [dy] and [distance] of the source, for a
    pointer whose [mouse.x] is the number [mx]. *)
Definition pointer_dx (mx : float) (p : t) : float := mx - x p.
Definition pointer_dy (p : t) : float := to_number mouse_y - y p.
Definition pointer_distance (mx : float) (p : t) : float :=
  let dx := pointer_dx mx p in
  let dy := pointer_dy p in
  Math_sqrt (dx * dx + dy * dy).

(** The vector subtracted from the velocity when both tests succeed. *)
Definition repel_force (p : t) : option (float * float) :=
  match mouse_x with
  | None => None
  | Some mx =>
      let dx := pointer_dx mx p in
      let dy := pointer_dy p in
      let distance := pointer_distance mx p in
      if distance <? config.mouseRepelDist then
        let force := (config.mouseRepelDist - distance) / config.mouseRepelDist in
        let ang := Math_atan2 M dy dx in
        Some (Math_cos M ang * force * config.mouseRepelForce,
              Math_sin M ang * force * config.mouseRepelForce)
      else None
  end.

Definition mouse_interaction (p : t) : t :=
  match repel_force p with
  | Some (fx, fy) =>
      let p := set_vx p (vx p - fx) in
      set_vy p (vy p - fy)
  | None => p
  end.

(** Damping/friction. *)
Definition damping (p : t) : t :=
  let p := set_vx p (vx p * 0.98) in
  set_vy p (vy p * 0.98).

(** Min speed maintenance; a draw is consumed only when a test succeeds. *)
Definition min_speed (p : t) (n : nat) : t * nat :=
  let '(p, n) :=
    if Math_abs (vx p) <? 0.2
    then (set_vx p (vx p + (Math_random M n - 0.5) * 0.1), S n)
    else (p, n) in
  if Math_abs (vy p) <? 0.2
  then (set_vy p (vy p + (Math_random M n - 0.5) * 0.1), S n)
  else (p, n).

Definition update (p : t) (n : nat) : t * nat :=
  min_speed (damping (mouse_interaction (boundaries (basic_motion (scroll_interaction p))))) n.

(** *** [draw()] *)

(** The body of the [for] loop at index [i] ([time] is
    [Date.now() * 0.001]). *)
Definition vertex (p : t) (time : float) (i : nat) : float * float :=
  let theta := (num i / 10) * Math_PI * 2 in
  let noise := Math_sin M (theta * 2 + time + nth (i mod 8) (offsets p) nan) * 0.1
               + Math_cos M (theta * 3 - time) * 0.1 in
  let r := radius p * (1 + noise) in
  (r * Math_cos M theta, r * Math_sin M theta).

(** [for (let i = 0; i <= 10; i++)]; [fuel] bounds the number of
    iterations, and eleven are enough (see [draw_loop_fuel]). *)
Fixpoint draw_loop (p : t) (time : float) (fuel i : nat) : list ctx_call :=
  match fuel with
  | O => []
  | S fuel' =>
      if Nat.leb i 10 then
        let '(px, py) := vertex p time i in
        (if Nat.eqb i 0 then moveTo px py else lineTo px py)
          :: draw_loop p time fuel' (S i)
      else []
  end.

Definition draw (p : t) (now : float) : list ctx_call :=
  let time := now * 0.001 in
  [save; translate (x p) (y p); rotate (angle p); beginPath]
    ++ draw_loop p time 11 0
    ++ [closePath; fillStyle (color p); fill; restore].

End Methods.
End Particle.

(** ** Module-level state and the event listeners *)

Record World := mkWorld {
  width : float;
  height : float;
  particles : list Particle.t;
  mouse_x : option float;          (* mouse.x, [None] for null *)
  mouse_y : option float;          (* mouse.y *)
  scrollY : float;
  lastScrollY : float;
  scrollSpeed : float;
  draws : nat                      (* calls of Math.random() made so far *)
}.

Inductive event :=
| ev_mousemove (clientX clientY : float)
| ev_mouseout
| ev_resize (innerWidth innerHeight : float)
| ev_scroll (window_scrollY : float)
| ev_frame (Date_now : nat -> float).  (* Date.now() as read by the i-th draw() *)

Section Script.
Variable M : MathObj.

(** [for (let i = 0; i < config.particleCount; i++) particles.push(new Particle())] *)
Fixpoint initParticles_loop (w h : float) (fuel i n : nat) (acc : list Particle.t)
  : list Particle.t * nat :=
  match fuel with
  | O => (acc, n)
  | S fuel' =>
      if Nat.ltb i config.particleCount then
        let '(p, n') := Particle.new M w h n in
        initParticles_loop w h fuel' (S i) n' (acc ++ [p])
      else (acc, n)
  end.

Definition initParticles (W : World) : World :=
  let '(ps, n) := initParticles_loop (width W) (height W) config.particleCount 0 (draws W) [] in
  mkWorld (width W) (height W) ps (mouse_x W) (mouse_y W)
          (scrollY W) (lastScrollY W) (scrollSpeed W) n.

Definition resize (innerWidth innerHeight : float) (W : World) : World :=
  initParticles
    (mkWorld innerWidth innerHeight (particles W) (mouse_x W) (mouse_y W)
             (scrollY W) (lastScrollY W) (scrollSpeed W) (draws W)).

(** [particles.forEach(p => p.update())] *)
Fixpoint update_all (W : World) (ps : list Particle.t) (n : nat)
  : list Particle.t * nat :=
  match ps with
  | [] => ([], n)
  | p :: ps' =>
      let '(p', n') :=
        Particle.update M (width W) (height W) (mouse_x W) (mouse_y W) (scrollSpeed W) p n in
      let '(qs, n'') := update_all W ps' n' in
      (p' :: qs, n'')
  end.

(** [particles.forEach(p => p.draw())] *)
Fixpoint draw_all (Date_now : nat -> float) (i : nat) (ps : list Particle.t)
  : list ctx_call :=
  match ps with
  | [] => []
  | p :: ps' => Particle.draw M p (Date_now i) ++ draw_all Date_now (S i) ps'
  end.

(** One run of [animate()]; the call of [requestAnimationFrame] is the
    next [ev_frame] the host delivers. *)
Definition animate (Date_now : nat -> float) (W : World) : World * list ctx_call :=
  let '(ps, n) := update_all W (particles W) (draws W) in
  (mkWorld (width W) (height W) ps (mouse_x W) (mouse_y W)
           (scrollY W) (lastScrollY W) (scrollSpeed W * 0.9) n,
   clearRect 0 0 (width W) (height W) :: draw_all Date_now 0 ps).

Definition on_mousemove (clientX clientY : float) (W : World) : World :=
  mkWorld (width W) (height W) (particles W) (Some clientX) (Some clientY)
          (scrollY W) (lastScrollY W) (scrollSpeed W) (draws W).

Definition on_mouseout (W : World) : World :=
  mkWorld (width W) (height W) (particles W) None None
          (scrollY W) (lastScrollY W) (scrollSpeed W) (draws W).

Definition on_scroll (window_scrollY : float) (W : World) : World :=
  mkWorld (width W) (height W) (particles W) (mouse_x W) (mouse_y W)
          window_scrollY window_scrollY (window_scrollY - lastScrollY W) (draws W).

Definition step (W : World) (e : event) : World * list ctx_call :=
  match e with
  | ev_mousemove cx cy => (on_mousemove cx cy W, [])
  | ev_mouseout => (on_mouseout W, [])
  | ev_resize iw ih => (resize iw ih W, [])
  | ev_scroll sy => (on_scroll sy W, [])
  | ev_frame now => animate now W
  end.

Fixpoint run (W : World) (es : list event) : World :=
  match es with
  | [] => W
  | e :: es' => run (fst (step W e)) es'
  end.

(** The state in which the script leaves the page after its top level has
    run: the declarations, then [resize()]; the first [animate()] is the
    first [ev_frame]. *)
Definition init (innerWidth innerHeight window_scrollY : float) : World :=
  resize innerWidth innerHeight
    (mkWorld 0 0 [] None None window_scrollY window_scrollY 0 0).

End Script.

(** ** Form handling *)

(** A JavaScript string: its UTF-16 code units. *)
Definition jsstring := list Z.

(** An ASCII literal of the source as a JavaScript string. *)
Definition lit (s : string) : jsstring :=
  map (fun a => Z.of_nat (nat_of_ascii a)) (list_ascii_of_string s).

Module URI.
Local Open Scope Z_scope.

Definition in_range (lo hi c : Z) : bool := (lo <=? c) && (c <=? hi).

(** uriUnreserved: letters, digits and [-_.!~*'()]. *)
Definition unreserved (c : Z) : bool :=
  in_range 65 90 c || in_range 97 122 c || in_range 48 57 c
  || existsb (Z.eqb c) [45; 95; 46; 33; 126; 42; 39; 40; 41].

Definition hex_digit (d : Z) : Z := if d <? 10 then 48 + d else 55 + d.

(** ["%XX"] for one octet, upper-case hexadecimal. *)
Definition escape (b : Z) : jsstring := [37; hex_digit (b / 16); hex_digit (b mod 16)].

Definition utf8 (cp : Z) : list Z :=
  if cp <? 128 then [cp]
  else if cp <? 2048 then
    [Z.lor 192 (Z.shiftr cp 6); Z.lor 128 (Z.land cp 63)]
  else if cp <? 65536 then
    [Z.lor 224 (Z.shiftr cp 12); Z.lor 128 (Z.land (Z.shiftr cp 6) 63);
     Z.lor 128 (Z.land cp 63)]
  else
    [Z.lor 240 (Z.shiftr cp 18); Z.lor 128 (Z.land (Z.shiftr cp 12) 63);
     Z.lor 128 (Z.land (Z.shiftr cp 6) 63); Z.lor 128 (Z.land cp 63)].

Definition is_lead (c : Z) : bool := in_range 55296 56319 c.
Definition is_trail (c : Z) : bool := in_range 56320 57343 c.

(** [encodeURIComponent]; [None] when it throws a URIError (a surrogate
    code unit without its partner). *)
Fixpoint encodeURIComponent (s : jsstring) : option jsstring :=
  match s with
  | [] => Some []
  | c :: rest =>
      if unreserved c then option_map (cons c) (encodeURIComponent rest)
      else if is_lead c then
        match rest with
        | c2 :: rest' =>
            if is_trail c2 then
              let cp := (c - 55296) * 1024 + (c2 - 56320) + 65536 in
              option_map (app (flat_map escape (utf8 cp))) (encodeURIComponent rest')
            else None
        | [] => None
        end
      else if is_trail c then None
      else option_map (app (flat_map escape (utf8 c))) (encodeURIComponent rest)
  end.

(** Reading an escaped component back, as the receiving side does:
    the octets it denotes. *)
Definition hex_value (c : Z) : option Z :=
  if in_range 48 57 c then Some (c - 48)
  else if in_range 65 70 c then Some (c - 55)
  else if in_range 97 102 c then Some (c - 87)
  else None.

Fixpoint octets (s : jsstring) : option (list Z) :=
  match s with
  | [] => Some []
  | c :: rest =>
      if c =? 37 then
        match rest with
        | h :: l :: rest' =>
            match hex_value h, hex_value l, octets rest' with
            | Some a, Some b, Some r => Some (a * 16 + b :: r)
            | _, _, _ => None
            end
        | _ => None
        end
      else option_map (cons c) (octets rest)
  end.
End URI.

(** The lines of a text: the pieces between line feeds. *)
Fixpoint lines_from (cur : jsstring) (s : jsstring) : list jsstring :=
  match s with
  | [] => [cur]
  | c :: rest => if Z.eqb c 10 then cur :: lines_from [] rest
                 else lines_from (cur ++ [c]) rest
  end.
Definition lines (s : jsstring) : list jsstring := lines_from [] s.

(** What the submit listener does to the page. *)
Record submit_effect := {
  defaultPrevented : bool;              (* e.preventDefault() was called *)
  location_href : option jsstring       (* the value assigned to window.location.href *)
}.

Definition bodyRaw (name email message : jsstring) : jsstring :=
  lit "Name: " ++ name ++ [10%Z] ++ lit "Email: " ++ email ++ [10%Z; 10%Z] ++ message.

(** The listener on the form's [submit] event, given the values of the four
    fields.  A URIError leaves the handler after [preventDefault()] and
    before the assignment. *)
Definition on_submit (name email subject message : jsstring) : submit_effect :=
  match URI.encodeURIComponent subject,
        URI.encodeURIComponent (bodyRaw name email message) with
  | Some s, Some b =>
      {| defaultPrevented := true;
         location_href :=
           Some (lit "mailto:goodteachtech@gmail.com?subject=" ++ s ++ lit "&body=" ++ b) |}
  | _, _ => {| defaultPrevented := true; location_href := None |}
  end.

(** ** The vocabulary of the specification *)

(** The polygon of [draw()] as the specification words it: sample angles
    [theta_i = 2*pi*i/10], and the radius perturbed by two sinusoids. *)
Definition blob_theta (i : nat) : float := 2 * Math_PI * num i / 10.

Definition blob_radius (M : MathObj) (p : Particle.t) (time : float) (i : nat) : float :=
  Particle.radius p
  * (1 + (0.1 * Math_sin M (2 * blob_theta i + time + nth (i mod 8) (Particle.offsets p) nan)
          + 0.1 * Math_cos M (3 * blob_theta i - time))).

Definition blob_vertex (M : MathObj) (p : Particle.t) (time : float) (i : nat)
  : float * float :=
  (blob_radius M p time i * Math_cos M (blob_theta i),
   blob_radius M p time i * Math_sin M (blob_theta i)).

(** The fields of a particle that the specification calls fixed at creation. *)
Definition fixed_fields (p : Particle.t)
  : float * float * option string * float * list float :=
  (Particle.targetSize p, Particle.radius p, Particle.color p, Particle.spin p,
   Particle.offsets p).

Definition is_resize (e : event) : bool :=
  match e with ev_resize _ _ => true | _ => false end.

Definition is_mousemove (e : event) : bool :=
  match e with ev_mousemove _ _ => true | _ => false end.

Definition is_scroll (e : event) : bool :=
  match e with ev_scroll _ => true | _ => false end.

(** The call [draw()] makes for vertex [i] of the path. *)
Definition path_call (i : nat) (v : float * float) : ctx_call :=
  if Nat.eqb i 0 then moveTo (fst v) (snd v) else lineTo (fst v) (snd v).

(** Characters that cannot end or split a URI component: the unreserved
    ones and the percent sign of an escape. *)
Definition uri_safe (c : Z) : bool := URI.unreserved c || Z.eqb c 37.

(** The nudge of one velocity component: [v] itself, or [v] plus a delta
    made from the next draw when its magnitude is below 0.2; with the
    number of draws made. *)
Definition nudged (M : MathObj) (v : float) (n : nat) : float * nat :=
  if Math_abs v <? 0.2 then (v + (Math_random M n - 0.5) * 0.1, S n) else (v, n).

(** [c] serves as the direction cosine of the offset [d] along one axis: it
    lies between -1 and 1 and has the sign of [d].  The host's
    [cos(atan2(dy, dx))] is such a number for [dx], and its
    [sin(atan2(dy, dx))] for [dy]. *)
Definition follows (c d : float) : Prop :=
  ((-1 <=? c) = true /\ (c <=? 1) = true)
  /\ ((0 <? d) = true -> (0 <=? c) = true)
  /\ ((d <? 0) = true -> (c <=? 0) = true).

(** ** A concrete host, to run the script on examples

    Crude stand-ins for the host's functions: a linear congruential
    generator scaled to [0, 1), and short Taylor polynomials. *)
Module Toy.
Definition random (n : nat) : float :=
  PrimFloat.of_uint63 (Uint63.of_Z ((1103515245 * Z.of_nat n + 12345) mod 2147483648))
  / 2147483648.
Definition sin (a : float) : float := a - a * a * a / 6 + a * a * a * a * a / 120.
Definition cos (a : float) : float := 1 - a * a / 2 + a * a * a * a / 24.
Definition atan2 (b a : float) : float :=
  if (a =? 0) && (b =? 0) then 0
  else
    let t := b / (Math_sqrt (a * a + b * b) + a) in
    2 * (t - t * t * t / 3).
Definition Math : MathObj :=
  {| Math_random := random; Math_sin := sin; Math_cos := cos; Math_atan2 := atan2 |}.

Definition particle : Particle.t :=
  Particle.mk 100 200 0.3 (-0.25) 450 450 (Some "rgba(19, 136, 8, 0.8)"%string)
              1 0.001 [0.5; 1; 1.5; 2; 2.5; 3; 3.5; 4].
End Toy.

(** ** The vocabulary of the properties of a run *)

(** [Math.random()] returns a number at least 0 and below 1. *)
Definition unit_draws (M : MathObj) : Prop :=
  forall k, (0 <=? Math_random M k) = true /\ (Math_random M k <? 1) = true.

(** [lo <= v <= hi], as the comparisons of the language decide it. *)
Definition within (lo hi v : float) : bool := (lo <=? v) && (v <=? hi).

(** A viewport dimension: a number at least 0, and not infinite. *)
Definition dimension (w : float) : bool := (0 <=? w) && (w <? infinity).

(** A regular number: neither NaN nor infinite. *)
Definition regular (v : float) : bool := Math_abs v <? infinity.

(** The host's sine and cosine of a regular number lie between -1 and 1
    (of NaN and of the infinities they are NaN, in every browser). *)
Definition bounded_waves (M : MathObj) : Prop :=
  forall a, regular a = true ->
            within (-1) 1 (Math_sin M a) = true /\ within (-1) 1 (Math_cos M a) = true.

(** The host's [atan2] of two numbers, infinite ones included, is a regular
    number (an angle between [-pi] and [pi], in every browser). *)
Definition regular_angles (M : MathObj) : Prop :=
  forall b a, is_nan b = false -> is_nan a = false -> regular (Math_atan2 M b a) = true.

(** Both, for the mouse block of [update()]. *)
Definition sound_trig (M : MathObj) : Prop := bounded_waves M /\ regular_angles M.

(** The largest time value of a [Date], in milliseconds. *)
Definition max_date : float := 8640000000000000.

(** A host that answers as a browser does where the script depends on it:
    the sine and cosine of a regular number are the polynomials of [Toy] cut
    off at -1 and 1 (and 0 where the polynomial overflows), those of NaN and
    of the infinities are NaN; [atan2] of two numbers is the value of
    [Toy.atan2] where that is a regular number, and 0 elsewhere. *)
Module Clamped.
Definition clamp (v : float) : float :=
  if v <? -1 then -1 else if 1 <? v then 1 else if is_nan v then 0 else v.
Definition wave (f : float -> float) (a : float) : float :=
  if regular a then clamp (f a) else nan.
Definition atan2 (b a : float) : float :=
  if is_nan b || is_nan a then nan
  else if regular (Toy.atan2 b a) then Toy.atan2 b a else 0.
Definition Math : MathObj :=
  {| Math_random := Toy.random;
     Math_sin := wave Toy.sin;
     Math_cos := wave Toy.cos;
     Math_atan2 := atan2 |}.
End Clamped.

(** The pointer position the listeners have recorded after the events [es],
    starting from [acc]: that of the last [mousemove], unless a [mouseout]
    came after it. *)
Definition last_pointer (acc : option (float * float)) (es : list event)
  : option (float * float) :=
  fold_left (fun acc e =>
               match e with
               | ev_mousemove cx cy => Some (cx, cy)
               | ev_mouseout => None
               | _ => acc
               end) es acc.

(** The scroll position the last [scroll] event of [es] delivered, [sy] if
    there was none. *)
Definition last_scroll (sy : float) (es : list event) : float :=
  fold_left (fun acc e => match e with ev_scroll s => s | _ => acc end) es sy.

(** A [resize] event delivers proper viewport dimensions. *)
Definition proper_resize (e : event) : bool :=
  match e with
  | ev_resize iw ih => dimension iw && dimension ih
  | _ => true
  end.

(** The particle is inside the viewport extended by its radius on every
    side, as far as its position is a number. *)
Definition in_extended_viewport (w h : float) (p : Particle.t) : bool :=
  (is_nan (Particle.x p)
   || within (- Particle.radius p) (w + Particle.radius p) (Particle.x p))
  && (is_nan (Particle.y p)
      || within (- Particle.radius p) (h + Particle.radius p) (Particle.y p)).

(** The largest scroll position considered: 2^53, beyond which the integers
    are no longer all binary64 numbers. *)
Definition max_scroll : float := 0x1p+53.

(** The bound kept on the vertical speed, and what the scroll kick and the
    push of the pointer can make of it within one [update()]. *)
Definition max_vy : float := 0x1p+55.
Definition max_kicked_vy : float := max_vy + max_scroll * 0.05.
Definition max_pushed_vy : float := max_kicked_vy - (-0.02).

(** An event as a browser delivers it: a [resize] with proper viewport
    dimensions, a [scroll] with a position between 0 and [max_scroll]. *)
Definition proper_event (e : event) : bool :=
  match e with
  | ev_resize iw ih => dimension iw && dimension ih
  | ev_scroll s => within 0 max_scroll s
  | _ => true
  end.

(** Every number of the particle is a number: the position, inside the
    viewport extended by the radius; the velocity, at most 1 in magnitude
    horizontally and at most [max_vy] vertically; the angle; and the fields
    fixed at creation, in their ranges. *)
Definition sound_particle (w h : float) (p : Particle.t) : bool :=
  within 400 600 (Particle.radius p)
  && within (-0.0025) 0.0025 (Particle.spin p)
  && negb (is_nan (Particle.angle p))
  && within (-1) 1 (Particle.vx p)
  && within (- max_vy) max_vy (Particle.vy p)
  && within (- Particle.radius p) (w + Particle.radius p) (Particle.x p)
  && within (- Particle.radius p) (h + Particle.radius p) (Particle.y p).

(** The calls [cs], made with [d] states on the context's stack, keep every
    transformation inside a [save]/[restore] pair: [translate] and [rotate]
    happen with a saved state to return to, [clearRect] happens with none
    pending (so in the untransformed coordinates), no [restore] finds the
    stack empty, and the stack is empty again at the end. *)
Fixpoint well_scoped (d : nat) (cs : list ctx_call) : bool :=
  match cs with
  | [] => Nat.eqb d 0
  | save :: cs' => well_scoped (S d) cs'
  | restore :: cs' => match d with O => false | S d' => well_scoped d' cs' end
  | translate _ _ :: cs' | rotate _ :: cs' => negb (Nat.eqb d 0) && well_scoped d cs'
  | clearRect _ _ _ _ :: cs' => Nat.eqb d 0 && well_scoped d cs'
  | _ :: cs' => well_scoped d cs'
  end.

(** ** The vocabulary of the properties of the form *)

(** A UTF-16 code unit. *)
Definition code_unit (c : Z) : bool := (0 <=? c)%Z && (c <? 65536)%Z.

(** The code points a string denotes: a lead surrogate and the trail
    surrogate after it make one code point, any other code unit is one by
    itself; [None] when a surrogate stands alone. *)
Fixpoint code_points (s : jsstring) : option (list Z) :=
  match s with
  | [] => Some []
  | c :: rest =>
      if URI.is_lead c then
        match rest with
        | c2 :: rest' =>
            if URI.is_trail c2
            then option_map (cons ((c - 55296) * 1024 + (c2 - 56320) + 65536)%Z)
                            (code_points rest')
            else None
        | [] => None
        end
      else if URI.is_trail c then None
      else option_map (cons c) (code_points rest)
  end.

(** What [encodeURIComponent] returns, for a string [s] of code units: it
    throws exactly when a surrogate stands alone; otherwise the result is
    made of unreserved characters and percent escapes, and read back it is
    the UTF-8 encoding of the code points of [s]. *)
Definition encoded_as (s : jsstring) : Prop :=
  match code_points s with
  | Some cps =>
      exists e, URI.encodeURIComponent s = Some e
                /\ forallb uri_safe e = true
                /\ URI.octets e = Some (flat_map URI.utf8 cps)
  | None => URI.encodeURIComponent s = None
  end.

(** No line feed in the text. *)
Definition single_line (s : jsstring) : bool := forallb (fun c => negb (Z.eqb c 10)) s.

(** Only ASCII characters in the text. *)
Definition ascii_text (s : jsstring) : bool :=
  forallb (fun c => (0 <=? c)%Z && (c <? 128)%Z) s.

(** * Binary64 values and the reals

    The standard library specifies the primitive operations on floats by
    functions on [spec_float] ([SFadd], [SFmul], [SFcompare], ...), which
    compute on signs, mantissas and exponents.  The definitions below give
    the vocabulary to relate them to real numbers. *)

Module Binary64.
Local Open Scope R_scope.

(** The value carries the sign [sx] and is not NaN. *)
Definition signed_as (sx : bool) (f : spec_float) : Prop :=
  match f with
  | S754_zero s | S754_infinity s | S754_finite s _ _ => s = sx
  | S754_nan => False
  end.

(** Powers of two. *)
Definition bpow (e : Z) : R := powerRZ 2 e.

(** [t] lies in [[m, m+1)], at the place [l] says. *)
Definition inbetween (t : R) (m : Z) (l : location) : Prop :=
  match l with
  | loc_Exact => t = IZR m
  | loc_Inexact Lt => IZR m < t < IZR m + / 2
  | loc_Inexact Eq => t = IZR m + / 2
  | loc_Inexact Gt => IZR m + / 2 < t < IZR m + 1
  end.

(** The same, for the record [shr] works on. *)
Definition inb_rec (t : R) (mrs : shr_record) : Prop :=
  inbetween t (shr_m mrs) (loc_of_shr_record mrs).

(** The last steps of [binary_round_aux], once the mantissa [N] has been
    rounded at the canonical exponent [e]. *)
Definition finish (sx : bool) (N e : Z) : spec_float :=
  match N with
  | Z0 => S754_zero sx
  | Zpos p =>
      if (N =? 2 ^ 53)%Z then
        if (e + 1 <=? 971)%Z then S754_finite sx (2 ^ 52) (e + 1) else S754_infinity sx
      else if (e <=? 971)%Z then S754_finite sx p e else S754_infinity sx
  | Zneg _ => S754_nan
  end.

(** [(mx, ex, lx)] presents the non-negative real [v] to [binary_round_aux]:
    [v] is [t * 2^ex] for a [t] located by [mx] and [lx], and [ex] is not
    above the canonical exponent. *)
Definition round_input (v : R) (mx ex : Z) (lx : location) : Prop :=
  (0 <= mx)%Z
  /\ (exists t, inbetween t mx lx /\ v = t * bpow ex)
  /\ (ex <= fexp prec emax (Zdigits2 mx + ex))%Z.

(** The real number a finite binary64 value stands for (0 for the others). *)
Definition SF2R (f : spec_float) : R :=
  match f with
  | S754_finite s m e => (if s then - IZR (Z.pos m) else IZR (Z.pos m)) * bpow e
  | _ => 0
  end.

(** A zero or a finite value, in canonical form. *)
Definition SFfinite (f : spec_float) : Prop :=
  match f with
  | S754_finite _ _ _ | S754_zero _ => valid_binary f = true
  | _ => False
  end.

(** [f] is what rounding the real [v] to binary64 gives (an infinity when
    the rounded value is out of range). *)
Definition Rounds (v : R) (f : spec_float) : Prop :=
  (v = 0 /\ exists s, f = S754_zero s)
  \/ (0 < v /\ exists mx ex lx,
         round_input v mx ex lx /\ f = binary_round_aux prec emax false mx ex lx)
  \/ (v < 0 /\ exists mx ex lx,
         round_input (- v) mx ex lx /\ f = binary_round_aux prec emax true mx ex lx).

(** Neither NaN nor infinite. *)
Definition finite (x : float) : Prop := SFfinite (Prim2SF x).

(** The real value of a finite float. *)
Definition B2R (x : float) : R := SF2R (Prim2SF x).

(** The value just below a normal positive one. *)
Definition SFbelow (m : positive) (e : Z) : spec_float :=
  if (Z.pos m =? 2 ^ 52)%Z && (-1074 <? e)%Z
  then S754_finite false (2 ^ 53 - 1) (e - 1)
  else S754_finite false (m - 1) e.

End Binary64.

(** * Binary64 comparisons

    The comparisons of the script are those of IEEE-754: every comparison
    with NaN is false, and the two zeros are equal.  The facts below are
    read off [SFcompare], the specification of the primitive comparisons. *)

Module F64.
Import Binary64.
Local Open Scope Z_scope.

Ltac cmp_cases :=
  repeat match goal with
  | H : context [Pos.compare_cont Eq ?a ?b] |- _ =>
      change (Pos.compare_cont Eq a b) with (Pos.compare a b) in H
  | |- context [Pos.compare_cont Eq ?a ?b] =>
      change (Pos.compare_cont Eq a b) with (Pos.compare a b)
  end;
  repeat match goal with
  | H : context [Z.compare ?a ?b] |- _ =>
      destruct (Z.compare_spec a b); simpl in H; try discriminate H
  | H : context [Pos.compare ?a ?b] |- _ =>
      destruct (Pos.compare_spec a b); simpl in H; try discriminate H
  | |- context [Z.compare ?a ?b] => destruct (Z.compare_spec a b); simpl
  | |- context [Pos.compare ?a ?b] => destruct (Pos.compare_spec a b); simpl
  end; subst; try reflexivity; try discriminate; try lia.

Ltac sf_cases x m e := destruct x as [[]|[]| |[] m e].

Lemma SFcompare_swap x y : SFcompare y x = option_map CompOpp (SFcompare x y).
Proof.
  sf_cases x m1 e1; sf_cases y m2 e2; simpl; try reflexivity; cmp_cases.
Qed.

Lemma SFleb_trans x y z : SFleb x y = true -> SFleb y z = true -> SFleb x z = true.
Proof.
  unfold SFleb.
  sf_cases x m1 e1; sf_cases y m2 e2; sf_cases z m3 e3; simpl;
    try reflexivity; try discriminate; intros H1 H2; cmp_cases.
Qed.

Lemma SFleb_ltb_trans x y z : SFleb x y = true -> SFltb y z = true -> SFltb x z = true.
Proof.
  unfold SFleb, SFltb.
  sf_cases x m1 e1; sf_cases y m2 e2; sf_cases z m3 e3; simpl;
    try reflexivity; try discriminate; intros H1 H2; cmp_cases.
Qed.

Lemma SFltb_leb_trans x y z : SFltb x y = true -> SFleb y z = true -> SFltb x z = true.
Proof.
  unfold SFleb, SFltb.
  sf_cases x m1 e1; sf_cases y m2 e2; sf_cases z m3 e3; simpl;
    try reflexivity; try discriminate; intros H1 H2; cmp_cases.
Qed.

Lemma SFltb_leb x y : SFltb x y = true -> SFleb x y = true.
Proof. unfold SFltb, SFleb. destruct (SFcompare x y) as [[]|]; congruence. Qed.

Lemma SFleb_nltb x y : SFleb x y = true -> SFltb y x = false.
Proof.
  unfold SFltb, SFleb. rewrite (SFcompare_swap x y).
  destruct (SFcompare x y) as [[]|]; simpl; congruence.
Qed.

Lemma SFnltb_leb x y :
  x <> S754_nan -> y <> S754_nan -> SFltb x y = false -> SFleb y x = true.
Proof.
  unfold SFltb, SFleb. rewrite (SFcompare_swap x y). intros Hx Hy.
  assert (SFcompare x y <> None).
  { sf_cases x m1 e1; sf_cases y m2 e2; simpl; congruence. }
  destruct (SFcompare x y) as [[]|]; simpl; congruence.
Qed.

Lemma SFltb_irrefl x : SFltb x x = false.
Proof. unfold SFltb. sf_cases x m e; simpl; try reflexivity; cmp_cases. Qed.

Lemma SFleb_refl x : x <> S754_nan -> SFleb x x = true.
Proof.
  unfold SFleb. sf_cases x m e; simpl; try reflexivity; try congruence;
    intros _; cmp_cases.
Qed.

Lemma SFleb_notnan x y : SFleb x y = true -> x <> S754_nan /\ y <> S754_nan.
Proof.
  unfold SFleb; sf_cases x m1 e1; sf_cases y m2 e2; simpl; intros; split; congruence.
Qed.

(** ** The sign of a rounded result *)

Lemma shr_1_nonneg mrs : 0 <= shr_m mrs -> 0 <= shr_m (shr_1 mrs).
Proof.
  destruct mrs as [m r s]; simpl. destruct m as [|[p|p|]|[p|p|]]; simpl; lia.
Qed.

Lemma iter_pos_shr_1_nonneg n :
  forall mrs, 0 <= shr_m mrs -> 0 <= shr_m (SpecFloat.iter_pos shr_1 n mrs).
Proof. induction n; simpl; intros; auto using shr_1_nonneg. Qed.

Lemma shr_fexp_nonneg m e l :
  0 <= m -> 0 <= shr_m (fst (shr_fexp prec emax m e l)).
Proof.
  intros. unfold shr_fexp, shr.
  assert (0 <= shr_m (shr_record_of_loc m l)) by (destruct l as [|[]]; simpl; auto).
  destruct (fexp prec emax (Zdigits2 m + e) - e); simpl;
    auto using iter_pos_shr_1_nonneg.
Qed.

Lemma round_nearest_even_nonneg m l : 0 <= m -> 0 <= round_nearest_even m l.
Proof.
  intros. destruct l as [|[]]; simpl; try lia. destruct (Z.even m); lia.
Qed.

Lemma binary_round_aux_sign sx mx ex lx :
  0 <= mx -> signed_as sx (binary_round_aux prec emax sx mx ex lx).
Proof.
  intros Hm. unfold binary_round_aux.
  pose proof (shr_fexp_nonneg mx ex lx Hm) as H1.
  destruct (shr_fexp prec emax mx ex lx) as [mrs' e']. simpl in H1.
  pose proof (shr_fexp_nonneg _ e' loc_Exact
                (round_nearest_even_nonneg _ (loc_of_shr_record mrs') H1)) as H2.
  destruct (shr_fexp prec emax _ e' loc_Exact) as [mrs'' e'']. simpl in H2.
  destruct (shr_m mrs''); simpl; try reflexivity; try lia.
  match goal with |- context [if ?c then _ else _] => destruct c end; simpl; reflexivity.
Qed.

Lemma binary_round_sign sx mx ex :
  signed_as sx (binary_round prec emax sx mx ex).
Proof.
  unfold binary_round. destruct (shl_align mx ex _) as [mz ez].
  apply binary_round_aux_sign. lia.
Qed.

Lemma signed_as_nonneg f : signed_as false f -> SFleb (S754_zero false) f = true.
Proof. sf_cases f m e; simpl; intros H; try reflexivity; try discriminate H; contradiction. Qed.

Lemma SFadd_nonneg x y :
  SFleb (S754_zero false) x = true -> SFleb (S754_zero false) y = true ->
  SFleb (S754_zero false) (SF64add x y) = true.
Proof.
  sf_cases x m1 e1; sf_cases y m2 e2; simpl; try discriminate; try reflexivity.
  intros _ _. apply signed_as_nonneg. unfold binary_normalize.
  destruct (shl_align m1 e1 (Z.min e1 e2)) as [a ?], (shl_align m2 e2 (Z.min e1 e2)) as [b ?].
  simpl. apply binary_round_sign.
Qed.

Lemma SFopp_nonneg x :
  SFleb (S754_zero false) x = true -> SFleb (SFopp x) (S754_zero false) = true.
Proof. sf_cases x m e; simpl; try discriminate; reflexivity. Qed.

Lemma SFmul_comm x y : SF64mul x y = SF64mul y x.
Proof.
  unfold SF64mul, SFmul.
  destruct x as [sx|sx| |sx mx ex], y as [sy|sy| |sy my ey];
    try reflexivity; rewrite (xorb_comm sx sy); try reflexivity.
  now rewrite Pos.mul_comm, Z.add_comm.
Qed.

(** ** The same facts on primitive floats *)

Local Open Scope float_scope.

Lemma is_nan_spec x : is_nan x = false <-> Prim2SF x <> S754_nan.
Proof.
  unfold is_nan. rewrite eqb_spec. unfold SFeqb.
  split.
  - intros H E. rewrite E in H. discriminate.
  - intros H. pose proof (SFleb_refl _ H) as R. unfold SFleb in R.
    assert (SFcompare (Prim2SF x) (Prim2SF x) <> Some Lt).
    { pose proof (SFltb_irrefl (Prim2SF x)) as I. unfold SFltb in I.
      destruct (SFcompare (Prim2SF x) (Prim2SF x)) as [[]|]; congruence. }
    destruct (SFcompare (Prim2SF x) (Prim2SF x)) as [[]|]; simpl; congruence.
Qed.

Lemma leb_trans x y z : (x <=? y) = true -> (y <=? z) = true -> (x <=? z) = true.
Proof. rewrite !leb_spec. apply SFleb_trans. Qed.

Lemma leb_ltb_trans x y z : (x <=? y) = true -> (y <? z) = true -> (x <? z) = true.
Proof. rewrite !leb_spec, !ltb_spec. apply SFleb_ltb_trans. Qed.

Lemma ltb_leb_trans x y z : (x <? y) = true -> (y <=? z) = true -> (x <? z) = true.
Proof. rewrite !leb_spec, !ltb_spec. apply SFltb_leb_trans. Qed.

Lemma ltb_leb x y : (x <? y) = true -> (x <=? y) = true.
Proof. rewrite leb_spec, ltb_spec. apply SFltb_leb. Qed.

Lemma leb_nltb x y : (x <=? y) = true -> (y <? x) = false.
Proof. rewrite leb_spec, ltb_spec. apply SFleb_nltb. Qed.

Lemma ltb_nltb x y : (x <? y) = true -> (y <? x) = false.
Proof. intros H. apply leb_nltb, ltb_leb, H. Qed.

Lemma nltb_leb x y :
  is_nan x = false -> is_nan y = false -> (x <? y) = false -> (y <=? x) = true.
Proof. rewrite !is_nan_spec, leb_spec, ltb_spec. apply SFnltb_leb. Qed.

Lemma ltb_irrefl x : (x <? x) = false.
Proof. rewrite ltb_spec. apply SFltb_irrefl. Qed.

Lemma leb_refl x : is_nan x = false -> (x <=? x) = true.
Proof. rewrite is_nan_spec, leb_spec. apply SFleb_refl. Qed.

Lemma leb_notnan x y : (x <=? y) = true -> is_nan x = false /\ is_nan y = false.
Proof. rewrite !is_nan_spec, leb_spec. apply SFleb_notnan. Qed.

Lemma ltb_notnan x y : (x <? y) = true -> is_nan x = false /\ is_nan y = false.
Proof. intros H. apply leb_notnan, ltb_leb, H. Qed.

Lemma add_nonneg x y : (0 <=? x) = true -> (0 <=? y) = true -> (0 <=? x + y) = true.
Proof. rewrite !leb_spec, add_spec. apply SFadd_nonneg. Qed.

Lemma opp_nonneg x : (0 <=? x) = true -> (- x <=? 0) = true.
Proof. rewrite !leb_spec, opp_spec. apply SFopp_nonneg. Qed.

Lemma mul_comm x y : x * y = y * x.
Proof. apply Prim2SF_inj. rewrite !mul_spec. apply SFmul_comm. Qed.

End F64.

(** * Binary64 arithmetic

    The arithmetic operations of the script are the correctly rounded ones
    of IEEE-754.  Their specification ([SFadd], [SFmul], ... in the standard
    library) computes on mantissas and exponents; this part relates it to
    the real numbers the values stand for: an operation on finite values
    rounds the exact real result, and rounding is monotone. *)

Module Rounding.
Import Binary64.
Local Open Scope R_scope.

Lemma bpow_pos e : 0 < bpow e.
Proof. apply powerRZ_lt. lra. Qed.

Lemma bpow_add a b : bpow (a + b) = bpow a * bpow b.
Proof. apply powerRZ_add. lra. Qed.

Lemma bpow_0 : bpow 0 = 1.
Proof. reflexivity. Qed.

Lemma bpow_1 : bpow 1 = 2.
Proof. unfold bpow. simpl. lra. Qed.

Lemma bpow_m1 : bpow (-1) = / 2.
Proof. unfold bpow. simpl. lra. Qed.

Lemma bpow_opp e : bpow (- e) = / bpow e.
Proof. apply powerRZ_neg'. Qed.

Lemma bpow_IZR n : (0 <= n)%Z -> bpow n = IZR (2 ^ n).
Proof.
  intros H. unfold bpow. rewrite <- (Z2Nat.id n H) at 1.
  rewrite <- pow_powerRZ. rewrite pow_IZR. now rewrite Z2Nat.id.
Qed.

Lemma bpow_le a b : (a <= b)%Z -> bpow a <= bpow b.
Proof.
  intros H. replace b with (a + (b - a))%Z by lia.
  rewrite bpow_add. rewrite (bpow_IZR (b - a)) by lia.
  assert (1 <= IZR (2 ^ (b - a))).
  { apply IZR_le. assert (0 < 2 ^ (b - a))%Z by (apply Z.pow_pos_nonneg; lia). lia. }
  pose proof (bpow_pos a). nra.
Qed.

Lemma bpow_lt a b : (a < b)%Z -> bpow a < bpow b.
Proof.
  intros H. replace b with (a + (b - a))%Z by lia.
  rewrite bpow_add. rewrite (bpow_IZR (b - a)) by lia.
  assert (2 <= IZR (2 ^ (b - a))).
  { apply IZR_le. replace (b - a)%Z with (Z.succ (b - a - 1)) by lia.
    rewrite Z.pow_succ_r by lia.
    assert (0 < 2 ^ (b - a - 1))%Z by (apply Z.pow_pos_nonneg; lia). lia. }
  pose proof (bpow_pos a). nra.
Qed.

Lemma bpow_lt_inv a b : bpow a < bpow b -> (a < b)%Z.
Proof.
  intros H. destruct (Z_lt_le_dec a b) as [|L]; [assumption|].
  apply bpow_le in L. lra.
Qed.

(** digits *)
Lemma digits2_size m : digits2_pos m = Pos.size m.
Proof. induction m; simpl; congruence. Qed.

Lemma digits2_bounds m :
  (2 ^ (Z.pos (digits2_pos m) - 1) <= Z.pos m < 2 ^ Z.pos (digits2_pos m))%Z.
Proof.
  rewrite digits2_size. split.
  - pose proof (Pos.size_le m) as H.
    assert (Z.pos (2 ^ Pos.size m) <= Z.pos m~0)%Z by exact H.
    rewrite Pos2Z.inj_pow in H0.
    replace (Z.pos (Pos.size m)) with (Z.succ (Z.pos (Pos.size m) - 1)) in H0 by lia.
    rewrite Z.pow_succ_r in H0 by lia. lia.
  - pose proof (Pos.size_gt m) as H.
    assert (Z.pos m < Z.pos (2 ^ Pos.size m))%Z by exact H.
    now rewrite Pos2Z.inj_pow in H0.
Qed.

Lemma Zdigits2_bounds m :
  (0 < m)%Z -> (2 ^ (Zdigits2 m - 1) <= m < 2 ^ Zdigits2 m)%Z.
Proof. destruct m; try lia. intros _. apply digits2_bounds. Qed.

Lemma Zdigits2_nonneg m : (0 <= Zdigits2 m)%Z.
Proof. destruct m; simpl; lia. Qed.

(** digits are characterised by the bounds *)
Lemma Zdigits2_unique m d :
  (2 ^ (d - 1) <= m < 2 ^ d)%Z -> (0 < d)%Z -> Zdigits2 m = d.
Proof.
  intros [L U] Hd.
  assert (0 < m)%Z. { assert (0 < 2 ^ (d - 1))%Z by (apply Z.pow_pos_nonneg; lia). lia. }
  destruct (Zdigits2_bounds m H) as [L' U'].
  pose proof (Zdigits2_nonneg m).
  destruct (Z.lt_trichotomy (Zdigits2 m) d) as [C|[C|C]]; [|assumption|].
  - assert (2 ^ Zdigits2 m <= 2 ^ (d - 1))%Z by (apply Z.pow_le_mono_r; lia). lia.
  - assert (2 ^ d <= 2 ^ (Zdigits2 m - 1))%Z by (apply Z.pow_le_mono_r; lia). lia.
Qed.

Lemma inbetween_bounds t m l : inbetween t m l -> IZR m <= t < IZR m + 1.
Proof. destruct l as [|[]]; simpl; lra. Qed.

Lemma inbetween_unique t m1 l1 m2 l2 :
  inbetween t m1 l1 -> inbetween t m2 l2 -> m1 = m2 /\ l1 = l2.
Proof.
  intros H1 H2.
  pose proof (inbetween_bounds _ _ _ H1) as B1.
  pose proof (inbetween_bounds _ _ _ H2) as B2.
  assert (m1 = m2).
  { assert (IZR m1 < IZR (m2 + 1)) by (rewrite plus_IZR; lra).
    assert (IZR m2 < IZR (m1 + 1)) by (rewrite plus_IZR; lra).
    apply lt_IZR in H, H0. lia. }
  subst m2. split; [reflexivity|].
  destruct l1 as [|[]], l2 as [|[]]; simpl in *; try reflexivity; lra.
Qed.

Lemma IZR_xO p : IZR (Z.pos p~0) = 2 * IZR (Z.pos p).
Proof. rewrite Pos2Z.inj_xO, mult_IZR. reflexivity. Qed.

Lemma IZR_xI p : IZR (Z.pos p~1) = 2 * IZR (Z.pos p) + 1.
Proof. rewrite Pos2Z.inj_xI, plus_IZR, mult_IZR. reflexivity. Qed.

Lemma shr_1_inb t mrs :
  (0 <= shr_m mrs)%Z -> inb_rec t mrs -> inb_rec (t / 2) (shr_1 mrs).
Proof.
  unfold inb_rec. destruct mrs as [m r s]. cbn [shr_m]. intros Hm.
  destruct m as [|[p|p|]|p]; [| | | |exfalso; lia]; destruct r, s;
    cbn [shr_1 shr_m loc_of_shr_record inbetween orb];
    try rewrite (IZR_xO p); try rewrite (IZR_xI p); lra.
Qed.

Lemma iter_pos_shr_1_inb n :
  forall t mrs, (0 <= shr_m mrs)%Z -> inb_rec t mrs ->
  inb_rec (t * bpow (- Z.pos n)) (SpecFloat.iter_pos shr_1 n mrs).
Proof.
  induction n as [n IH|n IH|]; intros t mrs Hm H; cbn [SpecFloat.iter_pos].
  - replace (t * bpow (- Z.pos n~1))
      with (t / 2 * bpow (- Z.pos n) * bpow (- Z.pos n)).
    + apply IH; [apply F64.iter_pos_shr_1_nonneg, F64.shr_1_nonneg, Hm|].
      apply IH; [apply F64.shr_1_nonneg, Hm|]. now apply shr_1_inb.
    + replace (- Z.pos n~1)%Z with (- Z.pos n + - Z.pos n + -1)%Z by lia.
      rewrite !bpow_add, bpow_m1. field.
  - replace (t * bpow (- Z.pos n~0)) with (t * bpow (- Z.pos n) * bpow (- Z.pos n)).
    + apply IH; [apply F64.iter_pos_shr_1_nonneg, Hm|]. now apply IH.
    + replace (- Z.pos n~0)%Z with (- Z.pos n + - Z.pos n)%Z by lia.
      rewrite !bpow_add. ring.
  - change (- Z.pos 1)%Z with (-1)%Z. replace (t * bpow (-1)) with (t / 2).
    + now apply shr_1_inb.
    + rewrite bpow_m1. field.
Qed.

(** [shr_fexp]: the mantissa is brought to the canonical exponent. *)
Lemma shr_fexp_inb t m e l :
  (0 <= m)%Z -> inbetween t m l ->
  (e <= fexp prec emax (Zdigits2 m + e))%Z ->
  let e' := fexp prec emax (Zdigits2 m + e) in
  let mrs' := fst (shr_fexp prec emax m e l) in
  snd (shr_fexp prec emax m e l) = e'
  /\ (0 <= shr_m mrs')%Z
  /\ inb_rec (t * bpow (e - e')) mrs'.
Proof.
  intros Hm Ht He e' mrs'. unfold mrs'. unfold shr_fexp, shr. fold e'.
  assert (H0 : inb_rec t (shr_record_of_loc m l)).
  { unfold inb_rec. destruct l as [|[]]; exact Ht. }
  assert (Hm0 : (0 <= shr_m (shr_record_of_loc m l))%Z).
  { destruct l as [|[]]; exact Hm. }
  destruct (e' - e)%Z as [|n|n] eqn:En; cbn [fst snd].
  - assert (e' = e) by lia. split; [lia|]. split; [exact Hm0|].
    replace (e - e')%Z with 0%Z by lia. rewrite bpow_0, Rmult_1_r. exact H0.
  - split; [lia|]. split; [apply F64.iter_pos_shr_1_nonneg, Hm0|].
    replace (e - e')%Z with (- Z.pos n)%Z by lia.
    now apply iter_pos_shr_1_inb.
  - exfalso. fold e' in He. lia.
Qed.

(** ** Rounding to nearest, ties to even *)

Lemma rne_cases m l :
  round_nearest_even m l = m \/ round_nearest_even m l = (m + 1)%Z.
Proof. destruct l as [|[]]; simpl; auto. destruct (Z.even m); auto. Qed.

Lemma rne_mono t1 m1 l1 t2 m2 l2 :
  inbetween t1 m1 l1 -> inbetween t2 m2 l2 -> t1 <= t2 ->
  (round_nearest_even m1 l1 <= round_nearest_even m2 l2)%Z.
Proof.
  intros H1 H2 Ht.
  pose proof (inbetween_bounds _ _ _ H1) as B1.
  pose proof (inbetween_bounds _ _ _ H2) as B2.
  assert (m1 <= m2)%Z.
  { assert (IZR m1 < IZR (m2 + 1)) by (rewrite plus_IZR; lra).
    apply lt_IZR in H. lia. }
  destruct (Z.eq_dec m1 m2) as [->|Hne].
  - destruct l1 as [|[]], l2 as [|[]]; simpl in *; try lia; try lra;
      destruct (Z.even m2); lia.
  - destruct (rne_cases m1 l1), (rne_cases m2 l2); lia.
Qed.

Ltac unfold_fexp :=
  unfold fexp, SpecFloat.emin in *;
  change prec with 53%Z in *; change emax with 1024%Z in *.

Lemma fexp_eq x : fexp prec emax x = Z.max (x - 53) (-1074).
Proof. reflexivity. Qed.

Lemma IZR_lt_pow2 (m : Z) (k : Z) : (0 <= k)%Z -> IZR m < bpow k -> (m < 2 ^ k)%Z.
Proof. intros Hk H. rewrite bpow_IZR in H by assumption. now apply lt_IZR. Qed.

Lemma IZR_ge_pow2 (m : Z) (k : Z) : (0 <= k)%Z -> bpow k < IZR m + 1 -> (2 ^ k <= m)%Z.
Proof.
  intros Hk H. rewrite bpow_IZR in H by assumption.
  rewrite <- plus_IZR in H. apply lt_IZR in H. lia.
Qed.

Lemma shifted_mantissa_bounds t mx ex m1 l1 :
  (0 <= mx)%Z -> IZR mx <= t < IZR mx + 1 ->
  let e := fexp prec emax (Zdigits2 mx + ex) in
  (ex <= e)%Z ->
  inbetween (t * bpow (ex - e)) m1 l1 ->
  (m1 < 2 ^ 53)%Z /\ ((-1074 < e)%Z -> (2 ^ 52 <= m1)%Z).
Proof.
  intros Hmx Ht e He Hu.
  pose proof (inbetween_bounds _ _ _ Hu) as Bu.
  pose proof (bpow_pos (ex - e)) as Hp.
  unfold e in *. rewrite fexp_eq in *. clear e.
  set (d := Zdigits2 mx) in *.
  destruct (Z.eq_dec mx 0) as [->|Hne].
  - (* nothing but a fraction *)
    simpl in d. subst d. split; [|intros; lia].
    assert (bpow (ex - Z.max (0 + ex - 53) (-1074)) <= bpow 0) by (apply bpow_le; lia).
    rewrite bpow_0 in H. apply (IZR_lt_pow2 m1 53); [lia|].
    assert (1 <= bpow 53) by (rewrite <- bpow_0; apply bpow_le; lia).
    simpl in Ht. nra.
  - destruct (Zdigits2_bounds mx ltac:(lia)) as [L U]. fold d in L, U.
    pose proof (Zdigits2_nonneg mx) as Hd. fold d in Hd.
    assert (0 < d)%Z.
    { destruct (Z.eq_dec d 0) as [E|]; [|lia]. rewrite E in U. simpl in U. lia. }
    assert (Lr : bpow (d - 1) <= t).
    { rewrite bpow_IZR by lia. apply IZR_le in L. lra. }
    assert (Ur : t < bpow d).
    { rewrite bpow_IZR by lia.
      assert (mx + 1 <= 2 ^ d)%Z by lia. apply IZR_le in H0. rewrite plus_IZR in H0. lra. }
    split.
    + apply (IZR_lt_pow2 m1 53); [lia|].
      assert (bpow (ex - Z.max (d + ex - 53) (-1074)) <= bpow (53 - d)) by (apply bpow_le; lia).
      assert (bpow d * bpow (53 - d) = bpow 53) by (rewrite <- bpow_add; f_equal; lia).
      pose proof (bpow_pos d). pose proof (bpow_pos (53 - d)). nra.
    + intros Hn. apply (IZR_ge_pow2 m1 52); [lia|].
      replace (Z.max (d + ex - 53) (-1074)) with (d + ex - 53)%Z in * by lia.
      replace (ex - (d + ex - 53))%Z with (53 - d)%Z in * by lia.
      assert (bpow (d - 1) * bpow (53 - d) = bpow 52) by (rewrite <- bpow_add; f_equal; lia).
      pose proof (bpow_pos (d - 1)). pose proof (bpow_pos (53 - d)). nra.
Qed.

Lemma second_shift sx N e :
  (-1074 <= e)%Z -> (0 <= N <= 2 ^ 53)%Z ->
  (let '(mrs'', e'') := shr_fexp prec emax N e loc_Exact in
   match shr_m mrs'' with
   | Z0 => S754_zero sx
   | Zpos m => if (e'' <=? emax - prec)%Z then S754_finite sx m e'' else S754_infinity sx
   | Zneg _ => S754_nan
   end) = finish sx N e.
Proof.
  intros He HN. unfold shr_fexp. rewrite fexp_eq.
  destruct (Z.eq_dec N (2 ^ 53)) as [->|Hne].
  - change (Zdigits2 (2 ^ 53)) with 54%Z.
    replace (Z.max (54 + e - 53) (-1074) - e)%Z with 1%Z by lia.
    cbn. reflexivity.
  - destruct N as [|p|p]; [| |lia].
    + cbn [Zdigits2]. unfold shr.
      destruct (Z.max (0 + e - 53) (-1074) - e)%Z eqn:E; try lia; reflexivity.
    + destruct (Zdigits2_bounds (Z.pos p) ltac:(lia)) as [L U].
      assert (Zdigits2 (Z.pos p) <= 53)%Z.
      { destruct (Z_le_gt_dec (Zdigits2 (Z.pos p)) 53) as [|G]; [assumption|exfalso].
        assert (2 ^ 53 <= 2 ^ (Zdigits2 (Z.pos p) - 1))%Z by (apply Z.pow_le_mono_r; lia).
        lia. }
      unfold shr.
      destruct (Z.max (Zdigits2 (Z.pos p) + e - 53) (-1074) - e)%Z eqn:E; try lia;
        cbn [shr_record_of_loc shr_m finish];
        (replace (Z.pos p =? 2 ^ 53)%Z with false by (symmetry; apply Z.eqb_neq; exact Hne));
        reflexivity.
Qed.

(** The normal form of [binary_round_aux]. *)
Lemma binary_round_aux_form sx t mx ex lx :
  (0 <= mx)%Z -> inbetween t mx lx ->
  let e := fexp prec emax (Zdigits2 mx + ex) in
  (ex <= e)%Z ->
  exists m1 l1,
    inbetween (t * bpow (ex - e)) m1 l1
    /\ (0 <= m1 < 2 ^ 53)%Z
    /\ ((-1074 < e)%Z -> (2 ^ 52 <= m1)%Z)
    /\ binary_round_aux prec emax sx mx ex lx = finish sx (round_nearest_even m1 l1) e.
Proof.
  intros Hmx Ht e He.
  destruct (shr_fexp_inb t mx ex lx Hmx Ht He) as (E1 & Hm1 & Hu).
  fold e in E1, Hu.
  unfold binary_round_aux.
  destruct (shr_fexp prec emax mx ex lx) as [mrs' e']. cbn [fst snd] in *. subst e'.
  exists (shr_m mrs'), (loc_of_shr_record mrs').
  destruct (shifted_mantissa_bounds t mx ex _ _ Hmx (inbetween_bounds _ _ _ Ht) He Hu)
    as [B1 B2].
  split; [exact Hu|]. split; [lia|]. split; [exact B2|].
  apply second_shift.
  - unfold e. rewrite fexp_eq. lia.
  - destruct (rne_cases (shr_m mrs') (loc_of_shr_record mrs')); lia.
Qed.

Lemma cexp_mono v1 mx1 ex1 lx1 v2 mx2 ex2 lx2 :
  round_input v1 mx1 ex1 lx1 -> round_input v2 mx2 ex2 lx2 -> v1 <= v2 ->
  (fexp prec emax (Zdigits2 mx1 + ex1) <= fexp prec emax (Zdigits2 mx2 + ex2))%Z.
Proof.
  intros (Hm1 & (t1 & Ht1 & Hv1) & He1) (Hm2 & (t2 & Ht2 & Hv2) & He2) Hv.
  unfold_fexp.
  apply inbetween_bounds in Ht1, Ht2.
  destruct (Z.eq_dec mx1 0) as [->|N1].
  { cbn [Zdigits2] in *. lia. }
  destruct (Zdigits2_bounds mx1 ltac:(lia)) as [L1 U1].
  assert (D1 : (0 < Zdigits2 mx1)%Z).
  { pose proof (Zdigits2_nonneg mx1).
    destruct (Z.eq_dec (Zdigits2 mx1) 0) as [E|]; [|lia]. rewrite E in U1. simpl in U1. lia. }
  assert (Lv1 : bpow (Zdigits2 mx1 - 1 + ex1) <= v1).
  { rewrite bpow_add, (bpow_IZR (Zdigits2 mx1 - 1)) by lia. apply IZR_le in L1.
    pose proof (bpow_pos ex1). subst v1. nra. }
  destruct (Z.eq_dec mx2 0) as [->|N2].
  - cbn [Zdigits2] in *.
    assert (v2 < bpow ex2).
    { pose proof (bpow_pos ex2). subst v2. simpl in Ht2. nra. }
    assert (Zdigits2 mx1 - 1 + ex1 < ex2)%Z by (apply bpow_lt_inv; lra).
    lia.
  - destruct (Zdigits2_bounds mx2 ltac:(lia)) as [L2 U2].
    pose proof (Zdigits2_nonneg mx2) as D2.
    assert (Uv2 : v2 < bpow (Zdigits2 mx2 + ex2)).
    { rewrite bpow_add, (bpow_IZR (Zdigits2 mx2)) by lia.
      assert (mx2 + 1 <= 2 ^ Zdigits2 mx2)%Z by lia.
      apply IZR_le in H. rewrite plus_IZR in H.
      pose proof (bpow_pos ex2). subst v2. nra. }
    assert (Zdigits2 mx1 - 1 + ex1 < Zdigits2 mx2 + ex2)%Z by (apply bpow_lt_inv; lra).
    lia.
Qed.

Lemma finish_leb N1 e1 N2 e2 :
  (0 <= N1 <= 2 ^ 53)%Z -> (0 <= N2 <= 2 ^ 53)%Z ->
  ((e1 = e2 /\ N1 <= N2) \/ (e1 < e2 /\ 2 ^ 52 <= N2))%Z ->
  SFleb (finish false N1 e1) (finish false N2 e2) = true.
Proof.
  unfold finish, SFleb.
  assert (ET : (2 ^ 53 = 9007199254740992)%Z) by reflexivity.
  assert (EP : (Z.pos (2 ^ 52) = 4503599627370496)%Z) by reflexivity.
  assert (EQ : (2 ^ 52 = 4503599627370496)%Z) by reflexivity.
  revert ET EP EQ.
  generalize (2 ^ 53)%Z (2 ^ 52)%positive (2 ^ 52)%Z. intros T P Q ET EP EQ H1 H2 H.
  destruct N1 as [|p1|p1]; [| |lia]; destruct N2 as [|p2|p2]; try lia;
    repeat match goal with
           | |- context [(?a =? ?b)%Z] => destruct (Z.eqb_spec a b)
           | |- context [(?a <=? ?b)%Z] => destruct (Z.leb_spec a b)
           end; cbn [SFcompare]; try reflexivity; try lia;
    F64.cmp_cases.
Qed.

Lemma finish_opp N e : finish true N e = SFopp (finish false N e).
Proof.
  unfold finish. destruct N; try reflexivity.
  repeat match goal with |- context [if ?c then _ else _] => destruct c end; reflexivity.
Qed.

Lemma finish_sign sx N e : (0 <= N)%Z -> signed_as sx (finish sx N e).
Proof.
  intros H. unfold finish. destruct N; [reflexivity| |lia].
  repeat match goal with |- context [if ?c then _ else _] => destruct c end; reflexivity.
Qed.

Lemma binary_round_aux_opp t mx ex lx :
  round_input t mx ex lx ->
  binary_round_aux prec emax true mx ex lx
  = SFopp (binary_round_aux prec emax false mx ex lx).
Proof.
  intros (Hm & (u & Hu & _) & He).
  destruct (binary_round_aux_form true u mx ex lx Hm Hu He) as (m1 & l1 & I1 & _ & _ & E1).
  destruct (binary_round_aux_form false u mx ex lx Hm Hu He) as (m2 & l2 & I2 & _ & _ & E2).
  destruct (inbetween_unique _ _ _ _ _ I1 I2) as [-> ->].
  rewrite E1, E2. apply finish_opp.
Qed.

(** Rounding is monotone on non-negative reals. *)
Lemma binary_round_aux_mono v1 mx1 ex1 lx1 v2 mx2 ex2 lx2 :
  round_input v1 mx1 ex1 lx1 -> round_input v2 mx2 ex2 lx2 -> v1 <= v2 ->
  SFleb (binary_round_aux prec emax false mx1 ex1 lx1)
        (binary_round_aux prec emax false mx2 ex2 lx2) = true.
Proof.
  intros R1 R2 Hv.
  pose proof (cexp_mono _ _ _ _ _ _ _ _ R1 R2 Hv) as He.
  destruct R1 as (Hm1 & (t1 & Ht1 & Hv1) & He1), R2 as (Hm2 & (t2 & Ht2 & Hv2) & He2).
  destruct (binary_round_aux_form false t1 mx1 ex1 lx1 Hm1 Ht1 He1)
    as (m1 & l1 & I1 & B1 & _ & ->).
  destruct (binary_round_aux_form false t2 mx2 ex2 lx2 Hm2 Ht2 He2)
    as (m2 & l2 & I2 & B2 & Nrm2 & ->).
  set (e1 := fexp prec emax (Zdigits2 mx1 + ex1)) in *.
  set (e2 := fexp prec emax (Zdigits2 mx2 + ex2)) in *.
  pose proof (rne_cases m1 l1) as C1. pose proof (rne_cases m2 l2) as C2.
  apply finish_leb; [destruct C1; lia | destruct C2; lia |].
  destruct (Z.eq_dec e1 e2) as [E|E].
  - left. split; [assumption|].
    apply (rne_mono _ _ _ _ _ _ I1 I2). rewrite <- E.
    replace (t1 * bpow (ex1 - e1)) with (v1 * bpow (- e1)).
    + replace (t2 * bpow (ex2 - e1)) with (v2 * bpow (- e1)).
      * pose proof (bpow_pos (- e1)). nra.
      * subst v2. unfold Z.sub. rewrite bpow_add. ring.
    + subst v1. unfold Z.sub. rewrite bpow_add. ring.
  - right. split; [lia|].
    assert (-1074 < e2)%Z.
    { assert (-1074 <= e1)%Z by (unfold e1; rewrite fexp_eq; lia). lia. }
    specialize (Nrm2 H). destruct C2; lia.
Qed.

Lemma SFleb_opp a b : SFleb a b = true -> SFleb (SFopp b) (SFopp a) = true.
Proof.
  unfold SFleb.
  destruct a as [[]|[]| |[] m1 e1], b as [[]|[]| |[] m2 e2]; simpl;
    try reflexivity; try discriminate; intros H; F64.cmp_cases.
Qed.

Lemma SFleb_signs a b :
  signed_as true a \/ (exists s, a = S754_zero s) ->
  signed_as false b \/ (exists s, b = S754_zero s) ->
  SFleb a b = true.
Proof.
  destruct a as [[]|[]| |[] m1 e1], b as [[]|[]| |[] m2 e2]; simpl;
    intros [Ha|[sa Ha]] [Hb|[sb Hb]]; try reflexivity;
    try discriminate; try contradiction.
Qed.

Lemma binary_round_aux_signed sx v mx ex lx :
  round_input v mx ex lx -> signed_as sx (binary_round_aux prec emax sx mx ex lx).
Proof.
  intros (Hm & (t & Ht & _) & He).
  destruct (binary_round_aux_form sx t mx ex lx Hm Ht He) as (m1 & l1 & _ & B & _ & ->).
  apply finish_sign. destruct (rne_cases m1 l1); lia.
Qed.

Theorem Rounds_mono v1 f1 v2 f2 :
  Rounds v1 f1 -> Rounds v2 f2 -> v1 <= v2 -> SFleb f1 f2 = true.
Proof.
  intros [[E1 [s1 ->]]|[[P1 (mx1 & ex1 & lx1 & I1 & ->)]|[N1 (mx1 & ex1 & lx1 & I1 & ->)]]]
         [[E2 [s2 ->]]|[[P2 (mx2 & ex2 & lx2 & I2 & ->)]|[N2 (mx2 & ex2 & lx2 & I2 & ->)]]]
         Hv; try lra.
  - reflexivity.
  - apply SFleb_signs; [right; eauto | left; eapply binary_round_aux_signed; eauto].
  - now apply (binary_round_aux_mono v1 _ _ _ v2).
  - apply SFleb_signs; [left; eapply binary_round_aux_signed; eauto | right; eauto].
  - apply SFleb_signs; left; eapply binary_round_aux_signed; eauto.
  - rewrite (binary_round_aux_opp _ _ _ _ I1), (binary_round_aux_opp _ _ _ _ I2).
    apply SFleb_opp. apply (binary_round_aux_mono (- v2) _ _ _ (- v1)); auto. lra.
Qed.

Lemma valid_finite_canonical s m e :
  valid_binary (S754_finite s m e) = true ->
  fexp prec emax (Z.pos (digits2_pos m) + e) = e /\ (e <= 971)%Z.
Proof.
  cbn [valid_binary SpecFloat.valid_binary]. unfold bounded, canonical_mantissa.
  intros H. apply andb_prop in H. destruct H as [H1 H2].
  apply Z.eqb_eq in H1. apply Z.leb_le in H2. split; [exact H1|exact H2].
Qed.

Lemma round_input_exact m e :
  fexp prec emax (Z.pos (digits2_pos m) + e) = e ->
  round_input (IZR (Z.pos m) * bpow e) (Z.pos m) e loc_Exact.
Proof.
  intros H. split; [lia|]. split.
  - exists (IZR (Z.pos m)). split; reflexivity.
  - cbn [Zdigits2]. rewrite H. lia.
Qed.

Lemma binary_round_aux_exact s m e :
  valid_binary (S754_finite s m e) = true ->
  binary_round_aux prec emax s (Z.pos m) e loc_Exact = S754_finite s m e.
Proof.
  intros V. destruct (valid_finite_canonical s m e V) as [C B].
  assert (He : (e <= fexp prec emax (Zdigits2 (Z.pos m) + e))%Z)
    by (cbn [Zdigits2]; rewrite C; lia).
  destruct (binary_round_aux_form s (IZR (Z.pos m)) (Z.pos m) e loc_Exact
              ltac:(lia) eq_refl He) as (m1 & l1 & I & Bm & _ & ->).
  cbn [Zdigits2] in I. rewrite C in I.
  replace (e - e)%Z with 0%Z in I by lia. rewrite bpow_0, Rmult_1_r in I.
  destruct (inbetween_unique _ _ _ _ _ I (eq_refl : inbetween _ (Z.pos m) loc_Exact))
    as [-> ->].
  cbn [Zdigits2]. rewrite C. cbn [round_nearest_even]. unfold finish.
  replace (Z.pos m =? 2 ^ 53)%Z with false by (symmetry; apply Z.eqb_neq; lia).
  replace (e <=? 971)%Z with true by (symmetry; apply Z.leb_le; lia).
  reflexivity.
Qed.

Theorem Rounds_exact f : SFfinite f -> Rounds (SF2R f) f.
Proof.
  destruct f as [s|s| |s m e]; simpl; try contradiction; intros V.
  - left. split; [reflexivity|eauto].
  - pose proof (binary_round_aux_exact s m e V) as E.
    destruct (valid_finite_canonical s m e V) as [C _].
    pose proof (round_input_exact m e C) as I.
    assert (0 < IZR (Z.pos m) * bpow e).
    { apply Rmult_lt_0_compat; [apply IZR_lt; lia | apply bpow_pos]. }
    destruct s.
    + right; right. split; [lra|]. exists (Z.pos m), e, loc_Exact.
      split; [|now rewrite E].
      replace (- (- IZR (Z.pos m) * bpow e)) with (IZR (Z.pos m) * bpow e) by ring.
      exact I.
    + right; left. split; [lra|]. exists (Z.pos m), e, loc_Exact.
      split; [exact I | now rewrite E].
Qed.

Lemma SFleb_antisym_value a b :
  SFleb a b = true -> SFleb b a = true -> SF2R a = SF2R b.
Proof.
  unfold SFleb.
  destruct a as [[]|[]| |[] m1 e1], b as [[]|[]| |[] m2 e2]; simpl;
    try reflexivity; try discriminate; intros H1 H2; F64.cmp_cases.
Qed.

(** On finite values the comparisons are those of the reals. *)
Theorem SFleb_SF2R a b :
  SFfinite a -> SFfinite b -> SFleb a b = true -> SF2R a <= SF2R b.
Proof.
  intros Fa Fb H. destruct (Rle_or_lt (SF2R a) (SF2R b)) as [|L]; [assumption|].
  assert (SFleb b a = true).
  { apply (Rounds_mono (SF2R b) b (SF2R a) a); auto using Rounds_exact. lra. }
  rewrite (SFleb_antisym_value a b); auto. lra.
Qed.

Theorem SF2R_SFleb a b :
  SFfinite a -> SFfinite b -> SF2R a <= SF2R b -> SFleb a b = true.
Proof.
  intros Fa Fb H. apply (Rounds_mono (SF2R a) a (SF2R b) b); auto using Rounds_exact.
Qed.

(** ** The operations round the exact result *)

Lemma digits2_pos_pos m : (0 < Z.pos (digits2_pos m))%Z.
Proof. lia. Qed.

Lemma Zdigits2_ge m k : (0 <= k)%Z -> (2 ^ k <= m)%Z -> (k + 1 <= Zdigits2 m)%Z.
Proof.
  intros Hk H.
  assert (0 < 2 ^ k)%Z by (apply Z.pow_pos_nonneg; lia).
  destruct (Zdigits2_bounds m ltac:(lia)) as [_ U].
  pose proof (Zdigits2_nonneg m).
  destruct (Z_lt_le_dec k (Zdigits2 m)) as [|L]; [lia|exfalso].
  assert (2 ^ Zdigits2 m <= 2 ^ k)%Z by (apply Z.pow_le_mono_r; lia). lia.
Qed.

Lemma digits2_mul mx my :
  (Z.pos (digits2_pos mx) + Z.pos (digits2_pos my) - 1
   <= Z.pos (digits2_pos (mx * my)))%Z.
Proof.
  destruct (digits2_bounds mx) as [Lx _], (digits2_bounds my) as [Ly _].
  set (dx := Z.pos (digits2_pos mx)) in *. set (dy := Z.pos (digits2_pos my)) in *.
  assert (Hd : (0 < dx /\ 0 < dy)%Z) by (unfold dx, dy; lia).
  assert (2 ^ (dx + dy - 2) <= Z.pos (mx * my))%Z.
  { replace (dx + dy - 2)%Z with ((dx - 1) + (dy - 1))%Z by lia.
    rewrite Z.pow_add_r by lia. rewrite Pos2Z.inj_mul.
    assert (0 < 2 ^ (dx - 1))%Z by (apply Z.pow_pos_nonneg; lia).
    assert (0 < 2 ^ (dy - 1))%Z by (apply Z.pow_pos_nonneg; lia).
    nia. }
  pose proof (Zdigits2_ge (Z.pos (mx * my)) (dx + dy - 2) ltac:(lia) H) as G.
  cbn [Zdigits2] in G. lia.
Qed.

Lemma mul_round_input mx ex my ey :
  fexp prec emax (Z.pos (digits2_pos mx) + ex) = ex ->
  fexp prec emax (Z.pos (digits2_pos my) + ey) = ey ->
  round_input (IZR (Z.pos (mx * my)) * bpow (ex + ey)) (Z.pos (mx * my)) (ex + ey) loc_Exact.
Proof.
  intros Cx Cy. split; [lia|]. split.
  - exists (IZR (Z.pos (mx * my))). split; reflexivity.
  - cbn [Zdigits2]. pose proof (digits2_mul mx my).
    pose proof (digits2_pos_pos mx). pose proof (digits2_pos_pos my).
    unfold_fexp. lia.
Qed.

Theorem SFmul_Rounds x y :
  SFfinite x -> SFfinite y -> Rounds (SF2R x * SF2R y) (SF64mul x y).
Proof.
  destruct x as [sx|sx| |sx mx ex]; simpl; try contradiction;
    destruct y as [sy|sy| |sy my ey]; simpl; try contradiction; intros Vx Vy;
    try (left; split; [ring | eauto]).
  destruct (valid_finite_canonical sx mx ex Vx) as [Cx _].
  destruct (valid_finite_canonical sy my ey Vy) as [Cy _].
  pose proof (mul_round_input mx ex my ey Cx Cy) as I.
  assert (P : 0 < IZR (Z.pos (mx * my)) * bpow (ex + ey)).
  { apply Rmult_lt_0_compat; [apply IZR_lt; lia | apply bpow_pos]. }
  assert (E : IZR (Z.pos (mx * my)) * bpow (ex + ey)
              = IZR (Z.pos mx) * bpow ex * (IZR (Z.pos my) * bpow ey)).
  { rewrite Pos2Z.inj_mul, mult_IZR, bpow_add. ring. }
  unfold SF64mul, SFmul.
  destruct sx, sy; cbn [xorb].
  - right; left. split; [rewrite E in P; lra|].
    exists (Z.pos (mx * my)), (ex + ey)%Z, loc_Exact. split; [|reflexivity].
    replace (- IZR (Z.pos mx) * bpow ex * (- IZR (Z.pos my) * bpow ey))
      with (IZR (Z.pos (mx * my)) * bpow (ex + ey)) by (rewrite E; ring). exact I.
  - right; right. split; [rewrite E in P; lra|].
    exists (Z.pos (mx * my)), (ex + ey)%Z, loc_Exact. split; [|reflexivity].
    replace (- (- IZR (Z.pos mx) * bpow ex * (IZR (Z.pos my) * bpow ey)))
      with (IZR (Z.pos (mx * my)) * bpow (ex + ey)) by (rewrite E; ring). exact I.
  - right; right. split; [rewrite E in P; lra|].
    exists (Z.pos (mx * my)), (ex + ey)%Z, loc_Exact. split; [|reflexivity].
    replace (- (IZR (Z.pos mx) * bpow ex * (- IZR (Z.pos my) * bpow ey)))
      with (IZR (Z.pos (mx * my)) * bpow (ex + ey)) by (rewrite E; ring). exact I.
  - right; left. split; [rewrite E in P; lra|].
    exists (Z.pos (mx * my)), (ex + ey)%Z, loc_Exact. split; [|reflexivity].
    rewrite <- E. exact I.
Qed.

Lemma iter_xO m d : Z.pos (Pos.iter xO m d) = (Z.pos m * 2 ^ Z.pos d)%Z.
Proof.
  induction d as [|d IH] using Pos.peano_ind.
  - cbn [Pos.iter]. lia.
  - rewrite Pos.iter_succ, Pos2Z.inj_xO, IH, Pos2Z.inj_succ, Z.pow_succ_r by lia. ring.
Qed.

Lemma Zdigits2_shift m k :
  (0 <= k)%Z -> Zdigits2 (Z.pos m * 2 ^ k) = (Zdigits2 (Z.pos m) + k)%Z.
Proof.
  intros Hk. destruct (digits2_bounds m) as [L U]. cbn [Zdigits2].
  set (d := Z.pos (digits2_pos m)) in *.
  assert (0 < d)%Z by (unfold d; lia).
  assert (0 < 2 ^ k)%Z by (apply Z.pow_pos_nonneg; lia).
  apply Zdigits2_unique; [|lia]. split.
  - replace (d + k - 1)%Z with ((d - 1) + k)%Z by lia. rewrite Z.pow_add_r by lia. nia.
  - rewrite Z.pow_add_r by lia. nia.
Qed.

(** [shl_align] keeps the value and lowers the exponent to [e'] when it is
    above. *)
Lemma shl_align_spec m e e' :
  let '(mz, ez) := shl_align m e e' in
  ez = Z.min e e' /\ Z.pos mz = (Z.pos m * 2 ^ (e - ez))%Z.
Proof.
  unfold shl_align. destruct (e' - e)%Z as [|d|d] eqn:E.
  - split; [lia|]. replace (e - e)%Z with 0%Z by lia. lia.
  - split; [lia|]. replace (e - e)%Z with 0%Z by lia. lia.
  - split; [lia|]. rewrite iter_xO. f_equal. f_equal. lia.
Qed.

Lemma shl_align_value m e e' :
  IZR (Z.pos (fst (shl_align m e e'))) * bpow (Z.min e e') = IZR (Z.pos m) * bpow e.
Proof.
  pose proof (shl_align_spec m e e') as H.
  destruct (shl_align m e e') as [mz ez]. destruct H as [-> H]. cbn [fst]. rewrite H.
  rewrite mult_IZR, <- bpow_IZR by lia. rewrite Rmult_assoc, <- bpow_add.
  f_equal. f_equal. lia.
Qed.

Lemma binary_round_input m e :
  let '(mz, ez) := shl_align m e (fexp prec emax (Z.pos (digits2_pos m) + e)) in
  round_input (IZR (Z.pos m) * bpow e) (Z.pos mz) ez loc_Exact.
Proof.
  pose proof (shl_align_spec m e (fexp prec emax (Z.pos (digits2_pos m) + e))) as H.
  pose proof (shl_align_value m e (fexp prec emax (Z.pos (digits2_pos m) + e))) as V.
  destruct (shl_align m e _) as [mz ez]. destruct H as [Hz Hm]. cbn [fst] in V.
  split; [lia|]. split.
  - exists (IZR (Z.pos mz)). split; [reflexivity|]. rewrite Hz. symmetry. exact V.
  - rewrite Hm, Zdigits2_shift by lia. cbn [Zdigits2].
    replace (Z.pos (digits2_pos m) + (e - ez) + ez)%Z
      with (Z.pos (digits2_pos m) + e)%Z by lia.
    lia.
Qed.

Theorem binary_normalize_Rounds M e :
  Rounds (IZR M * bpow e) (binary_normalize prec emax M e false).
Proof.
  destruct M as [|m|m]; cbn [binary_normalize].
  - left. split; [simpl; ring | eauto].
  - right; left. split.
    + apply Rmult_lt_0_compat; [apply IZR_lt; lia | apply bpow_pos].
    + unfold binary_round. pose proof (binary_round_input m e) as I.
      destruct (shl_align m e _) as [mz ez]. eauto.
  - right; right.
    assert (E : - (IZR (Z.neg m) * bpow e) = IZR (Z.pos m) * bpow e).
    { change (Z.neg m) with (- Z.pos m)%Z. rewrite opp_IZR. ring. }
    split.
    + assert (0 < IZR (Z.pos m) * bpow e)
        by (apply Rmult_lt_0_compat; [apply IZR_lt; lia | apply bpow_pos]).
      lra.
    + unfold binary_round. pose proof (binary_round_input m e) as I.
      destruct (shl_align m e _) as [mz ez]. rewrite E. eauto.
Qed.

Lemma aligned_value s m e e' :
  IZR (cond_Zopp s (Z.pos (fst (shl_align m e (Z.min e e'))))) * bpow (Z.min e e')
  = SF2R (S754_finite s m e).
Proof.
  pose proof (shl_align_value m e (Z.min e e')) as V.
  replace (Z.min e (Z.min e e')) with (Z.min e e') in V by lia.
  destruct s; cbn [cond_Zopp SF2R]; [rewrite opp_IZR|]; lra.
Qed.

Theorem SFsub_Rounds x y :
  SFfinite x -> SFfinite y -> Rounds (SF2R x - SF2R y) (SF64sub x y).
Proof.
  intros Fx Fy. unfold SF64sub, SFsub.
  destruct x as [sx|sx| |sx mx ex]; try contradiction;
    destruct y as [sy|sy| |sy my ey]; try contradiction.
  - left. split; [simpl; ring|]. destruct sx, sy; eauto.
  - replace (SF2R (S754_zero sx) - SF2R (S754_finite sy my ey))
      with (SF2R (S754_finite (negb sy) my ey))
      by (destruct sy; simpl; ring).
    apply Rounds_exact. exact Fy.
  - replace (SF2R (S754_finite sx mx ex) - SF2R (S754_zero sy))
      with (SF2R (S754_finite sx mx ex)) by (simpl; ring).
    apply Rounds_exact. exact Fx.
  - cbv zeta.
    replace (SF2R (S754_finite sx mx ex) - SF2R (S754_finite sy my ey))
      with (IZR (cond_Zopp sx (Z.pos (fst (shl_align mx ex (Z.min ex ey))))
                 - cond_Zopp sy (Z.pos (fst (shl_align my ey (Z.min ex ey)))))
            * bpow (Z.min ex ey)).
    + apply binary_normalize_Rounds.
    + rewrite minus_IZR, Rmult_minus_distr_r, aligned_value.
      rewrite (Z.min_comm ex ey), aligned_value. reflexivity.
Qed.

(** The location of a quotient, from the remainder. *)
Lemma new_location_inbetween a b q r :
  (0 < b)%Z -> (a = b * q + r)%Z -> (0 <= r < b)%Z ->
  inbetween (IZR a / IZR b) q (new_location b r).
Proof.
  intros Hb Ha Hr.
  assert (Pb : 0 < IZR b) by (apply IZR_lt; lia).
  assert (E : IZR a / IZR b = IZR q + IZR r / IZR b).
  { rewrite Ha, plus_IZR, mult_IZR. field. lra. }
  rewrite E. clear E.
  set (u := IZR r / IZR b).
  assert (Hu : IZR r = u * IZR b) by (unfold u; field; lra).
  assert (Rb : IZR r < IZR b) by (apply IZR_lt; lia).
  unfold new_location.
  destruct (Z.even b) eqn:Ev; [unfold new_location_even | unfold new_location_odd];
    (destruct (Z.eqb_spec r 0) as [Hr0|Hne];
     [ assert (u = 0) by (unfold u, Rdiv; rewrite Hr0; ring); cbn [inbetween]; lra
     | assert (Rp : 0 < IZR r) by (apply IZR_lt; lia) ]).
  - destruct (Z.compare_spec (2 * r) b) as [C|C|C]; cbn [inbetween].
    + assert (IZR b = 2 * IZR r) by (rewrite <- C, mult_IZR; reflexivity). nra.
    + apply IZR_lt in C. rewrite mult_IZR in C. nra.
    + apply IZR_lt in C. rewrite mult_IZR in C. nra.
  - assert (Hodd : (2 * r <> b)%Z).
    { intros C. rewrite <- C, Z.even_mul in Ev. discriminate. }
    destruct (Z.compare_spec (2 * r + 1) b) as [C|C|C]; cbn [inbetween].
    + assert (L : (2 * r < b)%Z) by lia.
      apply IZR_lt in L. rewrite mult_IZR in L. nra.
    + assert (L : (2 * r < b)%Z) by lia.
      apply IZR_lt in L. rewrite mult_IZR in L. nra.
    + assert (L : (b < 2 * r)%Z) by lia.
      apply IZR_lt in L. rewrite mult_IZR in L. nra.
Qed.

Lemma div_core_spec mx ex my ey :
  let '(q, e', l) := SFdiv_core_binary prec emax (Z.pos mx) ex (Z.pos my) ey in
  round_input (IZR (Z.pos mx) * bpow ex / (IZR (Z.pos my) * bpow ey)) q e' l.
Proof.
  unfold SFdiv_core_binary. cbn [Zdigits2].
  set (d1 := Z.pos (digits2_pos mx)). set (d2 := Z.pos (digits2_pos my)).
  set (e' := Z.min (fexp prec emax (d1 + ex - (d2 + ey))) (ex - ey)).
  set (s := (ex - ey - e')%Z).
  assert (Hs : (0 <= s)%Z) by (unfold s, e'; lia).
  set (m' := match s with
             | 0%Z => Z.pos mx
             | Z.pos _ => Z.shiftl (Z.pos mx) s
             | Z.neg _ => 0%Z
             end).
  assert (Hm' : m' = (Z.pos mx * 2 ^ s)%Z).
  { unfold m'. destruct s as [|p|p] eqn:Es; [simpl; lia | | lia].
    rewrite Z.shiftl_mul_pow2 by lia. reflexivity. }
  clearbody m'.
  pose proof (Z_div_mod m' (Z.pos my) ltac:(lia)) as DM.
  destruct (Z.div_eucl m' (Z.pos my)) as [q r]. destruct DM as [Eq Hr].
  assert (P2 : (0 < 2 ^ s)%Z) by (apply Z.pow_pos_nonneg; lia).
  assert (Hq : (0 <= q)%Z) by nia.
  split; [exact Hq|]. split.
  - exists (IZR m' / IZR (Z.pos my)). split.
    + apply new_location_inbetween; [lia | exact Eq | exact Hr].
    + rewrite Hm', mult_IZR, <- bpow_IZR by exact Hs.
      assert (B : bpow ex = bpow s * bpow e' * bpow ey).
      { rewrite <- !bpow_add. f_equal. unfold s. lia. }
      rewrite B.
      assert (0 < IZR (Z.pos my)) by (apply IZR_lt; lia).
      pose proof (bpow_pos ey). field. lra.
  - (* the quotient has enough digits *)
    destruct (digits2_bounds mx) as [L1 _], (digits2_bounds my) as [_ U2].
    fold d1 in L1. fold d2 in U2.
    assert (G : (d1 - d2 + s <= Zdigits2 q)%Z).
    { pose proof (Zdigits2_nonneg q).
      destruct (Z_lt_le_dec (d1 - 1 + s - d2) 0) as [|K]; [lia|].
      assert (2 ^ (d1 - 1 + s - d2) <= q)%Z.
      { assert (0 < 2 ^ (d1 - 1 + s - d2))%Z by (apply Z.pow_pos_nonneg; lia).
        assert (E2 : (2 ^ (d1 - 1 + s - d2) * 2 ^ d2 = 2 ^ (d1 - 1) * 2 ^ s)%Z).
        { rewrite <- !Z.pow_add_r by (unfold d1, d2 in *; lia). f_equal. lia. }
        assert (0 < 2 ^ (d1 - 1))%Z by (apply Z.pow_pos_nonneg; unfold d1; lia).
        assert (0 < 2 ^ d2)%Z by (apply Z.pow_pos_nonneg; unfold d2; lia).
        assert (2 ^ (d1 - 1 + s - d2) * Z.pos my < Z.pos my * (q + 1))%Z by nia.
        nia. }
      pose proof (Zdigits2_ge q _ K H0). lia. }
    unfold e' in *. unfold_fexp. lia.
Qed.

Theorem SFdiv_Rounds x y :
  SFfinite x -> SFfinite y -> SF2R y <> 0 -> Rounds (SF2R x / SF2R y) (SF64div x y).
Proof.
  intros Fx Fy Hy. unfold SF64div, SFdiv.
  destruct x as [sx|sx| |sx mx ex]; try contradiction;
    destruct y as [sy|sy| |sy my ey]; try contradiction;
    try (simpl in Hy; lra).
  - left. split; [simpl; unfold Rdiv; ring | eauto].
  - pose proof (div_core_spec mx ex my ey) as I.
    destruct (SFdiv_core_binary prec emax (Z.pos mx) ex (Z.pos my) ey) as [[q e'] l].
    assert (Px : 0 < IZR (Z.pos mx) * bpow ex)
      by (apply Rmult_lt_0_compat; [apply IZR_lt; lia | apply bpow_pos]).
    assert (Py : 0 < IZR (Z.pos my) * bpow ey)
      by (apply Rmult_lt_0_compat; [apply IZR_lt; lia | apply bpow_pos]).
    assert (Pq : 0 < IZR (Z.pos mx) * bpow ex / (IZR (Z.pos my) * bpow ey))
      by (apply Rdiv_lt_0_compat; assumption).
    revert I Px Py Pq.
    replace (SF2R (S754_finite sx mx ex))
      with ((if sx then -1 else 1) * (IZR (Z.pos mx) * bpow ex))
      by (destruct sx; cbn [SF2R]; ring).
    replace (SF2R (S754_finite sy my ey))
      with ((if sy then -1 else 1) * (IZR (Z.pos my) * bpow ey))
      by (destruct sy; cbn [SF2R]; ring).
    generalize (IZR (Z.pos mx) * bpow ex) (IZR (Z.pos my) * bpow ey).
    intros A B I PA PB Pq.
    destruct sx, sy; cbn [xorb].
    + right; left. replace (-1 * A / (-1 * B)) with (A / B) by (field; lra).
      split; [exact Pq | eauto].
    + right; right. replace (-1 * A / (1 * B)) with (- (A / B)) by (field; lra).
      split; [lra|]. rewrite Ropp_involutive. eauto.
    + right; right. replace (1 * A / (-1 * B)) with (- (A / B)) by (field; lra).
      split; [lra|]. rewrite Ropp_involutive. eauto.
    + right; left. replace (1 * A / (1 * B)) with (A / B) by (field; lra).
      split; [exact Pq | eauto].
Qed.

(** ** Primitive floats *)

Lemma finite_cases x :
  finite x <-> (exists s, Prim2SF x = S754_zero s) \/ (exists s m e, Prim2SF x = S754_finite s m e).
Proof.
  unfold finite. pose proof (Prim2SF_valid x) as V.
  destruct (Prim2SF x) as [s|s| |s m e]; simpl; split; intros H;
    try contradiction; try reflexivity; try exact V; eauto;
    destruct H as [[? H]|(? & ? & ? & H)]; discriminate.
Qed.

Lemma finite_between a x b :
  finite a -> finite b -> (a <=? x)%float = true -> (x <=? b)%float = true -> finite x.
Proof.
  unfold finite. rewrite !leb_spec. pose proof (Prim2SF_valid x) as V.
  destruct (Prim2SF a) as [[]|[]| |[] ma ea]; simpl; try contradiction; intros _;
    destruct (Prim2SF b) as [[]|[]| |[] mb eb]; simpl; try contradiction; intros _;
    destruct (Prim2SF x) as [[]|[]| |[] mx ex]; simpl; try discriminate; auto.
Qed.

Lemma leb_B2R x y : finite x -> finite y -> (x <=? y)%float = true -> B2R x <= B2R y.
Proof. intros Fx Fy. rewrite leb_spec. now apply SFleb_SF2R. Qed.

Lemma B2R_leb x y : finite x -> finite y -> B2R x <= B2R y -> (x <=? y)%float = true.
Proof. intros Fx Fy. rewrite leb_spec. now apply SF2R_SFleb. Qed.

Lemma mul_Rounds x y : finite x -> finite y -> Rounds (B2R x * B2R y) (Prim2SF (x * y)).
Proof. intros. rewrite mul_spec. now apply SFmul_Rounds. Qed.

Lemma sub_Rounds x y : finite x -> finite y -> Rounds (B2R x - B2R y) (Prim2SF (x - y)).
Proof. intros. rewrite sub_spec. now apply SFsub_Rounds. Qed.

Lemma div_Rounds x y :
  finite x -> finite y -> B2R y <> 0 -> Rounds (B2R x / B2R y) (Prim2SF (x / y)).
Proof. intros. rewrite div_spec. now apply SFdiv_Rounds. Qed.

Lemma exact_Rounds x : finite x -> Rounds (B2R x) (Prim2SF x).
Proof. apply Rounds_exact. Qed.

Lemma Rounds_leb v1 a v2 b :
  Rounds v1 (Prim2SF a) -> Rounds v2 (Prim2SF b) -> v1 <= v2 -> (a <=? b)%float = true.
Proof. intros. rewrite leb_spec. eapply Rounds_mono; eauto. Qed.

(** Monotonicity of the rounded operations. *)
Theorem sub_mono a a' b b' :
  finite a -> finite a' -> finite b -> finite b' ->
  (a <=? a')%float = true -> (b' <=? b)%float = true ->
  (a - b <=? a' - b')%float = true.
Proof.
  intros Fa Fa' Fb Fb' Ha Hb.
  apply (Rounds_leb (B2R a - B2R b) _ (B2R a' - B2R b')); auto using sub_Rounds.
  apply leb_B2R in Ha, Hb; auto. lra.
Qed.

Theorem mul_mono_r a a' c :
  finite a -> finite a' -> finite c ->
  (a <=? a')%float = true -> (0 <=? c)%float = true ->
  (a * c <=? a' * c)%float = true.
Proof.
  intros Fa Fa' Fc Ha Hc.
  apply (Rounds_leb (B2R a * B2R c) _ (B2R a' * B2R c)); auto using mul_Rounds.
  assert (F0 : finite 0%float) by (apply finite_cases; left; exists false; reflexivity).
  apply leb_B2R in Ha, Hc; auto.
  change (B2R 0) with 0 in Hc. nra.
Qed.

Theorem div_mono a a' c :
  finite a -> finite a' -> finite c ->
  (a <=? a')%float = true -> (0 <? c)%float = true ->
  (a / c <=? a' / c)%float = true.
Proof.
  intros Fa Fa' Fc Ha Hc.
  assert (F0 : finite 0%float) by (apply finite_cases; left; exists false; reflexivity).
  assert (Pc : 0 < B2R c).
  { destruct (Rle_or_lt (B2R c) 0) as [L|]; [|assumption].
    apply (B2R_leb c 0%float) in L; auto.
    rewrite ltb_spec in Hc. rewrite leb_spec in L.
    apply F64.SFleb_nltb in L. congruence. }
  apply (Rounds_leb (B2R a / B2R c) _ (B2R a' / B2R c)); try apply div_Rounds; auto; try lra.
  apply leb_B2R in Ha; auto. unfold Rdiv.
  apply Rmult_le_compat_r; [|assumption].
  left. now apply Rinv_0_lt_compat.
Qed.

(** Scaling by a factor between 0 and 1 does not increase a non-negative
    value; by a factor between -1 and 1 it stays within the value and its
    opposite. *)
Theorem mul_le_self a c :
  finite a -> finite c ->
  (0 <=? a)%float = true -> (c <=? 1)%float = true ->
  (c * a <=? a)%float = true.
Proof.
  intros Fa Fc Ha Hc.
  assert (F0 : finite 0%float) by (apply finite_cases; left; exists false; reflexivity).
  assert (F1 : finite 1%float)
    by (apply finite_cases; right; exists false, (2 ^ 52)%positive, (-52)%Z; reflexivity).
  apply (Rounds_leb (B2R c * B2R a) _ (B2R a)); auto using mul_Rounds, exact_Rounds.
  apply leb_B2R in Ha, Hc; auto.
  change (B2R 0) with 0 in Ha.
  assert (B2R 1 = 1).
  { unfold B2R. change (Prim2SF 1) with (S754_finite false (2 ^ 52) (-52)).
    cbn [SF2R]. change (-52)%Z with (Z.opp 52).
    rewrite (bpow_opp 52), (bpow_IZR 52) by lia.
    change (Z.pos (2 ^ 52)) with (2 ^ 52)%Z. field.
    apply not_0_IZR. lia. }
  rewrite H in Hc. nra.
Qed.

(** ** Signs, absolute values and special values *)

Lemma finish_abs sx N e : (0 <= N)%Z -> SFabs (finish sx N e) = finish false N e.
Proof.
  intros H. unfold finish. destruct N; [reflexivity| |lia].
  repeat match goal with |- context [if ?c then _ else _] => destruct c end; reflexivity.
Qed.

Lemma binary_round_aux_sign_change s s' v mx ex lx :
  round_input v mx ex lx ->
  exists N e, binary_round_aux prec emax s mx ex lx = finish s N e
              /\ binary_round_aux prec emax s' mx ex lx = finish s' N e
              /\ (0 <= N)%Z.
Proof.
  intros (Hm & (u & Hu & _) & He).
  destruct (binary_round_aux_form s u mx ex lx Hm Hu He) as (m1 & l1 & I1 & B1 & _ & E1).
  destruct (binary_round_aux_form s' u mx ex lx Hm Hu He) as (m2 & l2 & I2 & _ & _ & E2).
  destruct (inbetween_unique _ _ _ _ _ I1 I2) as [<- <-].
  exists (round_nearest_even m1 l1), (fexp prec emax (Zdigits2 mx + ex)).
  split; [exact E1|]. split; [exact E2|].
  destruct (rne_cases m1 l1); lia.
Qed.

Lemma SFabs_mul x y :
  SFfinite x -> SFfinite y -> SFabs (SF64mul x y) = SF64mul (SFabs x) (SFabs y).
Proof.
  destruct x as [sx|sx| |sx mx ex]; simpl; try contradiction;
    destruct y as [sy|sy| |sy my ey]; simpl; try contradiction; intros Vx Vy;
    try reflexivity.
  destruct (valid_finite_canonical sx mx ex Vx) as [Cx _].
  destruct (valid_finite_canonical sy my ey Vy) as [Cy _].
  destruct (binary_round_aux_sign_change (xorb sx sy) false _ _ _ _
              (mul_round_input mx ex my ey Cx Cy)) as (N & e & -> & -> & HN).
  now apply finish_abs.
Qed.

Lemma SFopp_mul x y : SF64mul (SFopp x) y = SFopp (SF64mul x y).
Proof.
  unfold SF64mul, SFmul.
  destruct x as [sx|sx| |sx mx ex]; destruct y as [sy|sy| |sy my ey]; cbn [SFopp];
    try reflexivity; try (destruct sx, sy; reflexivity).
  unfold binary_round_aux.
  destruct (shr_fexp prec emax (Z.pos (mx * my)) (ex + ey) loc_Exact) as [mrs' e'].
  destruct (shr_fexp prec emax _ e' loc_Exact) as [mrs'' e''].
  destruct (shr_m mrs''); destruct sx, sy; cbn [xorb negb SFopp]; try reflexivity;
    match goal with |- context [if ?c then _ else _] => destruct c end; reflexivity.
Qed.

Lemma SFsub_diag x : SFfinite x -> SF64sub x x = S754_zero false.
Proof.
  unfold SF64sub, SFsub.
  destruct x as [[]|[]| |s m e]; simpl; try contradiction; intros _; try reflexivity.
  rewrite Z.sub_diag. reflexivity.
Qed.

Lemma SFsub_zero_r x : SF64sub x (S754_zero false) = x.
Proof. destruct x as [[]|[]| |s m e]; reflexivity. Qed.

Lemma SFabs_leb x b :
  SFleb x b = true -> SFleb (SFopp b) x = true -> SFleb (SFabs x) b = true.
Proof.
  unfold SFleb.
  destruct x as [[]|[]| |[] m1 e1], b as [[]|[]| |[] m2 e2]; simpl;
    try reflexivity; try discriminate; intros H1 H2; F64.cmp_cases.
Qed.

Lemma SFabs_nonneg x : x <> S754_nan -> SFleb (S754_zero false) (SFabs x) = true.
Proof. destruct x as [[]|[]| |[] m e]; simpl; intros H; try reflexivity; congruence. Qed.

Lemma SFabs_finite x : SFfinite x -> SFfinite (SFabs x).
Proof. destruct x as [[]|[]| |[] m e]; simpl; auto. Qed.

Lemma SFopp_finite x : SFfinite x -> SFfinite (SFopp x).
Proof. destruct x as [[]|[]| |[] m e]; simpl; auto. Qed.

Lemma SF2R_opp x : SF2R (SFopp x) = - SF2R x.
Proof. destruct x as [[]|[]| |[] m e]; simpl; ring. Qed.

(** The square root of anything is NaN or not negative. *)
Lemma SFsqrt_nonneg x :
  SF64sqrt x <> S754_nan -> SFleb (S754_zero false) (SF64sqrt x) = true.
Proof.
  unfold SF64sqrt, SFsqrt.
  destruct x as [[]|[]| |[] m e]; try congruence; try reflexivity.
  intros _. unfold SFsqrt_core_binary.
  set (m' := match (e - 2 * _)%Z with
             | Z.pos _ => Z.shiftl (Z.pos m) _ | 0%Z => Z.pos m | Z.neg _ => 0%Z end).
  assert (Hm' : (0 <= m')%Z).
  { unfold m'. destruct (e - 2 * _)%Z; try lia. apply Z.shiftl_nonneg. lia. }
  clearbody m'.
  pose proof (Z.sqrtrem_spec m' Hm') as S.
  destruct (Z.sqrtrem m') as [q r].
  apply F64.signed_as_nonneg, F64.binary_round_aux_sign. lia.
Qed.

(** NaN operands give NaN results. *)
Lemma SFmul_notnan x y : SF64mul x y <> S754_nan -> x <> S754_nan /\ y <> S754_nan.
Proof. destruct x as [[]|[]| |[] ? ?], y as [[]|[]| |[] ? ?]; simpl; intros; split; congruence. Qed.

Lemma SFadd_notnan x y : SF64add x y <> S754_nan -> x <> S754_nan /\ y <> S754_nan.
Proof. destruct x as [[]|[]| |[] ? ?], y as [[]|[]| |[] ? ?]; simpl; intros; split; congruence. Qed.

Lemma SFsub_notnan x y : SF64sub x y <> S754_nan -> x <> S754_nan /\ y <> S754_nan.
Proof. destruct x as [[]|[]| |[] ? ?], y as [[]|[]| |[] ? ?]; simpl; intros; split; congruence. Qed.

Lemma SFsqrt_notnan x : SF64sqrt x <> S754_nan -> x <> S754_nan.
Proof. destruct x as [[]|[]| |[] ? ?]; simpl; congruence. Qed.

(** ** Neighbouring values *)

Lemma canonical_digits s m e :
  valid_binary (S754_finite s m e) = true ->
  (Z.pos m < 2 ^ 53)%Z /\ ((-1074 < e)%Z -> (2 ^ 52 <= Z.pos m)%Z) /\ (-1074 <= e <= 971)%Z.
Proof.
  intros V. destruct (valid_finite_canonical s m e V) as [C B].
  destruct (digits2_bounds m) as [L U].
  set (d := Z.pos (digits2_pos m)) in *.
  assert (Hd : (0 < d)%Z) by (unfold d; lia).
  unfold_fexp.
  assert (d <= 53)%Z by lia.
  split; [|split; [|lia]].
  - assert (2 ^ d <= 2 ^ 53)%Z by (apply Z.pow_le_mono_r; lia). lia.
  - intros He. assert (d = 53)%Z by lia. replace (d - 1)%Z with 52%Z in L by lia. exact L.
Qed.

(** A value below 1 is at most the largest binary64 value below 1. *)
Lemma SFltb_one x :
  valid_binary x = true ->
  SFltb x (S754_finite false (2 ^ 52) (-52)) = true ->
  SFleb x (S754_finite false (2 ^ 53 - 1) (-53)) = true.
Proof.
  intros V.
  assert (EP : (Z.pos (2 ^ 52) = 4503599627370496)%Z) by reflexivity.
  assert (EQ : (Z.pos (2 ^ 53 - 1) = 9007199254740991)%Z) by reflexivity.
  revert EP EQ.
  generalize (2 ^ 52)%positive (2 ^ 53 - 1)%positive. intros P Q EP EQ.
  unfold SFltb, SFleb.
  destruct x as [[]|[]| |[] m e]; cbn [SFcompare]; try reflexivity; try discriminate.
  destruct (canonical_digits false m e V) as (U & L & _).
  change (2 ^ 52)%Z with 4503599627370496%Z in L.
  change (2 ^ 53)%Z with 9007199254740992%Z in U.
  intros H. F64.cmp_cases.
Qed.

Lemma valid_intro s m e d :
  Zdigits2 (Z.pos m) = d -> Z.max (d + e - 53) (-1074) = e -> (e <= 971)%Z ->
  valid_binary (S754_finite s m e) = true.
Proof.
  intros D C B. cbn [valid_binary SpecFloat.valid_binary].
  unfold SpecFloat.bounded, SpecFloat.canonical_mantissa. cbn [Zdigits2] in D. rewrite D.
  apply andb_true_intro. split; [apply Z.eqb_eq | apply Z.leb_le].
  - unfold_fexp. exact C.
  - change (emax - prec)%Z with 971%Z. exact B.
Qed.

Lemma SFbelow_spec m e :
  valid_binary (S754_finite false m e) = true -> (2 ^ 52 <= Z.pos m)%Z ->
  SFfinite (SFbelow m e)
  /\ SFltb (SFbelow m e) (S754_finite false m e) = true
  /\ SF2R (S754_finite false m e) * (IZR 8106479329266893 * bpow (-53))
     <= SF2R (SFbelow m e).
Proof.
  intros V Hm. destruct (canonical_digits false m e V) as (U & _ & He).
  assert (E52 : (2 ^ 52 = 4503599627370496)%Z) by reflexivity.
  assert (E53 : (2 ^ 53 = 9007199254740992)%Z) by reflexivity.
  assert (B53 : bpow (-53) * 9007199254740992 = 1).
  { change (-53)%Z with (Z.opp 53). rewrite bpow_opp, (bpow_IZR 53) by lia.
    rewrite E53. apply Rinv_l. lra. }
  pose proof (bpow_pos e) as Pe.
  unfold SFbelow.
  destruct (Z.eqb_spec (Z.pos m) (2 ^ 52)) as [Em|Nm];
    [destruct (Z.ltb_spec (-1074) e) as [Le|Le]|]; cbn [andb].
  - (* a power of two, normal *)
    split; [|split].
    + apply (valid_intro false _ (e - 1) 53); try reflexivity; lia.
    + unfold SFltb. cbn [SFcompare].
      destruct (Z.compare_spec (e - 1) e); try lia; try reflexivity.
    + cbn [SF2R]. rewrite Em, E52.
      change (Z.pos (2 ^ 53 - 1)) with 9007199254740991%Z.
      replace (e - 1)%Z with (e + -1)%Z by lia. rewrite bpow_add, bpow_m1.
      nra.
  - (* the smallest normal value *)
    assert (Z.pos (m - 1) = Z.pos m - 1)%Z by (rewrite Pos2Z.inj_sub; lia).
    split; [|split].
    + apply (valid_intro false _ e 52); try lia.
      apply Zdigits2_unique; [|lia]. rewrite H, Em, E52. split; [|lia].
      change (2 ^ (52 - 1))%Z with 2251799813685248%Z. lia.
    + unfold SFltb. cbn [SFcompare]. rewrite Z.compare_refl.
      change (Pos.compare_cont Eq (m - 1) m) with (Pos.compare (m - 1) m).
      destruct (Pos.compare_spec (m - 1) m); try lia; try reflexivity.
    + cbn [SF2R]. rewrite H, minus_IZR, Em, E52. nra.
  - assert (Z.pos (m - 1) = Z.pos m - 1)%Z by (rewrite Pos2Z.inj_sub; lia).
    split; [|split].
    + apply (valid_intro false _ e 53); try lia.
      apply Zdigits2_unique; [|lia]. rewrite H. change (53 - 1)%Z with 52%Z. lia.
    + unfold SFltb. cbn [SFcompare]. rewrite Z.compare_refl.
      change (Pos.compare_cont Eq (m - 1) m) with (Pos.compare (m - 1) m).
      destruct (Pos.compare_spec (m - 1) m); try lia; try reflexivity.
    + cbn [SF2R]. rewrite H, minus_IZR.
      assert (4503599627370496 <= IZR (Z.pos m)) by (apply IZR_le; lia).
      nra.
Qed.

(** ** Addition, strict comparison and magnitudes *)

Theorem SFadd_Rounds x y :
  SFfinite x -> SFfinite y -> Rounds (SF2R x + SF2R y) (SF64add x y).
Proof.
  intros Fx Fy. unfold SF64add, SFadd.
  destruct x as [sx|sx| |sx mx ex]; try contradiction;
    destruct y as [sy|sy| |sy my ey]; try contradiction.
  - left. split; [simpl; ring|]. destruct sx, sy; eauto.
  - replace (SF2R (S754_zero sx) + SF2R (S754_finite sy my ey))
      with (SF2R (S754_finite sy my ey)) by (simpl; ring).
    apply Rounds_exact. exact Fy.
  - replace (SF2R (S754_finite sx mx ex) + SF2R (S754_zero sy))
      with (SF2R (S754_finite sx mx ex)) by (simpl; ring).
    apply Rounds_exact. exact Fx.
  - cbv zeta.
    replace (SF2R (S754_finite sx mx ex) + SF2R (S754_finite sy my ey))
      with (IZR (cond_Zopp sx (Z.pos (fst (shl_align mx ex (Z.min ex ey))))
                 + cond_Zopp sy (Z.pos (fst (shl_align my ey (Z.min ex ey)))))
            * bpow (Z.min ex ey)).
    + apply binary_normalize_Rounds.
    + rewrite plus_IZR, Rmult_plus_distr_r, aligned_value.
      rewrite (Z.min_comm ex ey), aligned_value. reflexivity.
Qed.

Lemma SFltb_SF2R a b :
  SFfinite a -> SFfinite b -> SFltb a b = true -> SF2R a < SF2R b.
Proof.
  intros Fa Fb H.
  pose proof (SFleb_SF2R a b Fa Fb (F64.SFltb_leb _ _ H)) as L.
  destruct L as [L|E]; [exact L|].
  assert (L' : SF2R b <= SF2R a) by lra.
  apply (SF2R_SFleb b a Fb Fa) in L'. apply F64.SFleb_nltb in L'. congruence.
Qed.

Lemma SFabs_leb_inv x b :
  SFleb (SFabs x) b = true -> SFleb x b = true /\ SFleb (SFopp b) x = true.
Proof.
  unfold SFleb.
  destruct x as [[]|[]| |[] m1 e1], b as [[]|[]| |[] m2 e2]; simpl;
    try (split; reflexivity); try discriminate; intros H; split; F64.cmp_cases.
Qed.

Lemma SFabs_ltb_inv x b :
  SFltb (SFabs x) b = true -> SFltb x b = true /\ SFltb (SFopp b) x = true.
Proof.
  unfold SFltb.
  destruct x as [[]|[]| |[] m1 e1], b as [[]|[]| |[] m2 e2]; simpl;
    try (split; reflexivity); try discriminate; intros H; split; F64.cmp_cases.
Qed.

Local Open Scope float_scope.

Lemma finite_0 : finite 0.
Proof. apply finite_cases; left; exists false; reflexivity. Qed.

Lemma finite_literal x s m e :
  Prim2SF x = S754_finite s m e -> finite x.
Proof. intros H. apply finite_cases. right. eauto. Qed.

Ltac finite_lit :=
  match goal with
  | |- finite ?x =>
      let v := eval vm_compute in (Prim2SF x) in
      match v with
      | S754_zero ?s => apply finite_cases; left; exists s; vm_compute; reflexivity
      | S754_finite ?s ?m ?e => apply (finite_literal x s m e); vm_compute; reflexivity
      end
  end.

(** ** The factor of the repel force *)

Theorem force_factor_bounds d :
  (0 <=? d) = true -> (d <? 600) = true ->
  (0 <=? (600 - d) / 600) = true /\ ((600 - d) / 600 <=? 1) = true.
Proof.
  intros H0 H600.
  assert (F600 : finite 600) by finite_lit.
  assert (Hle : (d <=? 600) = true).
  { rewrite leb_spec. rewrite ltb_spec in H600.
    unfold SFltb in H600. unfold SFleb.
    destruct (SFcompare (Prim2SF d) (Prim2SF 600)) as [[]|]; congruence. }
  assert (Fd : finite d) by (apply (finite_between 0 d 600); auto using finite_0).
  assert (U1 : (600 - d <=? 600) = true).
  { apply (sub_mono 600 600 d 0); auto using finite_0. }
  assert (U0 : (0 <=? 600 - d) = true).
  { apply (sub_mono 600 600 600 d); auto using finite_0. }
  assert (Fu : finite (600 - d)) by (apply (finite_between 0 _ 600); auto using finite_0).
  split.
  - apply (div_mono 0 (600 - d) 600); auto using finite_0.
  - apply (div_mono (600 - d) 600 600); auto.
Qed.

(** ** The facts the script relies on, on primitive floats *)

Lemma finite_abs x : finite x -> finite (abs x).
Proof. unfold finite. rewrite abs_spec. apply SFabs_finite. Qed.

Lemma finite_opp x : finite x -> finite (- x).
Proof. unfold finite. rewrite opp_spec. apply SFopp_finite. Qed.

Lemma sub_diag x : finite x -> x - x = 0.
Proof. intros F. apply Prim2SF_inj. rewrite sub_spec. now apply SFsub_diag. Qed.

Lemma sub_zero_r x : x - 0 = x.
Proof. apply Prim2SF_inj. rewrite sub_spec. apply SFsub_zero_r. Qed.

Lemma opp_mul x y : (- x) * y = - (x * y).
Proof. apply Prim2SF_inj. rewrite opp_spec, !mul_spec, opp_spec. apply SFopp_mul. Qed.

Lemma abs_mul x y : finite x -> finite y -> abs (x * y) = abs x * abs y.
Proof.
  intros Fx Fy. apply Prim2SF_inj. rewrite abs_spec, !mul_spec, !abs_spec.
  now apply SFabs_mul.
Qed.

Lemma abs_leb x b : (x <=? b) = true -> (- b <=? x) = true -> (abs x <=? b) = true.
Proof. rewrite !leb_spec, abs_spec, opp_spec. apply SFabs_leb. Qed.

Lemma abs_nonneg x : is_nan x = false -> (0 <=? abs x) = true.
Proof. rewrite F64.is_nan_spec, leb_spec, abs_spec. apply SFabs_nonneg. Qed.

Lemma sqrt_nonneg x : is_nan (PrimFloat.sqrt x) = false -> (0 <=? PrimFloat.sqrt x) = true.
Proof. rewrite F64.is_nan_spec, leb_spec, sqrt_spec. apply SFsqrt_nonneg. Qed.

Lemma mul_notnan x y : is_nan (x * y) = false -> is_nan x = false /\ is_nan y = false.
Proof. rewrite !F64.is_nan_spec, mul_spec. apply SFmul_notnan. Qed.

Lemma add_notnan x y : is_nan (x + y) = false -> is_nan x = false /\ is_nan y = false.
Proof. rewrite !F64.is_nan_spec, add_spec. apply SFadd_notnan. Qed.

Lemma sqrt_notnan x : is_nan (PrimFloat.sqrt x) = false -> is_nan x = false.
Proof. rewrite !F64.is_nan_spec, sqrt_spec. apply SFsqrt_notnan. Qed.

Lemma below_one u : (u <? 1) = true -> (u <=? 0x1.fffffffffffffp-1) = true.
Proof.
  rewrite ltb_spec, leb_spec. apply SFltb_one. apply Prim2SF_valid.
Qed.

(** *** The random nudge *)

Theorem nudge_bounds u :
  (0 <=? u) = true -> (u <? 1) = true ->
  (-0.05 <=? (u - 0.5) * 0.1) = true /\ ((u - 0.5) * 0.1 <? 0.05) = true.
Proof.
  intros H0 H1. pose proof (below_one u H1) as Hp.
  assert (Fp : finite 0x1.fffffffffffffp-1) by finite_lit.
  assert (Fh : finite 0.5) by finite_lit.
  assert (Ft : finite 0.1) by finite_lit.
  assert (Fu : finite u) by (apply (finite_between 0 u 0x1.fffffffffffffp-1); auto using finite_0).
  assert (L : (-0.5 <=? u - 0.5) = true).
  { apply (sub_mono 0 u 0.5 0.5); auto using finite_0. }
  assert (U : (u - 0.5 <=? 0x1.ffffffffffffep-2) = true).
  { apply (sub_mono u 0x1.fffffffffffffp-1 0.5 0.5); auto. }
  assert (Fd : finite (u - 0.5)).
  { apply (finite_between (-0.5) _ 0x1.ffffffffffffep-2); auto; finite_lit. }
  split.
  - apply (mul_mono_r (-0.5) (u - 0.5) 0.1); auto; finite_lit.
  - apply (F64.leb_ltb_trans _ (0x1.ffffffffffffep-2 * 0.1)); [|reflexivity].
    apply (mul_mono_r (u - 0.5) 0x1.ffffffffffffep-2 0.1); auto; finite_lit.
Qed.

(** *** The decay of the scroll speed *)

Lemma B2R_1 : B2R 1 = 1%R.
Proof.
  unfold B2R. change (Prim2SF 1) with (S754_finite false (2 ^ 52) (-52)).
  cbn [SF2R]. change (-52)%Z with (Z.opp 52).
  rewrite (bpow_opp 52), (bpow_IZR 52) by lia.
  change (Z.pos (2 ^ 52)) with (2 ^ 52)%Z. field.
  apply not_0_IZR. lia.
Qed.

Theorem decay_le s : is_nan s = false -> (abs (s * 0.9) <=? abs s) = true.
Proof.
  intros Hs.
  destruct (Prim2SF s) as [z|i| |sg m e] eqn:E.
  - (* zero *)
    assert (F : finite s) by (apply finite_cases; left; eauto).
    rewrite abs_mul by (auto; finite_lit).
    rewrite F64.mul_comm.
    apply mul_le_self; auto using finite_abs, abs_nonneg; finite_lit.
  - (* infinite *)
    rewrite leb_spec, !abs_spec, mul_spec, E. destruct i; reflexivity.
  - apply F64.is_nan_spec in Hs. congruence.
  - assert (F : finite s) by (apply finite_cases; right; eauto).
    rewrite abs_mul by (auto; finite_lit).
    rewrite F64.mul_comm.
    apply mul_le_self; auto using finite_abs, abs_nonneg; finite_lit.
Qed.

Theorem decay_lt s :
  (0x1p-1022 <=? abs s) = true -> (abs s <? infinity) = true ->
  (abs (s * 0.9) <? abs s) = true.
Proof.
  intros Hlo Hhi.
  assert (Fa : finite (abs s)).
  { apply (finite_between 0x1p-1022 (abs s) 0x1.fffffffffffffp+1023);
      try finite_lit; auto.
    rewrite leb_spec. rewrite ltb_spec in Hhi.
    change (Prim2SF infinity) with (S754_infinity false) in Hhi.
    change (Prim2SF 0x1.fffffffffffffp+1023)
      with (S754_finite false (2 ^ 53 - 1) 971).
    pose proof (Prim2SF_valid (abs s)) as V.
    assert (EQ : (Z.pos (2 ^ 53 - 1) = 9007199254740991)%Z) by reflexivity.
    revert EQ. generalize (2 ^ 53 - 1)%positive. intros Q EQ.
    unfold SFltb in Hhi. unfold SFleb.
    destruct (Prim2SF (abs s)) as [[]|[]| |[] m e]; cbn [SFcompare] in *;
      try reflexivity; try discriminate.
    destruct (canonical_digits false m e V) as (U & _ & B).
    change (2 ^ 53)%Z with 9007199254740992%Z in U.
    F64.cmp_cases. }
  assert (Fs : finite s).
  { unfold finite in *. rewrite abs_spec in Fa.
    destruct (Prim2SF s) as [[]|[]| |[] ? ?]; simpl in *; auto. }
  rewrite abs_mul by (auto; finite_lit).
  change (abs 0.9) with 0.9.
  pose proof (mul_Rounds (abs s) 0.9 Fa ltac:(finite_lit)) as R.
  rewrite ltb_spec. rewrite leb_spec in Hlo.
  change (Prim2SF 0x1p-1022) with (S754_finite false (2 ^ 52) (-1074)) in Hlo.
  unfold B2R in R.
  change (Prim2SF 0.9) with (S754_finite false 8106479329266893 (-53)) in R.
  pose proof (Prim2SF_valid (abs s)) as V.
  assert (N : signed_as false (Prim2SF (abs s)) \/ exists z, Prim2SF (abs s) = S754_zero z).
  { rewrite abs_spec. unfold finite in Fs.
    destruct (Prim2SF s) as [[]|[]| |[] ? ?]; simpl in *; eauto; contradiction. }
  destruct (Prim2SF (abs s)) as [z|i| |sg m e] eqn:E.
  - discriminate Hlo.
  - unfold finite in Fa. rewrite E in Fa. contradiction.
  - discriminate Hlo.
  - assert (sg = false).
    { destruct N as [N|[z N]]; [exact N | discriminate N]. }
    subst sg.
    assert (Hm : (2 ^ 52 <= Z.pos m)%Z).
    { destruct (canonical_digits false m e V) as (_ & L & B).
      assert (EP : (Z.pos (2 ^ 52) = 2 ^ 52)%Z) by reflexivity.
      revert EP Hlo. generalize (2 ^ 52)%positive. intros P EP Hlo.
      unfold SFleb in Hlo. cbn [SFcompare] in Hlo.
      destruct (Z.eq_dec e (-1074)) as [->|]; [|lia].
      rewrite Z.compare_refl in Hlo.
      change (Pos.compare_cont Eq P m) with (Pos.compare P m) in Hlo.
      destruct (Pos.compare_spec P m); try discriminate; lia. }
    destruct (SFbelow_spec m e V Hm) as (FB & LB & VB).
    apply (F64.SFleb_ltb_trans _ (SFbelow m e)); [|exact LB].
    apply (Rounds_mono _ _ _ _ R (Rounds_exact _ FB)).
    cbn [SF2R] in *. exact VB.
Qed.

(** *** A bounded direction, scaled *)

Lemma B2R_opp x : B2R (- x) = (- B2R x)%R.
Proof. unfold B2R. rewrite opp_spec. apply SF2R_opp. Qed.

Lemma B2R_0 : B2R 0 = 0%R.
Proof. reflexivity. Qed.

Lemma B2R_m1 : B2R (-1) = (-1)%R.
Proof. change (-1) with (- (1)). rewrite B2R_opp, B2R_1. reflexivity. Qed.

Lemma finite_zero_mul k : finite k -> finite (0 * k).
Proof.
  unfold finite. rewrite mul_spec. change (Prim2SF 0) with (S754_zero false).
  destruct (Prim2SF k) as [[]|[]| |[] ? ?]; simpl; auto.
Qed.

Theorem scaled_direction_bounds c f k :
  (-1 <=? c) = true -> (c <=? 1) = true ->
  (0 <=? f) = true -> (f <=? 1) = true ->
  (0 <=? k) = true -> finite k ->
  (abs (c * f * k) <=? f * k) = true /\ finite (c * f * k) /\ finite (f * k).
Proof.
  intros Hc1 Hc2 Hf0 Hf1 Hk Fk.
  assert (F1 : finite 1) by finite_lit.
  assert (Fm1 : finite (-1)) by finite_lit.
  assert (Fc : finite c) by (apply (finite_between (-1) c 1); auto).
  assert (Ff : finite f) by (apply (finite_between 0 f 1); auto using finite_0).
  assert (U : (c * f <=? f) = true) by (apply mul_le_self; auto).
  assert (L : (- f <=? c * f) = true).
  { apply (Rounds_leb (B2R (- f)) _ (B2R c * B2R f)%R);
      auto using mul_Rounds, exact_Rounds, finite_opp.
    rewrite B2R_opp.
    apply leb_B2R in Hc1, Hf0; auto using finite_0.
    rewrite B2R_m1 in Hc1. rewrite B2R_0 in Hf0. nra. }
  assert (Fcf : finite (c * f)) by (apply (finite_between (- f) _ f); auto using finite_opp).
  assert (Fk0 : (0 * k <=? f * k) = true) by (apply mul_mono_r; auto using finite_0).
  assert (Fk1 : (f * k <=? k) = true) by (apply mul_le_self; auto).
  assert (Ffk : finite (f * k)).
  { apply (finite_between (0 * k) _ k); auto using finite_zero_mul. }
  assert (U2 : (c * f * k <=? f * k) = true) by (apply mul_mono_r; auto).
  assert (L2 : (- (f * k) <=? c * f * k) = true).
  { rewrite <- opp_mul. apply mul_mono_r; auto using finite_opp. }
  split; [now apply abs_leb|]. split; [|exact Ffk].
  apply (finite_between (- (f * k)) _ (f * k)); auto using finite_opp.
Qed.

(** *** Sums, products and magnitudes within bounds *)

Lemma add_Rounds x y : finite x -> finite y -> Rounds (B2R x + B2R y) (Prim2SF (x + y)).
Proof. intros. rewrite add_spec. now apply SFadd_Rounds. Qed.

Lemma ltb_B2R x y : finite x -> finite y -> (x <? y) = true -> (B2R x < B2R y)%R.
Proof. intros Fx Fy. rewrite ltb_spec. now apply SFltb_SF2R. Qed.

Theorem add_mono a a' b b' :
  finite a -> finite a' -> finite b -> finite b' ->
  (a <=? a') = true -> (b <=? b') = true ->
  (a + b <=? a' + b') = true.
Proof.
  intros Fa Fa' Fb Fb' Ha Hb.
  apply (Rounds_leb (B2R a + B2R b) _ (B2R a' + B2R b')); auto using add_Rounds.
  apply leb_B2R in Ha, Hb; auto. lra.
Qed.

Theorem mul_nonneg a b :
  finite a -> finite b -> (0 <=? a) = true -> (0 <=? b) = true -> (0 <=? a * b) = true.
Proof.
  intros Fa Fb Ha Hb.
  apply (Rounds_leb (B2R 0) _ (B2R a * B2R b)); auto using mul_Rounds, exact_Rounds, finite_0.
  apply leb_B2R in Ha, Hb; auto using finite_0. rewrite B2R_0 in *. nra.
Qed.

Theorem add_le_r a b :
  finite a -> finite b -> (0 <=? b) = true -> (a <=? a + b) = true.
Proof.
  intros Fa Fb Hb.
  apply (Rounds_leb (B2R a) _ (B2R a + B2R b)); auto using add_Rounds, exact_Rounds.
  apply leb_B2R in Hb; auto using finite_0. rewrite B2R_0 in *. lra.
Qed.

Theorem add_ge_r a b :
  finite a -> finite b -> (b <=? 0) = true -> (a + b <=? a) = true.
Proof.
  intros Fa Fb Hb.
  apply (Rounds_leb (B2R a + B2R b) _ (B2R a)); auto using add_Rounds, exact_Rounds.
  apply leb_B2R in Hb; auto using finite_0. rewrite B2R_0 in *. lra.
Qed.

Lemma abs_leb_inv x b : (abs x <=? b) = true -> (x <=? b) = true /\ (- b <=? x) = true.
Proof. rewrite !leb_spec, abs_spec, opp_spec. apply SFabs_leb_inv. Qed.

Lemma abs_ltb_inv x b : (abs x <? b) = true -> (x <? b) = true /\ (- b <? x) = true.
Proof. rewrite !ltb_spec, abs_spec, opp_spec. apply SFabs_ltb_inv. Qed.

Lemma nan_add_l x y : is_nan x = true -> is_nan (x + y) = true.
Proof.
  intros H. destruct (is_nan (x + y)) eqn:E; [reflexivity|].
  apply add_notnan in E. destruct E. congruence.
Qed.

(** *** The sign of a scaled direction *)

Theorem mul_nonpos a b :
  finite a -> finite b -> (a <=? 0) = true -> (0 <=? b) = true -> (a * b <=? 0) = true.
Proof.
  intros Fa Fb Ha Hb.
  apply (Rounds_leb (B2R a * B2R b) _ (B2R 0)); auto using mul_Rounds, exact_Rounds, finite_0.
  apply leb_B2R in Ha, Hb; auto using finite_0. rewrite B2R_0 in *. nra.
Qed.

(** Subtracting a finite value that is not negative does not increase a
    number; subtracting one that is not positive does not decrease it. *)
Theorem sub_le_self a b :
  is_nan a = false -> finite b -> (0 <=? b) = true -> (a - b <=? a) = true.
Proof.
  intros Na Fb Hb.
  destruct (Prim2SF a) as [s|s| |s m e] eqn:E.
  - assert (Fa : finite a) by (apply finite_cases; left; eauto).
    rewrite <- (sub_zero_r a) at 2. apply sub_mono; auto using finite_0, F64.leb_refl.
  - rewrite leb_spec, sub_spec, E. unfold finite in Fb.
    destruct (Prim2SF b) as [[]|[]| |[] ? ?]; try contradiction; destruct s; reflexivity.
  - apply F64.is_nan_spec in Na. congruence.
  - assert (Fa : finite a) by (apply finite_cases; right; eauto).
    rewrite <- (sub_zero_r a) at 2. apply sub_mono; auto using finite_0, F64.leb_refl.
Qed.

Theorem sub_ge_self a b :
  is_nan a = false -> finite b -> (b <=? 0) = true -> (a <=? a - b) = true.
Proof.
  intros Na Fb Hb.
  destruct (Prim2SF a) as [s|s| |s m e] eqn:E.
  - assert (Fa : finite a) by (apply finite_cases; left; eauto).
    rewrite <- (sub_zero_r a) at 1. apply sub_mono; auto using finite_0, F64.leb_refl.
  - rewrite leb_spec, sub_spec, E. unfold finite in Fb.
    destruct (Prim2SF b) as [[]|[]| |[] ? ?]; try contradiction; destruct s; reflexivity.
  - apply F64.is_nan_spec in Na. congruence.
  - assert (Fa : finite a) by (apply finite_cases; right; eauto).
    rewrite <- (sub_zero_r a) at 1. apply sub_mono; auto using finite_0, F64.leb_refl.
Qed.

(** A direction in [[-1, 1]] scaled by a factor in [[0, 1]] and a constant
    that is not negative keeps its sign. *)
Theorem scaled_direction_sign c f k :
  (-1 <=? c) = true -> (c <=? 1) = true ->
  (0 <=? f) = true -> (f <=? 1) = true ->
  (0 <=? k) = true -> finite k ->
  ((0 <=? c) = true -> (0 <=? c * f * k) = true)
  /\ ((c <=? 0) = true -> (c * f * k <=? 0) = true).
Proof.
  intros Hc1 Hc2 Hf0 Hf1 Hk Fk.
  assert (F1 : finite 1) by finite_lit.
  assert (Fm1 : finite (-1)) by finite_lit.
  assert (Fc : finite c) by (apply (finite_between (-1) c 1); auto).
  assert (Ff : finite f) by (apply (finite_between 0 f 1); auto using finite_0).
  assert (U : (c * f <=? f) = true) by (apply mul_le_self; auto).
  assert (L : (- f <=? c * f) = true).
  { apply (Rounds_leb (B2R (- f)) _ (B2R c * B2R f)%R);
      auto using mul_Rounds, exact_Rounds, finite_opp.
    rewrite B2R_opp.
    apply leb_B2R in Hc1, Hf0; auto using finite_0.
    rewrite B2R_m1 in Hc1. rewrite B2R_0 in Hf0. nra. }
  assert (Fcf : finite (c * f)) by (apply (finite_between (- f) _ f); auto using finite_opp).
  split; intros H.
  - apply mul_nonneg; auto. apply mul_nonneg; auto.
  - apply mul_nonpos; auto. apply mul_nonpos; auto.
Qed.

End Rounding.

(** * Properties of the script *)

Import Particle.
Import Binary64.
Import Rounding.

(** ** What [update()] leaves alone *)

Ltac fields :=
  cbn [set_vx set_vy set_x set_y set_angle
       x y vx vy radius targetSize color angle spin offsets fst snd].

Ltac split_ifs :=
  repeat match goal with |- context [if ?c then _ else _] => destruct c end.

Lemma update_fixed_fields M w h mx my ss p n :
  fixed_fields (fst (update M w h mx my ss p n)) = fixed_fields p.
Proof.
  destruct p as [x0 y0 vx0 vy0 ts r c a s os].
  unfold update, min_speed, damping, mouse_interaction, boundaries, basic_motion,
    scroll_interaction; fields.
  destruct (repel_force _ _ _ _) as [[fx fy]|]; fields; split_ifs; reflexivity.
Qed.

Lemma update_all_fixed_fields M W ps :
  forall n, map fixed_fields (fst (update_all M W ps n)) = map fixed_fields ps.
Proof.
  induction ps as [|p ps IH]; intros n; [reflexivity|].
  cbn [update_all].
  pose proof (update_fixed_fields M (width W) (height W) (mouse_x W) (mouse_y W)
                (scrollSpeed W) p n) as Hp.
  destruct (update M _ _ _ _ _ p n) as [p' n'].
  specialize (IH n'). destruct (update_all M W ps n') as [qs n''].
  cbn [fst map] in *. now rewrite Hp, IH.
Qed.

Lemma step_fixed_fields M W e :
  is_resize e = false ->
  map fixed_fields (particles (fst (step M W e))) = map fixed_fields (particles W).
Proof.
  destruct e; intros He; try discriminate He; try reflexivity.
  cbn [step]. unfold animate.
  pose proof (update_all_fixed_fields M W (particles W) (draws W)) as H.
  destruct (update_all M W (particles W) (draws W)) as [ps n]. exact H.
Qed.

Lemma run_fixed_fields M es :
  forall W, forallb (fun e => negb (is_resize e)) es = true ->
  map fixed_fields (particles (run M W es)) = map fixed_fields (particles W).
Proof.
  induction es as [|e es IH]; intros W H; [reflexivity|].
  cbn [forallb run] in *.
  apply andb_prop in H. destruct H as [He Hes].
  rewrite IH by exact Hes. apply step_fixed_fields.
  now destruct (is_resize e).
Qed.

(** C9: [update()] writes only [x], [y], [vx], [vy] and [angle]: the radius
    (and [targetSize]), the colour, the spin rate and the eight morph-phase
    offsets of the particle it returns are those it was given; and along any
    sequence of events without a resize the particles of the field keep
    these values. *)
Theorem update_writes_only_motion_fields M :
  (forall w h mx my ss p n,
      let p' := fst (update M w h mx my ss p n) in
      radius p' = radius p /\ color p' = color p /\ spin p' = spin p
      /\ offsets p' = offsets p /\ targetSize p' = targetSize p)
  /\ (forall W es,
         forallb (fun e => negb (is_resize e)) es = true ->
         map fixed_fields (particles (run M W es)) = map fixed_fields (particles W)).
Proof.
  split.
  - intros w h mx my ss p n p'.
    pose proof (update_fixed_fields M w h mx my ss p n) as H.
    unfold fixed_fields in H. fold p' in H. inversion H. auto.
  - intros W es. apply run_fixed_fields.
Qed.

Lemma update_writes_only_motion_fields_witness :
  let W := init Toy.Math 1280 720 0 in
  let es := [ev_mousemove 300 250; ev_frame (fun _ => 1000); ev_scroll 40;
             ev_frame (fun _ => 1016); ev_mouseout; ev_frame (fun _ => 1033)] in
  map fixed_fields (particles (run Toy.Math W es)) = map fixed_fields (particles W).
Proof.
  intros W es.
  apply (proj2 (update_writes_only_motion_fields Toy.Math) W es).
  reflexivity.
Defined.

(** ** The wrap at the viewport edges *)

Lemma wrap_coord_spec dim buffer c :
  (0 <=? dim) = true -> (0 <=? buffer) = true -> is_nan c = false ->
  (- buffer <=? wrap_coord dim buffer c) = true
  /\ (wrap_coord dim buffer c <=? dim + buffer) = true
  /\ ((dim + buffer <? c) = true -> wrap_coord dim buffer c = - buffer)
  /\ ((c <? - buffer) = true -> wrap_coord dim buffer c = dim + buffer).
Proof.
  intros Hd Hb Hc.
  assert (HA : (- buffer <=? 0) = true) by now apply F64.opp_nonneg.
  assert (HB : (0 <=? dim + buffer) = true) by now apply F64.add_nonneg.
  assert (HAB : (- buffer <=? dim + buffer) = true) by (eapply F64.leb_trans; eauto).
  destruct (F64.leb_notnan _ _ HAB) as [NA NB].
  unfold wrap_coord.
  destruct (c <? - buffer) eqn:E1.
  - rewrite F64.ltb_irrefl. repeat split; auto using F64.leb_refl.
    intros E2. pose proof (F64.ltb_leb_trans _ _ _ E1 HAB) as E3.
    apply F64.ltb_nltb in E3. congruence.
  - destruct (dim + buffer <? c) eqn:E2.
    + repeat split; auto using F64.leb_refl. discriminate.
    + repeat split; try discriminate; apply F64.nltb_leb; auto.
Qed.

Lemma update_position M w h mx my ss p n :
  let q := boundaries w h (basic_motion (scroll_interaction ss p)) in
  x (fst (update M w h mx my ss p n)) = x q /\ y (fst (update M w h mx my ss p n)) = y q.
Proof.
  destruct p as [x0 y0 vx0 vy0 ts r c a s os].
  unfold update, min_speed, damping, mouse_interaction, boundaries, basic_motion,
    scroll_interaction; fields.
  destruct (repel_force _ _ _ _) as [[fx fy]|]; fields; split_ifs; split; reflexivity.
Qed.

(** C1: in [update()], right after the wrap of the position at the viewport
    edges, both coordinates lie between [-radius] and [dimension + radius];
    a coordinate that exceeded [dimension + radius] has been set to
    [-radius], one that was below [-radius] to [dimension + radius]; and
    this is the position [update()] returns.  The viewport dimensions and
    the radius are not negative, and the moved position is a number. *)
Theorem wrap_keeps_position_in_bounds M w h mx my ss p n :
  let r := radius p in
  let q := basic_motion (scroll_interaction ss p) in
  let q' := boundaries w h q in
  let p' := fst (update M w h mx my ss p n) in
  (0 <=? w) = true -> (0 <=? h) = true -> (0 <=? r) = true ->
  is_nan (x q) = false -> is_nan (y q) = false ->
  ((- r <=? x q') = true /\ (x q' <=? w + r) = true)
  /\ ((- r <=? y q') = true /\ (y q' <=? h + r) = true)
  /\ ((w + r <? x q) = true -> x q' = - r)
  /\ ((x q <? - r) = true -> x q' = w + r)
  /\ ((h + r <? y q) = true -> y q' = - r)
  /\ ((y q <? - r) = true -> y q' = h + r)
  /\ x p' = x q' /\ y p' = y q'.
Proof.
  intros r q q' p' Hw Hh Hr Hx Hy.
  assert (Hrq : radius q = r).
  { unfold q, r, basic_motion, scroll_interaction. destruct p; reflexivity. }
  assert (Hxq : x q' = wrap_coord w r (x q)).
  { unfold q', boundaries. rewrite Hrq. destruct q; reflexivity. }
  assert (Hyq : y q' = wrap_coord h r (y q)).
  { unfold q', boundaries. rewrite Hrq. destruct q; reflexivity. }
  destruct (wrap_coord_spec w r (x q) Hw Hr Hx) as (X1 & X2 & X3 & X4).
  destruct (wrap_coord_spec h r (y q) Hh Hr Hy) as (Y1 & Y2 & Y3 & Y4).
  destruct (update_position M w h mx my ss p n) as [Px Py].
  rewrite Hxq, Hyq. repeat split; auto; unfold p'; rewrite ?Px, ?Py; auto.
Qed.

Lemma wrap_keeps_position_in_bounds_witness :
  let p := Particle.mk 1729.5 (-449.875) 0.75 (-0.5) 450 450 None 1 0.001 [] in
  let p' := fst (update Toy.Math 1280 720 (Some 300) (Some 250) 3 p 0) in
  x p' = -450 /\ y p' = 1170.
Proof.
  intros p p'.
  destruct (wrap_keeps_position_in_bounds Toy.Math 1280 720 (Some 300) (Some 250) 3 p 0)
    as (_ & _ & X & _ & _ & Y & Px & Py); try reflexivity.
  fold p' in Px, Py. rewrite Px, Py. split; [apply X | apply Y]; reflexivity.
Defined.

(** ** The guard of the repel force *)

Lemma repel_force_Some M mx my q f :
  repel_force M mx my q = Some f ->
  exists mxv, mx = Some mxv /\ (pointer_distance my mxv q <? 600) = true.
Proof.
  unfold repel_force. destruct mx as [mxv|]; [|discriminate].
  destruct (pointer_distance my mxv q <? config.mouseRepelDist) eqn:E; [|discriminate].
  intros _. exists mxv. split; [reflexivity | exact E].
Qed.

Lemma repel_force_absent M my q : repel_force M None my q = None.
Proof. reflexivity. Qed.

Lemma repel_force_far M mxv my q :
  (600 <=? pointer_distance my mxv q) = true -> repel_force M (Some mxv) my q = None.
Proof.
  intros H. unfold repel_force.
  change config.mouseRepelDist with 600.
  now rewrite (F64.leb_nltb _ _ H).
Qed.

Lemma run_mouse_absent M es :
  forall W, mouse_x W = None -> forallb (fun e => negb (is_mousemove e)) es = true ->
  mouse_x (run M W es) = None.
Proof.
  induction es as [|e es IH]; intros W HW H; [exact HW|].
  cbn [forallb run] in *. apply andb_prop in H. destruct H as [He Hes].
  apply IH; [|exact Hes].
  destruct e; try discriminate He; cbn [step fst]; try exact HW; try reflexivity.
  unfold animate. destruct (update_all _ _ _ _). exact HW.
Qed.

(** C3: the repel force exists only when [mouse.x] is not null and the
    distance to the pointer is below 600.  With no pointer position, or at a
    distance of 600 or more, the mouse block changes nothing and [update()]
    is scroll, motion, wrap, damping and minimum speed alone.  Leaving the
    page resets the pointer position to null, and it stays null until the
    next mouse move. *)
Theorem repel_only_within_range M w h mx my ss p n :
  let q := boundaries w h (basic_motion (scroll_interaction ss p)) in
  (forall f, repel_force M mx my q = Some f ->
     exists mxv, mx = Some mxv /\ (pointer_distance my mxv q <? 600) = true)
  /\ (mx = None ->
      mouse_interaction M mx my q = q
      /\ update M w h mx my ss p n = min_speed M (damping q) n)
  /\ (forall mxv, mx = Some mxv -> (600 <=? pointer_distance my mxv q) = true ->
      mouse_interaction M mx my q = q
      /\ update M w h mx my ss p n = min_speed M (damping q) n)
  /\ (forall W es, forallb (fun e => negb (is_mousemove e)) es = true ->
      mouse_x (run M (on_mouseout W) es) = None).
Proof.
  intros q. split; [|split; [|split]].
  - intros f. apply repel_force_Some.
  - intros ->. unfold update, mouse_interaction. fold q.
    rewrite repel_force_absent. split; reflexivity.
  - intros mxv -> H. unfold update, mouse_interaction. fold q.
    rewrite (repel_force_far M mxv my q H). split; reflexivity.
  - intros W es. apply run_mouse_absent. reflexivity.
Qed.

Lemma repel_only_within_range_witness :
  let p := Particle.mk 1000 700 0.75 (-0.5) 450 450 None 1 0.001 [] in
  update Toy.Math 1280 720 (Some 300) (Some 250) 3 p 0
  = min_speed Toy.Math
      (damping (boundaries 1280 720 (basic_motion (scroll_interaction 3 p)))) 0.
Proof.
  intros p.
  apply (proj1 (proj2 (proj2 (repel_only_within_range Toy.Math 1280 720 (Some 300) (Some 250) 3 p 0)))
           300 eq_refl).
  reflexivity.
Defined.

(** ** The particle field *)

Lemma new_draws M w h n : snd (new M w h n) = (n + 18)%nat.
Proof. unfold new, reset. cbn [snd]. lia. Qed.



Lemma initParticles_loop_spec M w h fuel :
  forall i n acc, (i + fuel = config.particleCount)%nat ->
  initParticles_loop M w h fuel i n acc
  = (acc ++ map (fun k => fst (new M w h (n + 18 * k))) (seq 0 fuel), (n + 18 * fuel)%nat).
Proof.
  unfold config.particleCount.
  induction fuel as [|fuel IH]; intros i n acc Hi.
  - cbn [initParticles_loop seq map]. now rewrite app_nil_r, Nat.mul_0_r, Nat.add_0_r.
  - cbn [initParticles_loop]. unfold config.particleCount.
    replace (Nat.ltb i 12) with true by (symmetry; apply Nat.ltb_lt; lia).
    pose proof (new_draws M w h n) as Hn.
    destruct (new M w h n) as [p n'] eqn:E. cbn [snd] in Hn. subst n'.
    rewrite IH by lia. f_equal; [|lia].
    rewrite <- app_assoc. f_equal. cbn [seq map app].
    replace (n + 18 * 0)%nat with n by lia. rewrite E. cbn [fst]. f_equal.
    rewrite <- seq_shift, map_map. apply map_ext. intros k.
    replace (n + 18 * S k)%nat with (n + 18 + 18 * k)%nat by lia. reflexivity.
Qed.

Lemma resize_particles M iw ih W :
  particles (resize M iw ih W)
  = map (fun k => fst (new M iw ih (draws W + 18 * k))) (seq 0 config.particleCount)
  /\ draws (resize M iw ih W) = (draws W + 18 * config.particleCount)%nat.
Proof.
  unfold resize, initParticles. cbn [width height draws].
  rewrite (initParticles_loop_spec M iw ih config.particleCount 0 (draws W) [])
    by reflexivity.
  split; reflexivity.
Qed.




(** ** The radius of the particles of a run

    The radius is written by [reset] alone, as [baseSize + random * 200]; it
    is not negative for any particle the script creates, as long as
    [Math.random] returns values between 0 and 1, and the frames keep it. *)
Lemma new_radius_nonneg M w h n :
  (0 <=? Math_random M (n + 4)) = true -> (Math_random M (n + 4) <=? 1) = true ->
  (0 <=? radius (fst (new M w h n))) = true.
Proof.
  intros H0 H1. unfold new, reset; fields.
  apply F64.add_nonneg; [reflexivity|].
  assert (Fu : finite (Math_random M (n + 4))).
  { apply (finite_between 0 _ 1); auto using finite_0; finite_lit. }
  apply (mul_mono_r 0 (Math_random M (n + 4)) 200); auto using finite_0;
    finite_lit.
Qed.

Lemma fixed_fields_radius ps :
  forall qs, map fixed_fields qs = map fixed_fields ps ->
  Forall (fun p => (0 <=? radius p) = true) ps ->
  Forall (fun p => (0 <=? radius p) = true) qs.
Proof.
  induction ps as [|p ps IH]; intros [|q qs] E H; try discriminate E; constructor;
    inversion H; subst; cbn [map] in E; inversion E.
  - unfold radius in *. congruence.
  - now apply IH.
Qed.

Lemma run_radius_nonneg M :
  (forall k, (0 <=? Math_random M k) = true /\ (Math_random M k <=? 1) = true) ->
  forall es W,
    Forall (fun p => (0 <=? radius p) = true) (particles W) ->
    Forall (fun p => (0 <=? radius p) = true) (particles (run M W es)).
Proof.
  intros HM. induction es as [|e es IH]; intros W H; [exact H|].
  cbn [run]. apply IH.
  destruct (is_resize e) eqn:R.
  - destruct e; try discriminate R. cbn [step fst].
    rewrite (proj1 (resize_particles M innerWidth innerHeight W)).
    apply Forall_forall. intros p Hp. apply in_map_iff in Hp.
    destruct Hp as (k & <- & _). apply new_radius_nonneg; apply HM.
  - apply (fixed_fields_radius (particles W)); [|exact H].
    now apply step_fixed_fields.
Qed.

(** ** The blob polygon *)

Lemma theta_spec i : (i <= 10)%nat -> (num i / 10) * Math_PI * 2 = blob_theta i.
Proof.
  intros H. do 11 (destruct i as [|i]; [vm_compute; reflexivity|]). lia.
Qed.

Lemma vertex_spec M p time i :
  (i <= 10)%nat -> vertex M p time i = blob_vertex M p time i.
Proof.
  intros H. unfold vertex, blob_vertex, blob_radius.
  rewrite (theta_spec i H).
  rewrite (F64.mul_comm (blob_theta i) 2), (F64.mul_comm (blob_theta i) 3).
  rewrite (F64.mul_comm (Math_sin M _) 0.1), (F64.mul_comm (Math_cos M _) 0.1).
  reflexivity.
Qed.

Lemma draw_loop_fuel M p time fuel :
  forall i, (11 <= i + fuel)%nat ->
  draw_loop M p time fuel i = draw_loop M p time (11 - i) i.
Proof.
  induction fuel as [|fuel IH]; intros i H.
  - replace (11 - i)%nat with 0%nat by lia. reflexivity.
  - cbn [draw_loop]. destruct (Nat.leb i 10) eqn:E.
    + apply Nat.leb_le in E. replace (11 - i)%nat with (S (10 - i)) by lia.
      cbn [draw_loop]. replace (Nat.leb i 10) with true by (symmetry; apply Nat.leb_le; lia).
      destruct (vertex M p time i) as [px py]. f_equal.
      rewrite IH by lia. f_equal. 
    + apply Nat.leb_gt in E. replace (11 - i)%nat with 0%nat by lia. reflexivity.
Qed.

(** C8: [draw()] traces eleven vertices, for [i] from 0 to 10: a [moveTo]
    for the first and a [lineTo] for each of the others, then [closePath].
    Vertex [i] lies at angle [theta_i = 2*pi*i/10] and at distance
    [radius * (1 + 0.1*sin(2*theta_i + time + offsets[i mod 8])
                 + 0.1*cos(3*theta_i - time))]
    from the particle's centre, with [time = Date.now() * 0.001].  The
    eleven angles, as the loop computes them from its index, are the
    binary64 numbers 0, 0.628..., 1.256..., up to 6.283...: they increase
    strictly from 0 through pi (at [i = 5]) to [2 * pi] (at [i = 10]).  The
    loop stops by itself: more fuel than eleven iterations adds nothing. *)
Theorem draw_samples_eleven_vertices M p now :
  let time := now * 0.001 in
  draw M p now
  = [save; translate (x p) (y p); rotate (angle p); beginPath]
      ++ map (fun i => path_call i (blob_vertex M p time i)) (seq 0 11)
      ++ [closePath; fillStyle (color p); fill; restore]
  /\ List.length (seq 0 11) = 11%nat
  /\ (forall i, blob_theta i = 2 * Math_PI * num i / 10)
  /\ (forall fuel, draw_loop M p time (11 + fuel) 0 = draw_loop M p time 11 0)
  /\ map num (seq 0 11) = [0; 1; 2; 3; 4; 5; 6; 7; 8; 9; 10]
  /\ map (fun i => (num i / 10) * Math_PI * 2) (seq 0 11)
     = [0; 0.62831853071795862; 1.2566370614359172; 1.8849555921538759;
        2.5132741228718345; 3.1415926535897931; 3.7699111843077517;
        4.3982297150257104; 5.026548245743669; 5.6548667764616276;
        6.2831853071795862]
  /\ map blob_theta (seq 0 11) = map (fun i => (num i / 10) * Math_PI * 2) (seq 0 11)
  /\ blob_theta 0 = 0 /\ blob_theta 5 = Math_PI /\ blob_theta 10 = 2 * Math_PI
  /\ (forall i, (i < 10)%nat -> (blob_theta i <? blob_theta (S i)) = true)
  /\ (forall i, (i <= 10)%nat ->
      vertex M p time i
      = (radius p
         * (1 + (Math_sin M (blob_theta i * 2 + time + nth (i mod 8) (offsets p) nan) * 0.1
                 + Math_cos M (blob_theta i * 3 - time) * 0.1))
         * Math_cos M (blob_theta i),
         radius p
         * (1 + (Math_sin M (blob_theta i * 2 + time + nth (i mod 8) (offsets p) nan) * 0.1
                 + Math_cos M (blob_theta i * 3 - time) * 0.1))
         * Math_sin M (blob_theta i))).
Proof.
  intros time. split; [|split; [reflexivity|split; [reflexivity|split]]].
  - unfold draw. fold time. f_equal. f_equal.
    cbn [draw_loop Nat.leb Nat.eqb seq map].
    rewrite !vertex_spec by lia.
    unfold path_call. cbn [Nat.eqb].
    repeat match goal with
           | |- context [blob_vertex M p time ?i] =>
               destruct (blob_vertex M p time i) as [? ?]
           end.
    reflexivity.
  - intros fuel. apply (draw_loop_fuel M p time (11 + fuel) 0). lia.
  - split; [vm_compute; reflexivity|]. split; [vm_compute; reflexivity|].
    split; [vm_compute; reflexivity|]. split; [vm_compute; reflexivity|].
    split; [vm_compute; reflexivity|]. split; [vm_compute; reflexivity|].
    split.
    + intros i Hi. do 10 (destruct i as [|i]; [vm_compute; reflexivity|]). lia.
    + intros i Hi. unfold vertex. rewrite (theta_spec i Hi). reflexivity.
Qed.

(** ** The contact form *)

(** C7: submitting Name "A", Email "a@b.com", Subject "Hi", Message "Hello"
    prevents the default submission and navigates to a [mailto:] link to
    goodteachtech@gmail.com whose [subject] component is
    [encodeURIComponent("Hi")] and whose [body] component is
    [encodeURIComponent] of the text made of the lines "Name: A",
    "Email: a@b.com", an empty line and "Hello".  Both components consist of
    unreserved characters and percent escapes only, and denote these very
    texts when the escapes are read back. *)
Theorem contact_form_builds_mailto :
  let enc_subject := lit "Hi" in
  let enc_body := lit "Name%3A%20A%0AEmail%3A%20a%40b.com%0A%0AHello" in
  let body := bodyRaw (lit "A") (lit "a@b.com") (lit "Hello") in
  on_submit (lit "A") (lit "a@b.com") (lit "Hi") (lit "Hello")
  = {| defaultPrevented := true;
       location_href :=
         Some (lit "mailto:goodteachtech@gmail.com?subject=" ++ enc_subject
                   ++ lit "&body=" ++ enc_body) |}
  /\ URI.encodeURIComponent (lit "Hi") = Some enc_subject
  /\ URI.encodeURIComponent body = Some enc_body
  /\ lines body = [lit "Name: A"; lit "Email: a@b.com"; []; lit "Hello"]
  /\ URI.octets enc_subject = Some (lit "Hi")
  /\ URI.octets enc_body = Some body
  /\ forallb uri_safe (enc_subject ++ enc_body) = true.
Proof.
  cbv zeta. repeat split; vm_compute; reflexivity.
Qed.

(** ** The repel force *)

Lemma repel_force_near M mxv my q :
  (pointer_distance my mxv q <? 600) = true ->
  repel_force M (Some mxv) my q
  = Some (Math_cos M (Math_atan2 M (pointer_dy my q) (pointer_dx mxv q))
            * ((600 - pointer_distance my mxv q) / 600) * 0.02,
          Math_sin M (Math_atan2 M (pointer_dy my q) (pointer_dx mxv q))
            * ((600 - pointer_distance my mxv q) / 600) * 0.02).
Proof.
  intros H. unfold repel_force. change config.mouseRepelDist with 600.
  rewrite H. reflexivity.
Qed.

Lemma pointer_distance_nonneg my mxv q :
  (pointer_distance my mxv q <? 600) = true -> (0 <=? pointer_distance my mxv q) = true.
Proof.
  intros H. apply sqrt_nonneg. exact (proj1 (F64.ltb_notnan _ _ H)).
Qed.

Lemma mouse_interaction_velocity M mx my q fx fy :
  repel_force M mx my q = Some (fx, fy) ->
  vx (mouse_interaction M mx my q) = vx q - fx
  /\ vy (mouse_interaction M mx my q) = vy q - fy.
Proof.
  intros H. unfold mouse_interaction. rewrite H. destruct q; split; reflexivity.
Qed.

(** C2: with a pointer position and a distance [d] below 600, the mouse
    block of [update()] subtracts from the velocity the vector
    [(cos a, sin a) * f * 0.02], where [a = atan2(dy, dx)] is the direction
    from the particle to the pointer and [f = (600 - d) / 600].  The factor
    [f] lies between 0 and 1; and as long as the host's cosine and sine of
    [a] lie between -1 and 1, each component of the force has magnitude at
    most [f * 0.02].  The force points away from the pointer, axis by axis:
    as long as the host's cosine of [a] lies between -1 and 1 and has the
    sign of [dx], the horizontal component subtracted has the sign of
    [dx], so [vx] does not increase when the pointer is to the right of the
    particle and does not decrease when it is to the left; and as long as
    the host's sine of [a] does the same for [dy], [vy] does likewise for
    below and above. *)
Theorem repel_force_proportional M w h mx my ss p n mxv :
  let q := boundaries w h (basic_motion (scroll_interaction ss p)) in
  let dx := mxv - x q in
  let dy := to_number my - y q in
  let d := Math_sqrt (dx * dx + dy * dy) in
  let f := (600 - d) / 600 in
  let a := Math_atan2 M dy dx in
  mx = Some mxv -> (d <? 600) = true ->
  ((0 <=? f) = true /\ (f <=? 1) = true)
  /\ repel_force M mx my q = Some (Math_cos M a * f * 0.02, Math_sin M a * f * 0.02)
  /\ vx (mouse_interaction M mx my q) = vx q - Math_cos M a * f * 0.02
  /\ vy (mouse_interaction M mx my q) = vy q - Math_sin M a * f * 0.02
  /\ update M w h mx my ss p n = min_speed M (damping (mouse_interaction M mx my q)) n
  /\ ((-1 <=? Math_cos M a) = true -> (Math_cos M a <=? 1) = true ->
      (Math_abs (Math_cos M a * f * 0.02) <=? f * 0.02) = true)
  /\ ((-1 <=? Math_sin M a) = true -> (Math_sin M a <=? 1) = true ->
      (Math_abs (Math_sin M a * f * 0.02) <=? f * 0.02) = true)
  /\ (follows (Math_cos M a) dx ->
      ((0 <? dx) = true ->
       (0 <=? Math_cos M a * f * 0.02) = true
       /\ (is_nan (vx q) = false ->
           (vx (mouse_interaction M mx my q) <=? vx q) = true))
      /\ ((dx <? 0) = true ->
          (Math_cos M a * f * 0.02 <=? 0) = true
          /\ (is_nan (vx q) = false ->
              (vx q <=? vx (mouse_interaction M mx my q)) = true)))
  /\ (follows (Math_sin M a) dy ->
      ((0 <? dy) = true ->
       (0 <=? Math_sin M a * f * 0.02) = true
       /\ (is_nan (vy q) = false ->
           (vy (mouse_interaction M mx my q) <=? vy q) = true))
      /\ ((dy <? 0) = true ->
          (Math_sin M a * f * 0.02 <=? 0) = true
          /\ (is_nan (vy q) = false ->
              (vy q <=? vy (mouse_interaction M mx my q)) = true))).
Proof.
  intros q dx dy d f a -> Hd.
  change d with (pointer_distance my mxv q) in Hd.
  pose proof (pointer_distance_nonneg my mxv q Hd) as H0.
  destruct (force_factor_bounds _ H0 Hd) as [F0 F1].
  pose proof (repel_force_near M mxv my q Hd) as HF.
  destruct (mouse_interaction_velocity M (Some mxv) my q _ _ HF) as [Vx Vy].
  assert (Fk : finite 0.02) by finite_lit.
  assert (Dir : forall c v v',
            v' = v - c * ((600 - pointer_distance my mxv q) / 600) * 0.02 ->
            (-1 <=? c) = true -> (c <=? 1) = true ->
            ((0 <=? c) = true ->
             (0 <=? c * ((600 - pointer_distance my mxv q) / 600) * 0.02) = true
             /\ (is_nan v = false -> (v' <=? v) = true))
            /\ ((c <=? 0) = true ->
                (c * ((600 - pointer_distance my mxv q) / 600) * 0.02 <=? 0) = true
                /\ (is_nan v = false -> (v <=? v') = true))).
  { intros c v v' -> C1 C2.
    destruct (scaled_direction_bounds c _ 0.02 C1 C2 F0 F1 eq_refl Fk) as (_ & Ff & _).
    destruct (scaled_direction_sign c _ 0.02 C1 C2 F0 F1 eq_refl Fk) as [Pp Pn].
    split; intros Hc.
    - split; [now apply Pp|]. intros N. apply sub_le_self; auto.
    - split; [now apply Pn|]. intros N. apply sub_ge_self; auto. }
  split; [split; assumption|]. split; [exact HF|]. split; [exact Vx|].
  split; [exact Vy|]. split; [reflexivity|]. split; [|split; [|split]].
  - intros C1 C2.
    apply (scaled_direction_bounds (Math_cos M a) f 0.02); auto.
  - intros S1 S2.
    apply (scaled_direction_bounds (Math_sin M a) f 0.02); auto.
  - intros ((C1 & C2) & Cp & Cn).
    destruct (Dir (Math_cos M a) _ _ Vx C1 C2) as [Xp Xn].
    split; intros Hs; [apply Xp, Cp, Hs | apply Xn, Cn, Hs].
  - intros ((S1 & S2) & Sp & Sn).
    destruct (Dir (Math_sin M a) _ _ Vy S1 S2) as [Yp Yn].
    split; intros Hs; [apply Yp, Sp, Hs | apply Yn, Sn, Hs].
Qed.

Lemma repel_force_proportional_witness :
  let q := boundaries 1280 720 (basic_motion (scroll_interaction 3 Toy.particle)) in
  let f := (600 - pointer_distance (Some 250) 300 q) / 600 in
  (vx (mouse_interaction Toy.Math (Some 300) (Some 250) q) <? vx q) = true
  /\ (vy (mouse_interaction Toy.Math (Some 300) (Some 250) q) <? vy q) = true
  /\ (0 <=? f) = true /\ (f <=? 1) = true
  /\ (0 <? 300 - x q) = true /\ (0 <? 250 - y q) = true
  /\ (vx (mouse_interaction Toy.Math (Some 300) (Some 250) q) <=? vx q) = true
  /\ (vy (mouse_interaction Toy.Math (Some 300) (Some 250) q) <=? vy q) = true.
Proof.
  intros q f.
  destruct (repel_force_proportional Toy.Math 1280 720 (Some 300) (Some 250) 3
              Toy.particle 0 300 eq_refl eq_refl)
    as ((F0 & F1) & _ & Vx & Vy & _ & _ & _ & Ax & Ay).
  assert (Hx : follows (Math_cos Toy.Math
                          (Math_atan2 Toy.Math (to_number (Some 250) - y q) (300 - x q)))
                       (300 - x q)).
  { unfold follows. repeat split; try (vm_compute; reflexivity);
      intros H; vm_compute in H; discriminate H. }
  assert (Hy : follows (Math_sin Toy.Math
                          (Math_atan2 Toy.Math (to_number (Some 250) - y q) (300 - x q)))
                       (to_number (Some 250) - y q)).
  { unfold follows. repeat split; try (vm_compute; reflexivity);
      intros H; vm_compute in H; discriminate H. }
  split; [fold q in Vx; rewrite Vx; vm_compute; reflexivity|].
  split; [fold q in Vy; rewrite Vy; vm_compute; reflexivity|].
  split; [exact F0|]. split; [exact F1|].
  split; [vm_compute; reflexivity|]. split; [vm_compute; reflexivity|].
  split.
  - apply (proj2 (proj1 (Ax Hx) ltac:(vm_compute; reflexivity))). vm_compute; reflexivity.
  - apply (proj2 (proj1 (Ay Hy) ltac:(vm_compute; reflexivity))). vm_compute; reflexivity.
Defined.

(** ** A particle under the pointer *)

Lemma pointer_components_numbers my mxv q :
  (pointer_distance my mxv q <? 600) = true ->
  is_nan (pointer_dx mxv q) = false /\ is_nan (pointer_dy my q) = false.
Proof.
  intros H. apply F64.ltb_notnan in H. destruct H as [H _].
  unfold pointer_distance, Math_sqrt in H.
  apply sqrt_notnan, add_notnan in H. destruct H as [Hx Hy].
  apply mul_notnan in Hx, Hy. tauto.
Qed.

(** C10: the mouse block computes without NaN and without dividing by zero.
    When the particle sits exactly on the pointer, the distance is 0, the
    factor [(600 - 0) / 600] is exactly 1 and, the host returning
    [atan2(0, 0) = 0], [cos 0 = 1] and [sin 0 = 0], the force is
    [(0.02, 0)]: [vx] decreases by 0.02 and [vy] is unchanged.  For any
    particle and pointer that reach the force computation, the distance and
    the two differences are numbers, the divisor is the constant 600, the
    factor lies between 0 and 1, and each component of the force is finite,
    of magnitude at most 0.02, as long as the host's cosine and sine of the
    angle lie between -1 and 1. *)
Theorem repel_total_at_pointer M w h mx my ss p :
  let q := boundaries w h (basic_motion (scroll_interaction ss p)) in
  (Math_atan2 M 0 0 = 0 -> Math_cos M 0 = 1 -> Math_sin M 0 = 0 ->
   finite (x q) -> finite (y q) -> mx = Some (x q) -> my = Some (y q) ->
   pointer_distance my (x q) q = 0
   /\ (600 - 0) / 600 = 1
   /\ repel_force M mx my q = Some (0.02, 0)
   /\ vx (mouse_interaction M mx my q) = vx q - 0.02
   /\ vy (mouse_interaction M mx my q) = vy q)
  /\ (config.mouseRepelDist =? 0) = false
  /\ (forall fx fy, repel_force M mx my q = Some (fx, fy) ->
      exists mxv,
        let d := pointer_distance my mxv q in
        let f := (600 - d) / 600 in
        let a := Math_atan2 M (pointer_dy my q) (pointer_dx mxv q) in
        mx = Some mxv
        /\ fx = Math_cos M a * f * 0.02 /\ fy = Math_sin M a * f * 0.02
        /\ is_nan (pointer_dx mxv q) = false /\ is_nan (pointer_dy my q) = false
        /\ (0 <=? d) = true /\ (d <? 600) = true
        /\ (0 <=? f) = true /\ (f <=? 1) = true
        /\ ((-1 <=? Math_cos M a) = true -> (Math_cos M a <=? 1) = true ->
            finite fx /\ (Math_abs fx <=? 0.02) = true)
        /\ ((-1 <=? Math_sin M a) = true -> (Math_sin M a <=? 1) = true ->
            finite fy /\ (Math_abs fy <=? 0.02) = true)).
Proof.
  intros q. split; [|split; [reflexivity|]].
  - intros Hat Hcos Hsin Fx Fy -> ->.
    assert (D : pointer_distance (Some (y q)) (x q) q = 0).
    { unfold pointer_distance, pointer_dx, pointer_dy, to_number.
      rewrite !sub_diag by assumption. reflexivity. }
    assert (HF : repel_force M (Some (x q)) (Some (y q)) q = Some (0.02, 0)).
    { rewrite repel_force_near by (rewrite D; reflexivity).
      rewrite D. unfold pointer_dx, pointer_dy, to_number.
      rewrite !sub_diag by assumption. rewrite Hat, Hcos, Hsin. reflexivity. }
    destruct (mouse_interaction_velocity M _ _ q _ _ HF) as [Vx Vy].
    rewrite sub_zero_r in Vy.
    split; [exact D|]. split; [reflexivity|]. split; [exact HF|].
    split; [exact Vx|exact Vy].
  - intros fx fy HF.
    destruct (repel_force_Some M mx my q _ HF) as (mxv & -> & Hd).
    exists mxv. cbv zeta.
    rewrite (repel_force_near M mxv my q Hd) in HF. inversion HF as [[Ex Ey]]. clear HF.
    pose proof (pointer_distance_nonneg my mxv q Hd) as H0.
    destruct (force_factor_bounds _ H0 Hd) as [F0 F1].
    destruct (pointer_components_numbers my mxv q Hd) as [Nx Ny].
    assert (Fk : finite 0.02) by finite_lit.
    assert (F02 : forall c f, (f <=? 1) = true -> (0 <=? f) = true ->
              (Math_abs (c * f * 0.02) <=? f * 0.02) = true ->
              (Math_abs (c * f * 0.02) <=? 0.02) = true).
    { intros c f Hf1 Hf0 H. apply (F64.leb_trans _ _ _ H).
      apply (mul_mono_r f 1 0.02); auto; try finite_lit.
      apply (finite_between 0 f 1); auto using finite_0; finite_lit. }
    repeat (split; [first [reflexivity | assumption]|]).
    split.
    + intros C1 C2.
      destruct (scaled_direction_bounds _ _ 0.02 C1 C2 F0 F1 eq_refl Fk) as (B & Ff & _).
      split; [exact Ff | now apply F02].
    + intros S1 S2.
      destruct (scaled_direction_bounds _ _ 0.02 S1 S2 F0 F1 eq_refl Fk) as (B & Ff & _).
      split; [exact Ff | now apply F02].
Qed.

Lemma repel_total_at_pointer_witness :
  let p := Particle.mk 100 200 0.25 (-0.5) 450 450 None 1 0.001 [] in
  let q := boundaries 1280 720 (basic_motion (scroll_interaction 0 p)) in
  repel_force Toy.Math (Some 100.25) (Some 199.5) q = Some (0.02, 0)
  /\ vx (mouse_interaction Toy.Math (Some 100.25) (Some 199.5) q) = 0.23
  /\ vy (mouse_interaction Toy.Math (Some 100.25) (Some 199.5) q) = -0.5.
Proof.
  intros p q.
  destruct (proj1 (repel_total_at_pointer Toy.Math 1280 720 (Some 100.25) (Some 199.5) 0 p))
    as (_ & _ & HF & Vx & Vy); try reflexivity.
  fold q in HF, Vx, Vy. rewrite Vx, Vy. split; [exact HF|]. split; reflexivity.
Defined.

(** ** Damping and minimum speed *)

Lemma min_speed_spec M p n :
  let '(vx', n1) := nudged M (vx p) n in
  let '(vy', n2) := nudged M (vy p) n1 in
  vx (fst (min_speed M p n)) = vx' /\ vy (fst (min_speed M p n)) = vy'
  /\ snd (min_speed M p n) = n2.
Proof.
  destruct p as [x0 y0 vx0 vy0 ts r c a s os]. unfold min_speed, nudged; fields.
  destruct (Math_abs vx0 <? 0.2); fields; destruct (Math_abs vy0 <? 0.2); fields;
    repeat split; reflexivity.
Qed.

Lemma damping_spec p :
  vx (damping p) = vx p * 0.98 /\ vy (damping p) = vy p * 0.98.
Proof. destruct p. split; reflexivity. Qed.

(** C6: after the mouse block, [update()] multiplies both velocity
    components by 0.98; then a component whose magnitude is below 0.2
    receives the delta [(u - 0.5) * 0.1], [u] being the next value of
    [Math.random()] ([vx] is served first and [vy] takes the following
    draw); a component of magnitude 0.2 or more is left as damped.  For a
    draw [u] in [0, 1) the delta lies in [-0.05, 0.05). *)
Theorem damping_then_min_speed M w h mx my ss p n :
  let r := mouse_interaction M mx my
             (boundaries w h (basic_motion (scroll_interaction ss p))) in
  let p' := fst (update M w h mx my ss p n) in
  let dvx := vx r * 0.98 in
  let dvy := vy r * 0.98 in
  let n1 := if Math_abs dvx <? 0.2 then S n else n in
  vx (damping r) = dvx /\ vy (damping r) = dvy
  /\ update M w h mx my ss p n = min_speed M (damping r) n
  /\ vx p' = (if Math_abs dvx <? 0.2 then dvx + (Math_random M n - 0.5) * 0.1 else dvx)
  /\ vy p' = (if Math_abs dvy <? 0.2 then dvy + (Math_random M n1 - 0.5) * 0.1 else dvy)
  /\ snd (update M w h mx my ss p n) = (if Math_abs dvy <? 0.2 then S n1 else n1)
  /\ (forall k, (0 <=? Math_random M k) = true -> (Math_random M k <? 1) = true ->
        (-0.05 <=? (Math_random M k - 0.5) * 0.1) = true
        /\ ((Math_random M k - 0.5) * 0.1 <? 0.05) = true).
Proof.
  intros r p' dvx dvy n1.
  destruct (damping_spec r) as [Dx Dy].
  pose proof (min_speed_spec M (damping r) n) as H.
  unfold nudged in H. rewrite Dx, Dy in H. fold dvx dvy in H.
  change (update M w h mx my ss p n) with (min_speed M (damping r) n) in *.
  unfold p', n1.
  split; [exact Dx|]. split; [exact Dy|]. split; [reflexivity|].
  split; [|split; [|split]].
  - destruct (Math_abs dvx <? 0.2), (Math_abs dvy <? 0.2); apply H.
  - destruct (Math_abs dvx <? 0.2), (Math_abs dvy <? 0.2); apply H.
  - destruct (Math_abs dvx <? 0.2), (Math_abs dvy <? 0.2); apply H.
  - intros k. apply nudge_bounds.
Qed.

Lemma damping_then_min_speed_witness :
  let u := Math_random Toy.Math 3%nat in
  u = 0.54159873723983765
  /\ (-0.05 <=? (u - 0.5) * 0.1) = true /\ ((u - 0.5) * 0.1 <? 0.05) = true.
Proof.
  intros u. split; [vm_compute; reflexivity|].
  apply (proj2 (proj2 (proj2 (proj2 (proj2 (proj2
           (damping_then_min_speed Toy.Math 1280 720 None None 0 Toy.particle 0%nat)))))) 3%nat);
    reflexivity.
Defined.

(** ** The decay of the scroll speed *)

Lemma animate_scrollSpeed M now W :
  scrollSpeed (fst (animate M now W)) = scrollSpeed W * 0.9.
Proof. unfold animate. destruct (update_all M W (particles W) (draws W)). reflexivity. Qed.

Lemma step_scrollSpeed M W e :
  is_scroll e = false ->
  scrollSpeed (fst (step M W e)) = scrollSpeed W
  \/ scrollSpeed (fst (step M W e)) = scrollSpeed W * 0.9.
Proof.
  destruct e; intros He; try discriminate He; cbn [step fst].
  - left; reflexivity.
  - left; reflexivity.
  - left. unfold resize, initParticles. cbn [width height draws].
    destruct (initParticles_loop _ _ _ _ _ _ _). reflexivity.
  - right. apply animate_scrollSpeed.
Qed.

Lemma abs_notnan x : is_nan (abs x) = false -> is_nan x = false.
Proof.
  rewrite !F64.is_nan_spec, abs_spec. destruct (Prim2SF x); simpl; congruence.
Qed.

Lemma run_scrollSpeed M es :
  forall W, forallb (fun e => negb (is_scroll e)) es = true ->
  is_nan (scrollSpeed W) = false ->
  (abs (scrollSpeed (run M W es)) <=? abs (scrollSpeed W)) = true.
Proof.
  induction es as [|e es IH]; intros W H N.
  - cbn [run]. apply F64.leb_refl.
    apply (F64.leb_notnan _ _ (abs_nonneg _ N)).
  - cbn [forallb run] in *. apply andb_prop in H. destruct H as [He Hes].
    assert (He' : is_scroll e = false) by (now destruct (is_scroll e)).
    assert (S1 : (abs (scrollSpeed (fst (step M W e))) <=? abs (scrollSpeed W)) = true).
    { destruct (step_scrollSpeed M W e He') as [->| ->].
      - apply F64.leb_refl. apply (F64.leb_notnan _ _ (abs_nonneg _ N)).
      - now apply decay_le. }
    apply (F64.leb_trans _ _ _ (IH _ Hes (abs_notnan _ (proj1 (F64.leb_notnan _ _ S1)))) S1).
Qed.

(** C4, as it stands, fails: a scroll speed of zero, which is the value the
    script starts with, is still zero after a frame; and near the bottom of
    the binary64 range the product rounds back to the speed itself. *)
Lemma scroll_speed_may_not_decrease :
  let W := init Toy.Math 1280 720 0 in
  let W' := fst (animate Toy.Math (fun _ => 1000) W) in
  scrollSpeed W = 0 /\ scrollSpeed W' = 0
  /\ (Math_abs (scrollSpeed W') <? Math_abs (scrollSpeed W)) = false
  /\ 0x1p-1074 * 0.9 = 0x1p-1074.
Proof.
  cbv zeta. rewrite animate_scrollSpeed.
  repeat split; reflexivity.
Qed.

(** C4, amended: a frame replaces the scroll speed by its binary64 product
    with 0.9.  The magnitude never increases, over one frame and over any
    sequence of events without a scroll event; it decreases strictly as long
    as it is a normal number (at least 2^-1022, and finite); a zero speed
    stays zero. *)
Theorem scroll_speed_decays M now W :
  let s := scrollSpeed W in
  let s' := scrollSpeed (fst (animate M now W)) in
  s' = s * 0.9
  /\ (is_nan s = false -> (Math_abs s' <=? Math_abs s) = true)
  /\ ((0x1p-1022 <=? Math_abs s) = true -> (Math_abs s <? infinity) = true ->
      (Math_abs s' <? Math_abs s) = true)
  /\ ((s =? 0) = true -> (s' =? 0) = true)
  /\ (forall es, forallb (fun e => negb (is_scroll e)) es = true ->
      is_nan s = false ->
      (Math_abs (scrollSpeed (run M W es)) <=? Math_abs s) = true).
Proof.
  intros s s'. unfold s'. rewrite animate_scrollSpeed. fold s.
  split; [reflexivity|]. split; [apply decay_le|]. split; [apply decay_lt|].
  split.
  - rewrite !eqb_spec, mul_spec.
    change (Prim2SF 0) with (S754_zero false).
    change (Prim2SF 0.9) with (S754_finite false 8106479329266893 (-53)).
    unfold SFeqb, SF64mul.
    destruct (Prim2SF s) as [[]|[]| |[] ? ?]; cbn [SFcompare SFmul xorb];
      intros H; try discriminate H; reflexivity.
  - intros es. apply run_scrollSpeed.
Qed.

Lemma scroll_speed_decays_witness :
  let W := on_scroll 120 (init Toy.Math 1280 720 0) in
  let W' := fst (animate Toy.Math (fun _ => 1000) W) in
  scrollSpeed W = 120 /\ scrollSpeed W' = 108
  /\ (Math_abs (scrollSpeed W') <? Math_abs (scrollSpeed W)) = true.
Proof.
  intros W W'.
  destruct (scroll_speed_decays Toy.Math (fun _ => 1000) W) as (E & _ & L & _).
  fold W' in E, L. split; [reflexivity|]. split; [rewrite E; reflexivity|].
  apply L; reflexivity.
Defined.

(** * Properties of a whole run

    What the script keeps true from its start through any sequence of
    events, and what its parts do at the edges of their domains. *)

(** ** Bounds and draws *)

Lemma within_spec lo hi v :
  within lo hi v = true <-> (lo <=? v) = true /\ (v <=? hi) = true.
Proof. unfold within. apply andb_true_iff. Qed.

Lemma dimension_spec w :
  dimension w = true -> finite w /\ (0 <=? w) = true.
Proof.
  unfold dimension. intros H. apply andb_prop in H. destruct H as [H0 H1].
  split; [|exact H0].
  unfold finite. rewrite leb_spec in H0. rewrite ltb_spec in H1.
  change (Prim2SF 0) with (S754_zero false) in H0.
  change (Prim2SF infinity) with (S754_infinity false) in H1.
  pose proof (Prim2SF_valid w) as V.
  destruct (Prim2SF w) as [[]|[]| |[] m e]; simpl in *; auto; discriminate.
Qed.

Lemma unit_draw_finite M k :
  unit_draws M -> finite (Math_random M k) /\ (Math_random M k <=? 1) = true.
Proof.
  intros H. destruct (H k) as [H0 H1]. pose proof (F64.ltb_leb _ _ H1) as H2.
  split; [|exact H2]. apply (finite_between 0 _ 1); auto using finite_0; finite_lit.
Qed.

(** A draw scaled by a dimension stays between 0 and the dimension. *)
Lemma scaled_draw M k w :
  unit_draws M -> dimension w = true -> within 0 w (Math_random M k * w) = true.
Proof.
  intros HM Hw. destruct (dimension_spec w Hw) as [Fw W0].
  destruct (unit_draw_finite M k HM) as [Fu U1]. destruct (HM k) as [U0 _].
  apply within_spec. split.
  - apply mul_nonneg; auto.
  - apply mul_le_self; auto.
Qed.

Lemma new_position M w h n :
  x (fst (new M w h n)) = Math_random M (n + 16) * w
  /\ y (fst (new M w h n)) = Math_random M (n + 17) * h.
Proof.
  unfold new, reset; fields.
  replace (n + 16 + 1)%nat with (n + 17)%nat by lia. split; reflexivity.
Qed.

Lemma finite_notnan x : finite x -> is_nan x = false.
Proof.
  intros F. apply F64.is_nan_spec. unfold finite in F.
  destruct (Prim2SF x); simpl in *; congruence.
Qed.

Lemma opp_leb a b : (a <=? b) = true -> (- b <=? - a) = true.
Proof. rewrite !leb_spec, !opp_spec. apply SFleb_opp. Qed.

Lemma finite_abs_inv x : finite (abs x) -> finite x.
Proof.
  unfold finite. rewrite abs_spec.
  destruct (Prim2SF x) as [[]|[]| |[] ? ?]; simpl; auto.
Qed.

Lemma leb_antisym_eqb x y : (x <=? y) = true -> (y <=? x) = true -> (x =? y) = true.
Proof.
  rewrite !leb_spec, eqb_spec. unfold SFleb, SFeqb.
  rewrite (F64.SFcompare_swap (Prim2SF x) (Prim2SF y)).
  destruct (SFcompare (Prim2SF x) (Prim2SF y)) as [[]|]; simpl; congruence.
Qed.

Lemma eqb_leb x y : (x =? y) = true -> (x <=? y) = true /\ (y <=? x) = true.
Proof.
  rewrite !leb_spec, eqb_spec. unfold SFleb, SFeqb.
  rewrite (F64.SFcompare_swap (Prim2SF x) (Prim2SF y)).
  destruct (SFcompare (Prim2SF x) (Prim2SF y)) as [[]|]; simpl; split; congruence.
Qed.

(** A product with a factor of magnitude at most 1 is finite. *)
Lemma finite_mul_small a c :
  finite a -> (abs c <=? 1) = true -> finite (a * c).
Proof.
  intros Fa Hc.
  assert (Fc' : finite (abs c)).
  { apply (finite_between 0 _ 1); auto using finite_0; try finite_lit.
    apply abs_nonneg. apply abs_notnan. exact (proj1 (F64.leb_notnan _ _ Hc)). }
  assert (Fc : finite c) by now apply finite_abs_inv.
  apply finite_abs_inv. rewrite abs_mul by assumption.
  apply (finite_between 0 _ (abs a)); auto using finite_0, finite_abs.
  - apply mul_nonneg; auto using finite_abs.
    + apply abs_nonneg. now apply finite_notnan.
    + apply abs_nonneg. apply abs_notnan. exact (proj1 (F64.leb_notnan _ _ Hc)).
  - rewrite F64.mul_comm. apply mul_le_self; auto using finite_abs.
    apply abs_nonneg. now apply finite_notnan.
Qed.

(** ** The stand-in hosts *)

Lemma of_nat_Rounds z :
  (0 <= z < 2 ^ 63)%Z ->
  Rounds (IZR z) (Prim2SF (PrimFloat.of_uint63 (Uint63.of_Z z))).
Proof.
  intros Hz. rewrite of_uint63_spec, Uint63.of_Z_spec.
  rewrite Z.mod_small by (change Uint63.wB with (2 ^ 63)%Z; lia).
  replace (IZR z) with (IZR z * bpow 0)%R by (rewrite bpow_0; ring).
  apply binary_normalize_Rounds.
Qed.

Lemma Toy_random_unit : forall k,
  (0 <=? Math_random Toy.Math k) = true /\ (Math_random Toy.Math k <? 1) = true.
Proof.
  intros k. cbn [Math_random Toy.Math]. unfold Toy.random.
  set (z := ((1103515245 * Z.of_nat k + 12345) mod 2147483648)%Z).
  assert (Hz : (0 <= z < 2147483648)%Z) by (apply Z.mod_pos_bound; lia).
  pose proof (of_nat_Rounds z ltac:(lia)) as Ra.
  pose proof (of_nat_Rounds 0 ltac:(lia)) as R0.
  pose proof (of_nat_Rounds 2147483647 ltac:(lia)) as R1.
  set (a := PrimFloat.of_uint63 (Uint63.of_Z z)) in *.
  change (PrimFloat.of_uint63 (Uint63.of_Z 0)) with 0 in R0.
  change (PrimFloat.of_uint63 (Uint63.of_Z 2147483647)) with 2147483647 in R1.
  assert (L0 : (0 <=? a) = true).
  { apply (Rounds_leb _ _ _ _ R0 Ra). apply IZR_le. lia. }
  assert (L1 : (a <=? 2147483647) = true).
  { apply (Rounds_leb _ _ _ _ Ra R1). apply IZR_le. lia. }
  assert (Fa : finite a) by (apply (finite_between 0 a 2147483647); auto using finite_0; finite_lit).
  split.
  - apply (div_mono 0 a 2147483648); auto using finite_0; try finite_lit.
  - apply (F64.leb_ltb_trans _ (2147483647 / 2147483648)); [|reflexivity].
    apply (div_mono a 2147483647 2147483648); auto; try finite_lit. 
Qed.

Lemma clamp_range v : within (-1) 1 (Clamped.clamp v) = true.
Proof.
  unfold Clamped.clamp.
  destruct (v <? -1) eqn:E1; [reflexivity|].
  destruct (1 <? v) eqn:E2; [reflexivity|].
  destruct (is_nan v) eqn:E3; [reflexivity|].
  apply within_spec. split; apply F64.nltb_leb; auto.
Qed.

Lemma Clamped_bounded_waves : bounded_waves Clamped.Math.
Proof.
  intros a Ha. cbn [Math_sin Math_cos Clamped.Math]. unfold Clamped.wave.
  rewrite Ha. split; apply clamp_range.
Qed.

Lemma Clamped_regular_angles : regular_angles Clamped.Math.
Proof.
  intros b a Nb Na. cbn [Math_atan2 Clamped.Math]. unfold Clamped.atan2.
  rewrite Nb, Na. cbn [orb].
  destruct (regular (Toy.atan2 b a)) eqn:E; [exact E | reflexivity].
Qed.

Lemma Clamped_sound_trig : sound_trig Clamped.Math.
Proof. split; [apply Clamped_bounded_waves | apply Clamped_regular_angles]. Qed.

Lemma Clamped_unit_draws : unit_draws Clamped.Math.
Proof. exact Toy_random_unit. Qed.

(** ** The particles a resize creates *)

(** [Math_floor] is the floor of the value. *)
Lemma Math_floor_spec v :
  finite v -> exists n, Math_floor v = Some n /\ (IZR n <= B2R v < IZR n + 1)%R.
Proof.
  unfold finite, Math_floor, B2R.
  destruct (Prim2SF v) as [s|s| |s m e]; try contradiction; intros _.
  - exists 0%Z. split; [reflexivity|]. simpl. lra.
  - set (n := if s then Z.neg m else Z.pos m).
    assert (V : SF2R (S754_finite s m e) = (IZR n * bpow e)%R).
    { unfold n. destruct s; cbn [SF2R]; [|reflexivity].
      change (Z.neg m) with (- Z.pos m)%Z. now rewrite opp_IZR. }
    rewrite V. destruct e as [|k|k].
    + exists (n * 2 ^ 0)%Z. split; [reflexivity|].
      rewrite bpow_0. replace (n * 2 ^ 0)%Z with n by lia. lra.
    + exists (n * 2 ^ Z.pos k)%Z. split; [reflexivity|].
      rewrite mult_IZR, <- (bpow_IZR (Z.pos k)) by lia. lra.
    + exists (n / Z.pow_pos 2 k)%Z. split; [reflexivity|].
      change (Z.pow_pos 2 k) with (2 ^ Z.pos k)%Z.
      change (Z.neg k) with (Z.opp (Z.pos k)).
      rewrite bpow_opp, (bpow_IZR (Z.pos k)) by lia.
      assert (P : (0 < 2 ^ Z.pos k)%Z) by (apply Z.pow_pos_nonneg; lia).
      pose proof (Z.div_mod n (2 ^ Z.pos k) ltac:(lia)) as D.
      pose proof (Z.mod_pos_bound n (2 ^ Z.pos k) P) as B.
      set (d := (2 ^ Z.pos k)%Z) in *. set (q := (n / d)%Z) in *.
      set (r := (n mod d)%Z) in *.
      assert (Pd : (0 < IZR d)%R) by (apply IZR_lt; lia).
      assert (En : IZR n = (IZR d * IZR q + IZR r)%R)
        by (rewrite D, plus_IZR, mult_IZR; reflexivity).
      assert (Br : (0 <= IZR r < IZR d)%R)
        by (split; [apply IZR_le | apply IZR_lt]; lia).
      rewrite En.
      replace ((IZR d * IZR q + IZR r) * / IZR d)%R with (IZR q + IZR r / IZR d)%R
        by (field; lra).
      assert (0 <= IZR r / IZR d < 1)%R.
      { split.
        - apply Rmult_le_pos; [lra | left; now apply Rinv_0_lt_compat].
        - apply (Rmult_lt_reg_r (IZR d)); [exact Pd|].
          unfold Rdiv. rewrite Rmult_assoc, Rinv_l by lra. lra. }
      lra.
Qed.

Lemma B2R_5 : B2R 5 = 5%R.
Proof.
  unfold B2R. change (Prim2SF 5) with (S754_finite false 5629499534213120 (-50)).
  cbn [SF2R]. change (-50)%Z with (Z.opp 50).
  rewrite (bpow_opp 50), (bpow_IZR 50) by lia.
  change (2 ^ 50)%Z with 1125899906842624%Z. 
  replace (IZR 5629499534213120) with (5 * IZR 1125899906842624)%R
    by (rewrite <- mult_IZR; reflexivity).
  field.
Qed.

(** The colour index [Math.floor(Math.random() * colors.length)] is one of
    0, ..., 4. *)
Lemma color_index u :
  (0 <=? u) = true -> (u <? 1) = true ->
  exists k, (k < 5)%nat /\ Math_floor (u * num (List.length colors)) = Some (Z.of_nat k).
Proof.
  intros H0 H1. change (num (List.length colors)) with 5.
  pose proof (below_one u H1) as Hp.
  assert (Fp : finite 0x1.fffffffffffffp-1) by finite_lit.
  assert (F5 : finite 5) by finite_lit.
  assert (Fu : finite u) by (apply (finite_between 0 u 0x1.fffffffffffffp-1); auto using finite_0).
  assert (L : (0 <=? u * 5) = true) by (apply mul_nonneg; auto).
  assert (U : (u * 5 <=? 0x1.fffffffffffffp-1 * 5) = true) by (apply mul_mono_r; auto).
  assert (Fv : finite (u * 5)).
  { apply (finite_between 0 _ (0x1.fffffffffffffp-1 * 5)); auto using finite_0; finite_lit. }
  destruct (Math_floor_spec _ Fv) as (n & E & B1 & B2).
  apply leb_B2R in L; auto using finite_0. rewrite B2R_0 in L.
  assert (U' : (u * 5 <? 5) = true) by (apply (F64.leb_ltb_trans _ _ _ U); reflexivity).
  apply ltb_B2R in U'; auto. rewrite B2R_5 in U'.
  assert (N0 : (-1 < n)%Z) by (apply lt_IZR; lra).
  assert (N5 : (n < 5)%Z) by (apply lt_IZR; lra).
  exists (Z.to_nat n). split; [lia|]. rewrite E. f_equal. lia.
Qed.

Lemma new_color M w h n :
  color (fst (new M w h n))
  = colors_at (Math_floor (Math_random M (n + 5) * num (List.length colors))).
Proof. reflexivity. Qed.

Lemma new_color_in_palette M w h n :
  unit_draws M -> exists c, color (fst (new M w h n)) = Some c /\ In c colors.
Proof.
  intros HM. rewrite new_color. destruct (HM (n + 5)%nat) as [H0 H1].
  destruct (color_index _ H0 H1) as (k & Hk & ->).
  do 5 (destruct k as [|k]; [cbn; eexists; split; [reflexivity|]; cbn; tauto|]).
  lia.
Qed.

Ltac unit_draw HM k :=
  let F := fresh "Fu" in let U0 := fresh "U0" in let U1 := fresh "U1" in
  destruct (unit_draw_finite _ k HM) as [F U1]; pose proof (proj1 (HM k)) as U0.

(** [(u - 0.5) * c] for a draw [u] and a non-negative constant [c]. *)
Lemma centred_draw M k c :
  unit_draws M -> finite c -> (0 <=? c) = true ->
  within (-0.5 * c) (0.5 * c) ((Math_random M k - 0.5) * c) = true.
Proof.
  intros HM Fc Hc. unit_draw HM k.
  assert (Fh : finite 0.5) by finite_lit.
  assert (F1 : finite 1) by finite_lit.
  assert (L : (-0.5 <=? Math_random M k - 0.5) = true).
  { apply (sub_mono 0 _ 0.5 0.5); auto using finite_0. }
  assert (U : (Math_random M k - 0.5 <=? 0.5) = true).
  { apply (sub_mono _ 1 0.5 0.5); auto. }
  assert (Fd : finite (Math_random M k - 0.5)).
  { apply (finite_between (-0.5) _ 0.5); auto; finite_lit. }
  apply within_spec. split; apply mul_mono_r; auto; finite_lit.
Qed.

Lemma new_velocity M w h n :
  unit_draws M ->
  within (-0.4) 0.4 (vx (fst (new M w h n))) = true
  /\ within (-0.4) 0.4 (vy (fst (new M w h n))) = true.
Proof.
  intros HM. unfold new, reset; fields. change config.moveSpeed with 0.8.
  split; apply (centred_draw M _ 0.8 HM); try reflexivity; finite_lit.
Qed.

Lemma new_spin M w h n :
  unit_draws M -> within (-0.0025) 0.0025 (spin (fst (new M w h n))) = true.
Proof.
  intros HM. unfold new, reset; fields.
  apply (centred_draw M _ 0.005 HM); try reflexivity; finite_lit.
Qed.

Lemma new_size M w h n :
  unit_draws M ->
  targetSize (fst (new M w h n)) = radius (fst (new M w h n))
  /\ within 400 600 (radius (fst (new M w h n))) = true.
Proof.
  intros HM. unfold new, reset; fields. split; [reflexivity|].
  change config.baseSize with 400. unit_draw HM (n + 4)%nat.
  assert (F2 : finite 200) by finite_lit.
  assert (F4 : finite 400) by finite_lit.
  assert (L : (0 <=? Math_random M (n + 4) * 200) = true) by (apply mul_nonneg; auto).
  assert (U : (Math_random M (n + 4) * 200 <=? 200) = true).
  { apply (mul_mono_r _ 1 200); auto; finite_lit. }
  assert (Fv : finite (Math_random M (n + 4) * 200)).
  { apply (finite_between 0 _ 200); auto using finite_0. }
  apply within_spec. split.
  - apply (add_mono 400 400 0 _); auto using finite_0.
  - apply (add_mono 400 400 _ 200); auto.
Qed.

(** A draw turned into a phase: [u * pi * 2] and [u * 2 * pi] lie between 0
    and [2 * pi]. *)
Lemma phase_draw M k :
  unit_draws M ->
  within 0 (2 * Math_PI) (Math_random M k * Math_PI * 2) = true
  /\ within 0 (2 * Math_PI) (Math_random M k * 2 * Math_PI) = true.
Proof.
  intros HM. unit_draw HM k.
  assert (F1 : finite 1) by finite_lit.
  assert (F2 : finite 2) by finite_lit.
  assert (Fp : finite Math_PI) by finite_lit.
  assert (A0 : (0 <=? Math_random M k * Math_PI) = true) by (apply mul_nonneg; auto).
  assert (A1 : (Math_random M k * Math_PI <=? Math_PI) = true).
  { apply (mul_mono_r _ 1 Math_PI); auto. }
  assert (FA : finite (Math_random M k * Math_PI)).
  { apply (finite_between 0 _ Math_PI); auto using finite_0. }
  assert (B0 : (0 <=? Math_random M k * 2) = true) by (apply mul_nonneg; auto).
  assert (B1 : (Math_random M k * 2 <=? 2) = true).
  { apply (mul_mono_r _ 1 2); auto. }
  assert (FB : finite (Math_random M k * 2)).
  { apply (finite_between 0 _ 2); auto using finite_0. }
  split; apply within_spec; split.
  - apply mul_nonneg; auto.
  - apply (mul_mono_r _ Math_PI 2); auto.
  - apply mul_nonneg; auto.
  - apply (mul_mono_r _ 2 Math_PI); auto.
Qed.

Lemma new_angle M w h n :
  unit_draws M -> within 0 (2 * Math_PI) (angle (fst (new M w h n))) = true.
Proof. intros HM. unfold new, reset; fields. apply (phase_draw M _ HM). Qed.

Lemma fresh_offsets_spec M k :
  unit_draws M -> forall n,
  List.length (fresh_offsets M k n) = k
  /\ Forall (fun o => within 0 (2 * Math_PI) o = true) (fresh_offsets M k n).
Proof.
  intros HM. induction k as [|k IH]; intros n; cbn [fresh_offsets].
  - split; [reflexivity | constructor].
  - destruct (IH (S n)) as [L F]. split; [cbn [List.length]; now rewrite L|].
    constructor; [apply (phase_draw M _ HM) | exact F].
Qed.

Lemma new_offsets M w h n :
  unit_draws M ->
  List.length (offsets (fst (new M w h n))) = 8%nat
  /\ Forall (fun o => within 0 (2 * Math_PI) o = true) (offsets (fst (new M w h n))).
Proof. intros HM. unfold new, reset; fields. apply (fresh_offsets_spec M 8 HM). Qed.

(** *** From creation to every state of a run *)

Lemma fixed_fields_Forall (P : Particle.t -> Prop) ps :
  (forall p q, fixed_fields q = fixed_fields p -> P p -> P q) ->
  forall qs, map fixed_fields qs = map fixed_fields ps -> Forall P ps -> Forall P qs.
Proof.
  intros HP. induction ps as [|p ps IH]; intros [|q qs] E H; try discriminate E;
    [constructor|].
  cbn [map] in E. injection E as E1 E2.
  apply Forall_cons_iff in H. destruct H as [Hp Hps].
  constructor; [|now apply IH].
  apply (HP p q); [|exact Hp]. unfold fixed_fields. congruence.
Qed.

(** A property of the fields that [update()] leaves alone, once true of
    every created particle, holds of the whole field in every state. *)
Lemma run_created (P : Particle.t -> Prop) M :
  (forall w h n, P (fst (new M w h n))) ->
  (forall p q, fixed_fields q = fixed_fields p -> P p -> P q) ->
  forall es W, Forall P (particles W) -> Forall P (particles (run M W es)).
Proof.
  intros Hnew HP. induction es as [|e es IH]; intros W H; [exact H|].
  cbn [run]. apply IH.
  destruct (is_resize e) eqn:R.
  - destruct e; try discriminate R. cbn [step fst].
    rewrite (proj1 (resize_particles M innerWidth innerHeight W)).
    apply Forall_forall. intros p Hp. apply in_map_iff in Hp.
    destruct Hp as (k & <- & _). apply Hnew.
  - apply (fixed_fields_Forall P (particles W)); auto.
    now apply step_fixed_fields.
Qed.

Lemma init_created (P : Particle.t -> Prop) M iw ih sy :
  (forall w h n, P (fst (new M w h n))) -> Forall P (particles (init M iw ih sy)).
Proof.
  intros Hnew. unfold init.
  rewrite (proj1 (resize_particles M iw ih _)).
  apply Forall_forall. intros p Hp. apply in_map_iff in Hp.
  destruct Hp as (k & <- & _). apply Hnew.
Qed.

Lemma resize_size M iw ih W :
  width (resize M iw ih W) = iw /\ height (resize M iw ih W) = ih.
Proof.
  unfold resize, initParticles. cbn [width height draws].
  destruct (initParticles_loop _ _ _ _ _ _ _). split; reflexivity.
Qed.

(** X1: a resize (and so the start of the script) puts every particle inside
    the new viewport: [0 <= x <= width] and [0 <= y <= height].  The
    position is the one drawn by the constructor after [reset()], from the
    last two of the particle's eighteen draws. *)
Theorem resize_places_field_in_viewport M iw ih W :
  let W' := resize M iw ih W in
  unit_draws M -> dimension iw = true -> dimension ih = true ->
  width W' = iw /\ height W' = ih
  /\ Forall (fun p => within 0 iw (x p) = true /\ within 0 ih (y p) = true) (particles W')
  /\ (forall k, (k < 12)%nat ->
      exists p, nth_error (particles W') k = Some p
                /\ x p = Math_random M (draws W + 18 * k + 16) * iw
                /\ y p = Math_random M (draws W + 18 * k + 17) * ih).
Proof.
  intros W' HM Hw Hh. destruct (resize_size M iw ih W) as [Ew Eh].
  destruct (resize_particles M iw ih W) as [HP _]. fold W' in Ew, Eh, HP.
  split; [exact Ew|]. split; [exact Eh|]. split.
  - rewrite HP. apply Forall_forall. intros p Hp. apply in_map_iff in Hp.
    destruct Hp as (k & <- & _). destruct (new_position M iw ih (draws W + 18 * k)) as [-> ->].
    split; now apply scaled_draw.
  - intros k Hk. rewrite HP. exists (fst (new M iw ih (draws W + 18 * k))).
    split; [|apply new_position].
    rewrite nth_error_map, nth_error_seq.
    change config.particleCount with 12%nat.
    replace (Nat.ltb k 12) with true by (symmetry; apply Nat.ltb_lt; exact Hk).
    reflexivity.
Qed.

Lemma resize_places_field_in_viewport_witness :
  Forall (fun p => within 0 800 (x p) = true /\ within 0 600 (y p) = true)
         (particles (resize Toy.Math 800 600 (init Toy.Math 1280 720 0))).
Proof.
  apply (resize_places_field_in_viewport Toy.Math 800 600 (init Toy.Math 1280 720 0)
           Toy_random_unit eq_refl eq_refl).
Defined.

(** X2: every particle a resize creates starts with both velocity components
    between -0.4 and 0.4 (half of [moveSpeed]) and with an angle between 0
    and [2 * pi]. *)
Theorem resize_gives_bounded_velocity M iw ih W :
  unit_draws M ->
  Forall (fun p => within (-0.4) 0.4 (vx p) = true /\ within (-0.4) 0.4 (vy p) = true
                   /\ within 0 (2 * Math_PI) (angle p) = true)
         (particles (resize M iw ih W)).
Proof.
  intros HM. rewrite (proj1 (resize_particles M iw ih W)).
  apply Forall_forall. intros p Hp. apply in_map_iff in Hp.
  destruct Hp as (k & <- & _).
  destruct (new_velocity M iw ih (draws W + 18 * k) HM) as [Vx Vy].
  split; [exact Vx|]. split; [exact Vy|]. now apply new_angle.
Qed.

Lemma resize_gives_bounded_velocity_witness :
  Forall (fun p => within (-0.4) 0.4 (vx p) = true /\ within (-0.4) 0.4 (vy p) = true
                   /\ within 0 (2 * Math_PI) (angle p) = true)
         (particles (init Toy.Math 1280 720 0)).
Proof.
  apply (resize_gives_bounded_velocity Toy.Math 1280 720 _ Toy_random_unit).
Defined.

(** X3: in every state the script reaches, every particle has a radius
    between 400 and 600 ([baseSize] to [baseSize + 200]), equal to its
    [targetSize]. *)
Theorem radius_stays_in_range M iw ih sy es :
  unit_draws M ->
  Forall (fun p => targetSize p = radius p /\ within 400 600 (radius p) = true)
         (particles (run M (init M iw ih sy) es)).
Proof.
  intros HM.
  apply run_created; [| |apply init_created]; try (intros; now apply new_size).
  intros p q E [H1 H2]. unfold fixed_fields in E.
  injection E as Et Er _ _ _. rewrite Et, Er. split; assumption.
Qed.

Lemma radius_stays_in_range_witness :
  Forall (fun p => targetSize p = radius p /\ within 400 600 (radius p) = true)
         (particles (run Toy.Math (init Toy.Math 1280 720 0)
                       [ev_mousemove 300 250; ev_frame (fun _ => 1000); ev_scroll 40;
                        ev_resize 800 600; ev_frame (fun _ => 1016)])).
Proof. apply (radius_stays_in_range Toy.Math 1280 720 0 _ Toy_random_unit). Defined.

(** *** The colour *)

Lemma draw_loop_calls M p time fuel :
  forall i c, In c (draw_loop M p time fuel i) ->
  exists a b, c = moveTo a b \/ c = lineTo a b.
Proof.
  induction fuel as [|fuel IH]; intros i c H; [contradiction|].
  cbn [draw_loop] in H. destruct (Nat.leb i 10); [|contradiction].
  destruct (vertex M p time i) as [px py]. destruct H as [<-|H]; [|eauto].
  destruct (Nat.eqb i 0); eauto.
Qed.

Lemma draw_fillStyle M p now c : In (fillStyle c) (draw M p now) -> c = color p.
Proof.
  unfold draw. intros H.
  repeat (apply in_app_or in H; destruct H as [H|H]).
  - cbn [In] in H. intuition discriminate.
  - apply draw_loop_calls in H. destruct H as (a & b & [H|H]); discriminate.
  - cbn [In] in H. intuition (try discriminate). congruence.
Qed.

Lemma draw_all_In M now ps :
  forall i c, In c (draw_all M now i ps) ->
  exists p k, In p ps /\ In c (draw M p (now k)).
Proof.
  induction ps as [|p ps IH]; intros i c H; [contradiction|].
  cbn [draw_all] in H. apply in_app_or in H. destruct H as [H|H].
  - exists p, i. split; [left; reflexivity | exact H].
  - destruct (IH _ _ H) as (q & k & Hq & Hc). exists q, k. split; [right|]; assumption.
Qed.

Lemma animate_calls M now W :
  snd (animate M now W)
  = clearRect 0 0 (width W) (height W)
      :: draw_all M now 0 (particles (fst (animate M now W))).
Proof. unfold animate. destruct (update_all M W (particles W) (draws W)). reflexivity. Qed.

Lemma run_snoc M es : forall W e, run M W (es ++ [e]) = fst (step M (run M W es) e).
Proof. induction es as [|e' es IH]; intros W e; cbn [run app]; [reflexivity | apply IH]. Qed.

(** X4: in every state the script reaches, the colour of every particle is
    one of the five strings of the palette, never [undefined]; so every
    [fillStyle] a frame assigns is a colour of the palette. *)
Theorem color_is_from_palette M iw ih sy es :
  let W := run M (init M iw ih sy) es in
  unit_draws M ->
  Forall (fun p => exists c, color p = Some c /\ In c colors) (particles W)
  /\ (forall now c, In (fillStyle c) (snd (animate M now W)) ->
        exists s, c = Some s /\ In s colors).
Proof.
  intros W HM.
  assert (A : forall es', Forall (fun p => exists c, color p = Some c /\ In c colors)
                            (particles (run M (init M iw ih sy) es'))).
  { intros es'. apply run_created; [| |apply init_created];
      try (intros; now apply new_color_in_palette).
    intros p q E H. unfold fixed_fields in E. injection E as _ _ Ec _ _.
    now rewrite Ec. }
  split; [apply A|].
  intros now c H. rewrite animate_calls in H. destruct H as [H|H]; [discriminate|].
  destruct (draw_all_In _ _ _ _ _ H) as (p & k & Hp & Hc).
  apply draw_fillStyle in Hc. subst c.
  pose proof (A (es ++ [ev_frame now])) as F. rewrite run_snoc in F. cbn [step] in F.
  rewrite Forall_forall in F. apply F. exact Hp.
Qed.

Lemma color_is_from_palette_witness :
  Forall (fun p => exists c, color p = Some c /\ In c colors)
         (particles (run Toy.Math (init Toy.Math 1280 720 0)
                       [ev_frame (fun _ => 1000); ev_resize 800 600; ev_frame (fun _ => 1016)])).
Proof.
  apply (proj1 (color_is_from_palette Toy.Math 1280 720 0 _ Toy_random_unit)).
Defined.

(** *** Spin and morph phases *)

Lemma update_angle M w h mx my ss p n :
  angle (fst (update M w h mx my ss p n)) = angle p + spin p.
Proof.
  destruct p as [x0 y0 vx0 vy0 ts r c a s os].
  unfold update, min_speed, damping, mouse_interaction, boundaries, basic_motion,
    scroll_interaction; fields.
  destruct (repel_force _ _ _ _) as [[fx fy]|]; fields; split_ifs; reflexivity.
Qed.

(** X5: [update()] turns a particle by its spin and by nothing else, whatever
    the pointer and the scroll speed are; and in every state the script
    reaches the spin of every particle lies between -0.0025 and 0.0025. *)
Theorem frame_turns_by_bounded_spin M iw ih sy es :
  unit_draws M ->
  (forall w h mx my ss p n, angle (fst (update M w h mx my ss p n)) = angle p + spin p)
  /\ Forall (fun p => within (-0.0025) 0.0025 (spin p) = true)
            (particles (run M (init M iw ih sy) es)).
Proof.
  intros HM. split; [apply update_angle|].
  apply run_created; [| |apply init_created]; try (intros; now apply new_spin).
  intros p q E H. unfold fixed_fields in E. injection E as _ _ _ Es _. now rewrite Es.
Qed.

Lemma frame_turns_by_bounded_spin_witness :
  Forall (fun p => within (-0.0025) 0.0025 (spin p) = true)
         (particles (run Toy.Math (init Toy.Math 1280 720 0)
                       [ev_frame (fun _ => 1000); ev_resize 800 600; ev_frame (fun _ => 1016)])).
Proof.
  apply (proj2 (frame_turns_by_bounded_spin Toy.Math 1280 720 0 _ Toy_random_unit)).
Defined.

(** X6: in every state the script reaches, every particle carries exactly
    eight morph phases, each between 0 and [2 * pi]; so the lookup
    [offsets[i % 8]] of [draw()] always finds a phase, for every [i]. *)
Theorem morph_phases_are_defined M iw ih sy es :
  unit_draws M ->
  Forall (fun p => List.length (offsets p) = 8%nat
                   /\ Forall (fun o => within 0 (2 * Math_PI) o = true) (offsets p)
                   /\ forall i, In (nth (i mod 8) (offsets p) nan) (offsets p))
         (particles (run M (init M iw ih sy) es)).
Proof.
  intros HM.
  apply run_created; [| |apply init_created].
  - intros w h n. destruct (new_offsets M w h n HM) as [L F].
    split; [exact L|]. split; [exact F|].
    intros i. apply nth_In. rewrite L. apply Nat.mod_upper_bound. lia.
  - intros p q E H. unfold fixed_fields in E. injection E as _ _ _ _ Eo. now rewrite Eo.
  - intros w h n. destruct (new_offsets M w h n HM) as [L F].
    split; [exact L|]. split; [exact F|].
    intros i. apply nth_In. rewrite L. apply Nat.mod_upper_bound. lia.
Qed.

Lemma morph_phases_are_defined_witness :
  Forall (fun p => List.length (offsets p) = 8%nat
                   /\ Forall (fun o => within 0 (2 * Math_PI) o = true) (offsets p)
                   /\ forall i, In (nth (i mod 8) (offsets p) nan) (offsets p))
         (particles (run Toy.Math (init Toy.Math 1280 720 0)
                       [ev_frame (fun _ => 1000); ev_resize 800 600; ev_frame (fun _ => 1016)])).
Proof. apply (morph_phases_are_defined Toy.Math 1280 720 0 _ Toy_random_unit). Defined.

(** ** The listeners *)

Lemma step_frame_state M now W :
  let W' := fst (animate M now W) in
  mouse_x W' = mouse_x W /\ mouse_y W' = mouse_y W
  /\ scrollY W' = scrollY W /\ lastScrollY W' = lastScrollY W
  /\ width W' = width W /\ height W' = height W.
Proof.
  unfold animate. destruct (update_all M W (particles W) (draws W)).
  repeat split; reflexivity.
Qed.

Lemma resize_state M iw ih W :
  let W' := resize M iw ih W in
  mouse_x W' = mouse_x W /\ mouse_y W' = mouse_y W
  /\ scrollY W' = scrollY W /\ lastScrollY W' = lastScrollY W
  /\ scrollSpeed W' = scrollSpeed W.
Proof.
  unfold resize, initParticles. cbn [width height draws].
  destruct (initParticles_loop _ _ _ _ _ _ _). repeat split; reflexivity.
Qed.

Lemma run_pointer M es :
  forall W acc,
    mouse_x W = option_map fst acc -> mouse_y W = option_map snd acc ->
    mouse_x (run M W es) = option_map fst (last_pointer acc es)
    /\ mouse_y (run M W es) = option_map snd (last_pointer acc es).
Proof.
  induction es as [|e es IH]; intros W acc Hx Hy; [split; assumption|].
  cbn [run]. unfold last_pointer. cbn [fold_left].
  destruct e; cbn [step fst]; apply IH; try reflexivity; try assumption.
  - now rewrite (proj1 (step_frame_state M _ W)).
  - now rewrite (proj1 (proj2 (step_frame_state M _ W))).
Qed.

(** X7: the two coordinates of the pointer are null together.  In every
    state the script reaches, [mouse.x] and [mouse.y] are those of the last
    [mousemove], or both null when there was none or a [mouseout] came
    after it; so when [update()] finds [mouse.x] not null, the [mouse.y] it
    subtracts from is a number of the same event and never a null read as 0. *)
Theorem pointer_coordinates_null_together M iw ih sy es :
  let W := run M (init M iw ih sy) es in
  mouse_x W = option_map fst (last_pointer None es)
  /\ mouse_y W = option_map snd (last_pointer None es)
  /\ (mouse_x W = None <-> mouse_y W = None)
  /\ (forall mxv, mouse_x W = Some mxv ->
      exists myv, mouse_y W = Some myv /\ last_pointer None es = Some (mxv, myv)
                  /\ forall p, pointer_dy (mouse_y W) p = myv - y p).
Proof.
  intros W.
  destruct (run_pointer M es (init M iw ih sy) None) as [Hx Hy].
  { unfold init. now rewrite (proj1 (resize_state M _ _ _)). }
  { unfold init. now rewrite (proj1 (proj2 (resize_state M _ _ _))). }
  fold W in Hx, Hy. split; [exact Hx|]. split; [exact Hy|].
  rewrite Hx, Hy. destruct (last_pointer None es) as [[cx cy]|]; cbn [option_map fst snd].
  - split; [split; discriminate|]. intros mxv E. injection E as <-.
    exists cy. repeat split; reflexivity.
  - split; [tauto|]. discriminate.
Qed.

Lemma pointer_coordinates_null_together_witness :
  let es := [ev_mousemove 300 250; ev_frame (fun _ => 1000); ev_scroll 40] in
  let W := run Toy.Math (init Toy.Math 1280 720 0) es in
  exists myv, mouse_y W = Some myv /\ last_pointer None es = Some (300, myv)
              /\ forall p, pointer_dy (mouse_y W) p = myv - y p.
Proof.
  intros es W.
  apply (proj2 (proj2 (proj2 (pointer_coordinates_null_together Toy.Math 1280 720 0 es))) 300).
  reflexivity.
Defined.

Lemma run_scroll_position M es :
  forall W, lastScrollY W = scrollY W ->
  scrollY (run M W es) = last_scroll (scrollY W) es
  /\ lastScrollY (run M W es) = scrollY (run M W es).
Proof.
  induction es as [|e es IH]; intros W H; [split; [reflexivity|exact H]|].
  cbn [run]. unfold last_scroll. cbn [fold_left].
  destruct e; cbn [step fst].
  - apply (IH (on_mousemove _ _ W)). exact H.
  - apply (IH (on_mouseout W)). exact H.
  - destruct (resize_state M innerWidth innerHeight W) as (_ & _ & E1 & E2 & _).
    rewrite <- E1. apply IH. now rewrite E1, E2.
  - apply (IH (on_scroll window_scrollY W)). reflexivity.
  - destruct (step_frame_state M Date_now W) as (_ & _ & E1 & E2 & _).
    rewrite <- E1. apply IH. now rewrite E1, E2.
Qed.

(** X8: [scrollY] and [lastScrollY] hold the same value in every state the
    script reaches, the position the last [scroll] event delivered (the
    initial one before any).  A [scroll] event sets the scroll speed to the
    distance from that position, whatever the speed was before; when the
    position has not changed the speed becomes 0. *)
Theorem scroll_speed_is_last_scroll_distance M iw ih sy es s :
  let W := run M (init M iw ih sy) es in
  scrollY W = last_scroll sy es /\ lastScrollY W = scrollY W
  /\ scrollSpeed (on_scroll s W) = s - last_scroll sy es
  /\ scrollY (on_scroll s W) = s /\ lastScrollY (on_scroll s W) = s
  /\ (finite s -> last_scroll sy es = s -> scrollSpeed (on_scroll s W) = 0).
Proof.
  intros W.
  assert (I : scrollY (init M iw ih sy) = sy /\ lastScrollY (init M iw ih sy) = sy).
  { unfold init. destruct (resize_state M iw ih (mkWorld 0 0 [] None None sy sy 0 0))
      as (_ & _ & E1 & E2 & _). split; assumption. }
  destruct I as [I1 I2].
  destruct (run_scroll_position M es (init M iw ih sy)) as [H1 H2]; [congruence|].
  fold W in H1, H2. rewrite I1 in H1.
  assert (S : scrollSpeed (on_scroll s W) = s - last_scroll sy es).
  { cbn [on_scroll scrollSpeed]. now rewrite H2, H1. }
  repeat split; auto.
  intros Fs E. rewrite S, E. now apply sub_diag.
Qed.

Lemma scroll_speed_is_last_scroll_distance_witness :
  let es := [ev_scroll 40; ev_frame (fun _ => 1000)] in
  scrollSpeed (on_scroll 40 (run Toy.Math (init Toy.Math 1280 720 0) es)) = 0.
Proof.
  intros es.
  apply (proj2 (proj2 (proj2 (proj2 (proj2
           (scroll_speed_is_last_scroll_distance Toy.Math 1280 720 0 es 40))))));
    reflexivity.
Defined.

(** ** The scroll kick *)

(** X9: the scroll block of [update()] adds [scrollSpeed * 0.05] to [vy] and
    touches nothing else; the particle moves by the new [vy] in the same
    frame.  The kick has the direction of the scroll: a speed that is not
    negative does not decrease [vy], one that is not positive does not
    increase it, and a zero speed leaves [vy] equal to what it was. *)
Theorem scroll_kick_follows_scroll ss p :
  let p' := scroll_interaction ss p in
  finite ss -> finite (vy p) ->
  vy p' = vy p + ss * 0.05
  /\ vx p' = vx p /\ x p' = x p /\ y p' = y p
  /\ y (basic_motion p') = y p + (vy p + ss * 0.05)
  /\ ((0 <=? ss) = true -> (vy p <=? vy p') = true)
  /\ ((ss <=? 0) = true -> (vy p' <=? vy p) = true)
  /\ ((ss =? 0) = true -> (vy p' =? vy p) = true).
Proof.
  intros p' Fs Fv.
  assert (E : vy p' = vy p + ss * 0.05) by (destruct p; reflexivity).
  assert (Fk : finite (ss * 0.05)) by (apply finite_mul_small; [exact Fs | reflexivity]).
  assert (Fc : finite 0.05) by finite_lit.
  assert (Up : (0 <=? ss) = true -> (vy p <=? vy p') = true).
  { intros H. rewrite E. apply add_le_r; auto. apply mul_nonneg; auto. }
  assert (Down : (ss <=? 0) = true -> (vy p' <=? vy p) = true).
  { intros H. rewrite E. apply add_ge_r; auto.
    apply (mul_mono_r ss 0 0.05); auto using finite_0. }
  split; [exact E|]. repeat (split; [destruct p; reflexivity|]).
  split; [exact Up|]. split; [exact Down|].
  intros H. apply eqb_leb in H. destruct H as [H1 H2].
  apply leb_antisym_eqb; auto.
Qed.

Lemma scroll_kick_follows_scroll_witness :
  vy (scroll_interaction 3 Toy.particle) = -0.25 + 3 * 0.05
  /\ (vy Toy.particle <=? vy (scroll_interaction 3 Toy.particle)) = true.
Proof.
  destruct (scroll_kick_follows_scroll 3 Toy.particle eq_refl eq_refl)
    as (E & _ & _ & _ & _ & U & _).
  split; [exact E | apply U; reflexivity].
Defined.

(** ** Speed limits *)

(** *** One velocity component through damping and minimum speed *)

Lemma abs_within b x : (abs x <=? b) = true <-> within (- b) b x = true.
Proof.
  rewrite within_spec. split.
  - intros H. apply abs_leb_inv in H. tauto.
  - intros [H1 H2]. now apply abs_leb.
Qed.

Lemma finite_within lo hi x : finite lo -> finite hi -> within lo hi x = true -> finite x.
Proof. intros Fl Fh H. apply within_spec in H. destruct H. now apply (finite_between lo x hi). Qed.

Lemma damp_nudge_bound M v n B0 B :
  unit_draws M -> finite B0 -> finite B ->
  within (- B0) B0 v = true ->
  (B0 * 0.98 <=? B) = true -> (0.25 <=? B) = true ->
  within (- B) B (fst (nudged M (v * 0.98) n)) = true.
Proof.
  intros HM FB0 FB Hv HB HQ.
  assert (Fv : finite v) by (apply (finite_within (- B0) B0); auto using finite_opp).
  assert (Fd : finite 0.98) by finite_lit.
  apply abs_within in Hv.
  assert (Fa : finite (abs v)) by now apply finite_abs.
  assert (D : (abs (v * 0.98) <=? B) = true).
  { rewrite abs_mul by assumption. change (abs 0.98) with 0.98.
    apply (F64.leb_trans _ (B0 * 0.98)); [|exact HB].
    apply mul_mono_r; auto. }
  unfold nudged, Math_abs.
  destruct (abs (v * 0.98) <? 0.2) eqn:E; cbn [fst]; [|now apply abs_within].
  destruct (abs_ltb_inv _ _ E) as [U L].
  apply F64.ltb_leb in U, L.
  assert (Fx : finite (v * 0.98)) by (apply (finite_between (-0.2) _ 0.2); auto; finite_lit).
  destruct (HM n) as [U0 U1]. destruct (nudge_bounds _ U0 U1) as [N1 N2].
  apply F64.ltb_leb in N2.
  assert (Fn : finite ((Math_random M n - 0.5) * 0.1)).
  { apply (finite_between (-0.05) _ 0.05); auto; finite_lit. }
  apply abs_within. apply (F64.leb_trans _ 0.25); [|exact HQ].
  apply abs_leb.
  - apply (add_mono _ 0.2 _ 0.05); auto; finite_lit.
  - apply (add_mono (-0.2) _ (-0.05) _); auto; finite_lit.
Qed.

(** The velocity [update()] returns, from the velocity after the mouse block. *)
Lemma update_velocity M w h mx my ss p n :
  let r := mouse_interaction M mx my (boundaries w h (basic_motion (scroll_interaction ss p))) in
  exists n1,
    vx (fst (update M w h mx my ss p n)) = fst (nudged M (vx r * 0.98) n)
    /\ vy (fst (update M w h mx my ss p n)) = fst (nudged M (vy r * 0.98) n1).
Proof.
  intros r. change (update M w h mx my ss p n) with (min_speed M (damping r) n).
  pose proof (min_speed_spec M (damping r) n) as H.
  destruct (damping_spec r) as [Dx Dy]. rewrite Dx, Dy in H.
  destruct (nudged M (vx r * 0.98) n) as [vx' n1].
  exists n1. destruct (nudged M (vy r * 0.98) n1) as [vy' n2].
  cbn [fst]. tauto.
Qed.

Lemma moved_velocity w h ss p :
  let q := boundaries w h (basic_motion (scroll_interaction ss p)) in
  vx q = vx p /\ vy q = vy p + ss * 0.05.
Proof. destruct p. split; reflexivity. Qed.

Lemma update_all_Forall (P : Particle.t -> Prop) M W :
  (forall p n, P p ->
     P (fst (update M (width W) (height W) (mouse_x W) (mouse_y W) (scrollSpeed W) p n))) ->
  forall ps n, Forall P ps -> Forall P (fst (update_all M W ps n)).
Proof.
  intros HP. induction ps as [|p ps IH]; intros n H; [constructor|].
  apply Forall_cons_iff in H. destruct H as [Hp Hps].
  cbn [update_all]. specialize (HP p n Hp).
  destruct (update M _ _ _ _ _ p n) as [p' n']. specialize (IH n' Hps).
  destruct (update_all M W ps n') as [qs n'']. cbn [fst] in *. now constructor.
Qed.

Lemma animate_particles M now W :
  particles (fst (animate M now W)) = fst (update_all M W (particles W) (draws W)).
Proof. unfold animate. destruct (update_all M W (particles W) (draws W)). reflexivity. Qed.

(** *** Without the pointer *)

Lemma update_vx_pointer_free M w h my ss p n B :
  unit_draws M -> finite B -> (B * 0.98 <=? B) = true -> (0.25 <=? B) = true ->
  within (- B) B (vx p) = true ->
  within (- B) B (vx (fst (update M w h None my ss p n))) = true.
Proof.
  intros HM FB HB HQ Hv.
  destruct (update_velocity M w h None my ss p n) as (n1 & Ex & _).
  rewrite Ex. unfold mouse_interaction. rewrite repel_force_absent.
  rewrite (proj1 (moved_velocity w h ss p)).
  now apply (damp_nudge_bound M _ n B B).
Qed.

Lemma update_vy_still M w h my p n B :
  unit_draws M -> finite B -> (B * 0.98 <=? B) = true -> (0.25 <=? B) = true ->
  within (- B) B (vy p) = true ->
  within (- B) B (vy (fst (update M w h None my 0 p n))) = true.
Proof.
  intros HM FB HB HQ Hv.
  destruct (update_velocity M w h None my 0 p n) as (n1 & _ & Ey).
  rewrite Ey. unfold mouse_interaction. rewrite repel_force_absent.
  rewrite (proj2 (moved_velocity w h 0 p)).
  apply (damp_nudge_bound M _ n1 B B); auto.
  change (0 * 0.05) with 0.
  assert (Fv : finite (vy p)) by (apply (finite_within (- B) B); auto using finite_opp).
  apply within_spec in Hv. destruct Hv as [L U].
  apply within_spec. split.
  - apply (F64.leb_trans _ (vy p)); [exact L|]. apply add_le_r; auto using finite_0.
  - apply (F64.leb_trans _ (vy p)); [|exact U]. apply add_ge_r; auto using finite_0.
Qed.

Lemma within_weaken lo hi lo' hi' v :
  (lo' <=? lo) = true -> (hi <=? hi') = true -> within lo hi v = true ->
  within lo' hi' v = true.
Proof.
  intros Hl Hh H. apply within_spec in H. destruct H as [L U].
  apply within_spec. split; eapply F64.leb_trans; eauto.
Qed.

(** Events that are not [mousemove] keep the pointer absent, and a frame
    keeps both velocity components within their bounds. *)
Lemma step_pointer_free M W e B :
  unit_draws M -> finite B -> (B * 0.98 <=? B) = true -> (0.25 <=? B) = true ->
  (0.4 <=? B) = true ->
  is_mousemove e = false ->
  mouse_x W = None -> Forall (fun p => within (- B) B (vx p) = true) (particles W) ->
  mouse_x (fst (step M W e)) = None
  /\ Forall (fun p => within (- B) B (vx p) = true) (particles (fst (step M W e))).
Proof.
  intros HM FB HB HQ H4 He Hm HP.
  destruct e; try discriminate He; cbn [step fst].
  - split; [reflexivity | exact HP].
  - split; [now rewrite (proj1 (resize_state M _ _ W))|].
    rewrite (proj1 (resize_particles M innerWidth innerHeight W)).
    apply Forall_forall. intros p Hp. apply in_map_iff in Hp.
    destruct Hp as (k & <- & _).
    apply (within_weaken (-0.4) 0.4); auto; [|apply (new_velocity M _ _ _ HM)].
    apply (opp_leb 0.4 B H4).
  - split; [exact Hm | exact HP].
  - split; [now rewrite (proj1 (step_frame_state M _ W))|].
    rewrite animate_particles. apply update_all_Forall; [|exact HP].
    intros p n Hp. rewrite Hm. now apply update_vx_pointer_free.
Qed.

Lemma step_still M W e B :
  unit_draws M -> finite B -> (B * 0.98 <=? B) = true -> (0.25 <=? B) = true ->
  (0.4 <=? B) = true ->
  is_mousemove e = false -> is_scroll e = false ->
  mouse_x W = None -> scrollSpeed W = 0 ->
  Forall (fun p => within (- B) B (vy p) = true) (particles W) ->
  scrollSpeed (fst (step M W e)) = 0
  /\ Forall (fun p => within (- B) B (vy p) = true) (particles (fst (step M W e))).
Proof.
  intros HM FB HB HQ H4 He Hs Hm Hz HP.
  destruct e; try discriminate He; try discriminate Hs; cbn [step fst].
  - split; [exact Hz | exact HP].
  - split; [now rewrite (proj2 (proj2 (proj2 (proj2 (resize_state M _ _ W)))))|].
    rewrite (proj1 (resize_particles M innerWidth innerHeight W)).
    apply Forall_forall. intros p Hp. apply in_map_iff in Hp.
    destruct Hp as (k & <- & _).
    apply (within_weaken (-0.4) 0.4); auto; [|apply (new_velocity M _ _ _ HM)].
    apply (opp_leb 0.4 B H4).
  - split; [rewrite animate_scrollSpeed, Hz; reflexivity|].
    rewrite animate_particles. apply update_all_Forall; [|exact HP].
    intros p n Hp. rewrite Hm, Hz. now apply update_vy_still.
Qed.

Lemma run_pointer_free M B :
  unit_draws M -> finite B -> (B * 0.98 <=? B) = true -> (0.25 <=? B) = true ->
  (0.4 <=? B) = true ->
  forall es W,
    forallb (fun e => negb (is_mousemove e)) es = true ->
    mouse_x W = None -> Forall (fun p => within (- B) B (vx p) = true) (particles W) ->
    Forall (fun p => within (- B) B (vx p) = true) (particles (run M W es)).
Proof.
  intros HM FB HB HQ H4. induction es as [|e es IH]; intros W H Hm HP; [exact HP|].
  cbn [forallb run] in *. apply andb_prop in H. destruct H as [He Hes].
  apply negb_true_iff in He.
  destruct (step_pointer_free M W e B) as [Hm' HP']; auto.
Qed.

Lemma run_still M B :
  unit_draws M -> finite B -> (B * 0.98 <=? B) = true -> (0.25 <=? B) = true ->
  (0.4 <=? B) = true ->
  forall es W,
    forallb (fun e => negb (is_mousemove e)) es = true ->
    forallb (fun e => negb (is_scroll e)) es = true ->
    mouse_x W = None -> scrollSpeed W = 0 ->
    Forall (fun p => within (- B) B (vy p) = true) (particles W) ->
    Forall (fun p => within (- B) B (vy p) = true) (particles (run M W es)).
Proof.
  intros HM FB HB HQ H4. induction es as [|e es IH]; intros W H1 H2 Hm Hz HP; [exact HP|].
  cbn [forallb run] in *.
  apply andb_prop in H1. destruct H1 as [He1 Hes1].
  apply andb_prop in H2. destruct H2 as [He2 Hes2].
  apply negb_true_iff in He1, He2.
  destruct (step_still M W e B) as [Hz' HP']; auto.
  apply IH; auto.
  destruct e; try discriminate He1; cbn [step fst]; auto.
  now rewrite (proj1 (step_frame_state M _ W)).
Qed.

Lemma init_state M iw ih sy :
  mouse_x (init M iw ih sy) = None /\ mouse_y (init M iw ih sy) = None
  /\ scrollSpeed (init M iw ih sy) = 0
  /\ width (init M iw ih sy) = iw /\ height (init M iw ih sy) = ih.
Proof.
  unfold init.
  destruct (resize_state M iw ih (mkWorld 0 0 [] None None sy sy 0 0))
    as (E1 & E2 & _ & _ & E3).
  destruct (resize_size M iw ih (mkWorld 0 0 [] None None sy sy 0 0)) as [E4 E5].
  repeat split; assumption.
Qed.

Lemma Forall_abs (f : Particle.t -> float) b ps :
  Forall (fun p => within (- b) b (f p) = true) ps ->
  Forall (fun p => (Math_abs (f p) <=? b) = true) ps.
Proof.
  apply Forall_impl. intros p H. now apply abs_within.
Qed.

(** X10: as long as no [mousemove] arrives, the horizontal speed of every
    particle stays at most 0.4, the bound it is created with, whatever is
    scrolled; and so does the vertical speed as long as no [scroll] event
    arrives either. *)
Theorem speed_bounded_without_pointer M iw ih sy es :
  let W := run M (init M iw ih sy) es in
  unit_draws M ->
  forallb (fun e => negb (is_mousemove e)) es = true ->
  Forall (fun p => (Math_abs (vx p) <=? 0.4) = true) (particles W)
  /\ (forallb (fun e => negb (is_scroll e)) es = true ->
      Forall (fun p => (Math_abs (vy p) <=? 0.4) = true) (particles W)).
Proof.
  intros W HM Hes.
  destruct (init_state M iw ih sy) as (Mx & _ & Sz & _).
  assert (F4 : finite 0.4) by finite_lit.
  split; [|intros Hsc]; apply Forall_abs.
  - apply (run_pointer_free M 0.4); auto.
    apply init_created. intros w h n. apply (new_velocity M w h n HM).
  - apply (run_still M 0.4); auto.
    apply init_created. intros w h n. apply (new_velocity M w h n HM).
Qed.

Lemma speed_bounded_without_pointer_witness :
  Forall (fun p => (Math_abs (vx p) <=? 0.4) = true)
         (particles (run Toy.Math (init Toy.Math 1280 720 0)
                       [ev_frame (fun _ => 1000); ev_scroll 40; ev_frame (fun _ => 1016);
                        ev_mouseout; ev_frame (fun _ => 1033)])).
Proof.
  refine (proj1 (speed_bounded_without_pointer Toy.Math 1280 720 0 _ Toy_random_unit _)).
  reflexivity.
Defined.

(** *** With the pointer *)

Lemma repel_force_bounded M mx my q fx fy :
  sound_trig M -> repel_force M mx my q = Some (fx, fy) ->
  within (-0.02) 0.02 fx = true /\ within (-0.02) 0.02 fy = true.
Proof.
  intros HW HF.
  destruct (repel_force_Some M mx my q _ HF) as (mxv & -> & Hd).
  rewrite (repel_force_near M mxv my q Hd) in HF. injection HF as <- <-.
  pose proof (pointer_distance_nonneg my mxv q Hd) as H0.
  destruct (force_factor_bounds _ H0 Hd) as [F0 F1].
  assert (Fk : finite 0.02) by finite_lit.
  set (f := (600 - pointer_distance my mxv q) / 600) in *.
  assert (Ff : finite f) by (apply (finite_between 0 f 1); auto using finite_0; finite_lit).
  assert (Hk : (f * 0.02 <=? 0.02) = true).
  { apply (mul_mono_r f 1 0.02); auto; finite_lit. }
  set (a := Math_atan2 M (pointer_dy my q) (pointer_dx mxv q)).
  destruct HW as [HB HA].
  destruct (pointer_components_numbers my mxv q Hd) as [Nx Ny].
  destruct (HB a (HA _ _ Ny Nx)) as [Hs Hc]. apply within_spec in Hs, Hc.
  destruct Hs as [S1 S2]. destruct Hc as [C1 C2].
  destruct (scaled_direction_bounds _ _ 0.02 C1 C2 F0 F1 eq_refl Fk) as (Bc & _ & _).
  destruct (scaled_direction_bounds _ _ 0.02 S1 S2 F0 F1 eq_refl Fk) as (Bs & _ & _).
  split; apply (proj1 (abs_within 0.02 _)); eapply F64.leb_trans; eauto.
Qed.

Lemma mouse_velocity_bounded M mx my q :
  sound_trig M ->
  (within (-1) 1 (vx q) = true -> within (-1.02) 1.02 (vx (mouse_interaction M mx my q)) = true)
  /\ (within (-1) 1 (vy q) = true -> within (-1.02) 1.02 (vy (mouse_interaction M mx my q)) = true).
Proof.
  intros HW.
  assert (F1 : finite 1) by finite_lit.
  assert (Fm1 : finite (-1)) by finite_lit.
  assert (Fk : finite 0.02) by finite_lit.
  assert (Fmk : finite (-0.02)) by finite_lit.
  assert (K : forall v f, within (-1) 1 v = true -> within (-0.02) 0.02 f = true ->
                          within (-1.02) 1.02 (v - f) = true).
  { intros v f Hv Hf.
    assert (Fv : finite v) by now apply (finite_within (-1) 1).
    assert (Ff : finite f) by now apply (finite_within (-0.02) 0.02).
    apply within_spec in Hv, Hf. destruct Hv as [V1 V2]. destruct Hf as [G1 G2].
    apply within_spec. split.
    - apply (sub_mono (-1) v 0.02 f); auto.
    - apply (sub_mono v 1 f (-0.02)); auto. }
  assert (Wk : forall v, within (-1) 1 v = true -> within (-1.02) 1.02 v = true).
  { intros v. apply within_weaken; reflexivity. }
  destruct (repel_force M mx my q) as [[fx fy]|] eqn:E.
  - destruct (mouse_interaction_velocity M mx my q fx fy E) as [-> ->].
    destruct (repel_force_bounded M mx my q fx fy HW E) as [Bx By].
    split; intros H; now apply K.
  - unfold mouse_interaction. rewrite E. split; apply Wk.
Qed.

Lemma update_vx_bounded M w h mx my ss p n :
  unit_draws M -> sound_trig M ->
  within (-1) 1 (vx p) = true ->
  within (-1) 1 (vx (fst (update M w h mx my ss p n))) = true.
Proof.
  intros HM HW Hv.
  destruct (update_velocity M w h mx my ss p n) as (n1 & Ex & _). rewrite Ex.
  apply (damp_nudge_bound M _ n 1.02 1); auto; try reflexivity; try finite_lit.
  apply (proj1 (mouse_velocity_bounded M mx my _ HW)).
  now rewrite (proj1 (moved_velocity w h ss p)).
Qed.

Lemma update_vy_bounded M w h mx my p n :
  unit_draws M -> sound_trig M ->
  within (-1) 1 (vy p) = true ->
  within (-1) 1 (vy (fst (update M w h mx my 0 p n))) = true.
Proof.
  intros HM HW Hv.
  destruct (update_velocity M w h mx my 0 p n) as (n1 & _ & Ey). rewrite Ey.
  apply (damp_nudge_bound M _ n1 1.02 1); auto; try reflexivity; try finite_lit.
  apply (proj2 (mouse_velocity_bounded M mx my _ HW)).
  rewrite (proj2 (moved_velocity w h 0 p)). change (0 * 0.05) with 0.
  assert (Fv : finite (vy p)) by (apply (finite_within (-1) 1); auto; finite_lit).
  apply within_spec in Hv. destruct Hv as [L U].
  apply within_spec. split.
  - apply (F64.leb_trans _ (vy p)); [exact L|]. apply add_le_r; auto using finite_0.
  - apply (F64.leb_trans _ (vy p)); [|exact U]. apply add_ge_r; auto using finite_0.
Qed.

Lemma new_velocity_unit M w h n :
  unit_draws M ->
  within (-1) 1 (vx (fst (new M w h n))) = true /\ within (-1) 1 (vy (fst (new M w h n))) = true.
Proof.
  intros HM. destruct (new_velocity M w h n HM) as [Hx Hy].
  split; eapply (within_weaken (-0.4) 0.4); eauto; reflexivity.
Qed.

Lemma run_vx_bounded M :
  unit_draws M -> sound_trig M ->
  forall es W,
    Forall (fun p => within (-1) 1 (vx p) = true) (particles W) ->
    Forall (fun p => within (-1) 1 (vx p) = true) (particles (run M W es)).
Proof.
  intros HM HW. induction es as [|e es IH]; intros W HP; [exact HP|].
  cbn [run]. apply IH. destruct e; cbn [step fst]; try exact HP.
  - rewrite (proj1 (resize_particles M innerWidth innerHeight W)).
    apply Forall_forall. intros p Hp. apply in_map_iff in Hp.
    destruct Hp as (k & <- & _). apply (new_velocity_unit M _ _ _ HM).
  - rewrite animate_particles. apply update_all_Forall; [|exact HP].
    intros p n Hp. now apply update_vx_bounded.
Qed.

Lemma run_vy_bounded M :
  unit_draws M -> sound_trig M ->
  forall es W,
    forallb (fun e => negb (is_scroll e)) es = true -> scrollSpeed W = 0 ->
    Forall (fun p => within (-1) 1 (vy p) = true) (particles W) ->
    Forall (fun p => within (-1) 1 (vy p) = true) (particles (run M W es)).
Proof.
  intros HM HW. induction es as [|e es IH]; intros W H Hz HP; [exact HP|].
  cbn [forallb run] in *. apply andb_prop in H. destruct H as [He Hes].
  apply negb_true_iff in He.
  apply IH; [exact Hes| |]; destruct e; try discriminate He; cbn [step fst];
    try exact HP; try exact Hz.
  - rewrite animate_scrollSpeed, Hz. reflexivity.
  - rewrite (proj1 (resize_particles M innerWidth innerHeight W)).
    apply Forall_forall. intros p Hp. apply in_map_iff in Hp.
    destruct Hp as (k & <- & _). apply (new_velocity_unit M _ _ _ HM).
  - rewrite animate_particles. apply update_all_Forall; [|exact HP].
    intros p n Hp. rewrite Hz. now apply update_vy_bounded.
Qed.

(** X11: the pointer cannot push a particle beyond one pixel per frame.  As
    long as the host's [atan2] of two numbers is a regular number and its
    sine and cosine of a regular number lie between -1 and 1, the
    horizontal speed of every particle is at most 1 in every state the
    script reaches, whatever the pointer and the scroll do; and so is the
    vertical speed as long as no [scroll] event arrives. *)
Theorem speed_bounded_with_pointer M iw ih sy es :
  let W := run M (init M iw ih sy) es in
  unit_draws M -> sound_trig M ->
  Forall (fun p => (Math_abs (vx p) <=? 1) = true) (particles W)
  /\ (forallb (fun e => negb (is_scroll e)) es = true ->
      Forall (fun p => (Math_abs (vy p) <=? 1) = true) (particles W)).
Proof.
  intros W HM HW.
  destruct (init_state M iw ih sy) as (_ & _ & Sz & _).
  split; [|intros Hsc]; apply (Forall_abs _ 1).
  - apply (run_vx_bounded M HM HW).
    apply init_created. intros w h n. apply (new_velocity_unit M w h n HM).
  - apply (run_vy_bounded M HM HW); auto.
    apply init_created. intros w h n. apply (new_velocity_unit M w h n HM).
Qed.

Lemma speed_bounded_with_pointer_witness :
  Forall (fun p => (Math_abs (vx p) <=? 1) = true)
         (particles (run Clamped.Math (init Clamped.Math 1280 720 0)
                       [ev_mousemove 300 250; ev_frame (fun _ => 1000); ev_scroll 40;
                        ev_frame (fun _ => 1016); ev_mouseout; ev_frame (fun _ => 1033)])).
Proof.
  apply (proj1 (speed_bounded_with_pointer Clamped.Math 1280 720 0 _
                  Clamped_unit_draws Clamped_sound_trig)).
Defined.

(** ** Drawing *)

(** *** The calls of a frame *)

Lemma draw_loop_length M p time fuel :
  forall i, List.length (draw_loop M p time fuel i) = Nat.min fuel (11 - i).
Proof.
  induction fuel as [|fuel IH]; intros i; [reflexivity|].
  cbn [draw_loop]. destruct (Nat.leb i 10) eqn:E.
  - apply Nat.leb_le in E. destruct (vertex M p time i) as [px py].
    cbn [List.length]. rewrite IH. lia.
  - apply Nat.leb_gt in E. cbn [List.length]. lia.
Qed.

Lemma draw_length M p now : List.length (draw M p now) = 19%nat.
Proof.
  unfold draw. rewrite !length_app, draw_loop_length. reflexivity.
Qed.

Lemma draw_all_length M now ps :
  forall i, List.length (draw_all M now i ps) = (19 * List.length ps)%nat.
Proof.
  induction ps as [|p ps IH]; intros i; [reflexivity|].
  cbn [draw_all List.length]. rewrite length_app, draw_length, IH. lia.
Qed.

Lemma draw_loop_scoped M p time d rest fuel :
  forall i, well_scoped d (draw_loop M p time fuel i ++ rest) = well_scoped d rest.
Proof.
  induction fuel as [|fuel IH]; intros i; [reflexivity|].
  cbn [draw_loop]. destruct (Nat.leb i 10); [|reflexivity].
  destruct (vertex M p time i) as [px py].
  destruct (Nat.eqb i 0); cbn [app well_scoped]; apply IH.
Qed.

Lemma draw_scoped M p now rest :
  well_scoped 0 (draw M p now ++ rest) = well_scoped 0 rest.
Proof.
  unfold draw. rewrite <- !app_assoc. cbn [app well_scoped Nat.eqb negb andb].
  rewrite draw_loop_scoped. reflexivity.
Qed.

Lemma draw_all_scoped M now ps : forall i, well_scoped 0 (draw_all M now i ps) = true.
Proof.
  induction ps as [|p ps IH]; intros i; [reflexivity|].
  cbn [draw_all]. rewrite draw_scoped. apply IH.
Qed.

Lemma update_all_length M W ps n :
  List.length (fst (update_all M W ps n)) = List.length ps.
Proof.
  rewrite <- (length_map fixed_fields), update_all_fixed_fields. apply length_map.
Qed.

(** X12: a frame first clears the viewport, then draws the particles in the
    order of the array, each in the state [update()] has just given it:
    every particle is updated before any is drawn.  That makes one call of
    [clearRect] and nineteen calls for each particle.  Every [translate]
    and [rotate] sits between the [save] and the [restore] of its particle,
    so no transformation is left on the context when the next particle is
    drawn or the next frame cleared. *)
Theorem frame_draws_each_particle_scoped M now W :
  let W' := fst (animate M now W) in
  let cs := snd (animate M now W) in
  cs = clearRect 0 0 (width W) (height W) :: draw_all M now 0 (particles W')
  /\ particles W' = fst (update_all M W (particles W) (draws W))
  /\ List.length (particles W') = List.length (particles W)
  /\ List.length cs = (1 + 19 * List.length (particles W))%nat
  /\ well_scoped 0 cs = true.
Proof.
  intros W' cs. unfold cs, W'.
  assert (L : List.length (particles (fst (animate M now W))) = List.length (particles W)).
  { rewrite animate_particles. apply update_all_length. }
  split; [apply animate_calls|]. split; [apply animate_particles|].
  split; [exact L|]. rewrite animate_calls. split.
  - cbn [List.length]. rewrite draw_all_length, L. reflexivity.
  - cbn [well_scoped Nat.eqb andb]. apply draw_all_scoped.
Qed.

(** *** The size of the blob *)

Lemma mul_mono_l c a a' :
  finite a -> finite a' -> finite c ->
  (a <=? a') = true -> (0 <=? c) = true -> (c * a <=? c * a') = true.
Proof.
  intros. rewrite (F64.mul_comm c a), (F64.mul_comm c a'). now apply mul_mono_r.
Qed.

(** A value scaled by a factor between -1 and 1 keeps within the value's
    magnitude. *)
Lemma mul_direction r c :
  finite r -> within (-1) 1 c = true -> (abs (r * c) <=? abs r) = true.
Proof.
  intros Fr Hc.
  assert (Fc : finite c) by (apply (finite_within (-1) 1); auto; finite_lit).
  rewrite abs_mul by assumption. rewrite F64.mul_comm.
  apply mul_le_self; auto using finite_abs.
  - apply abs_nonneg. now apply finite_notnan.
  - now apply (proj2 (abs_within 1 c)).
Qed.

Lemma noise_bounds s c :
  within (-1) 1 s = true -> within (-1) 1 c = true ->
  within 0.8 1.2 (1 + (s * 0.1 + c * 0.1)) = true.
Proof.
  intros Hs Hc.
  assert (F1 : finite 1) by finite_lit.
  assert (Fm1 : finite (-1)) by finite_lit.
  assert (Ft : finite 0.1) by finite_lit.
  assert (Fs : finite s) by now apply (finite_within (-1) 1).
  assert (Fc : finite c) by now apply (finite_within (-1) 1).
  apply within_spec in Hs, Hc. destruct Hs as [S1 S2]. destruct Hc as [C1 C2].
  assert (A1 : (-0.1 <=? s * 0.1) = true) by (apply (mul_mono_r (-1) s 0.1); auto).
  assert (A2 : (s * 0.1 <=? 0.1) = true) by (apply (mul_mono_r s 1 0.1); auto).
  assert (B1 : (-0.1 <=? c * 0.1) = true) by (apply (mul_mono_r (-1) c 0.1); auto).
  assert (B2 : (c * 0.1 <=? 0.1) = true) by (apply (mul_mono_r c 1 0.1); auto).
  assert (FA : finite (s * 0.1)) by (apply (finite_between (-0.1) _ 0.1); auto; finite_lit).
  assert (FB : finite (c * 0.1)) by (apply (finite_between (-0.1) _ 0.1); auto; finite_lit).
  assert (N1 : (-0.2 <=? s * 0.1 + c * 0.1) = true).
  { apply (add_mono (-0.1) _ (-0.1) _); auto; finite_lit. }
  assert (N2 : (s * 0.1 + c * 0.1 <=? 0.2) = true).
  { apply (add_mono _ 0.1 _ 0.1); auto; finite_lit. }
  assert (FN : finite (s * 0.1 + c * 0.1)).
  { apply (finite_between (-0.2) _ 0.2); auto; finite_lit. }
  apply within_spec. split.
  - apply (add_mono 1 1 (-0.2) _); auto; finite_lit.
  - apply (add_mono 1 1 _ 0.2); auto; finite_lit.
Qed.

(** The factor [r] of the source, for vertex [i]: [vertex] is [r] times
    the cosine and the sine of the sample angle. *)
Lemma vertex_radius M p time i :
  let theta := (num i / 10) * Math_PI * 2 in
  let r := radius p * (1 + (Math_sin M (theta * 2 + time + nth (i mod 8) (offsets p) nan) * 0.1
                            + Math_cos M (theta * 3 - time) * 0.1)) in
  vertex M p time i = (r * Math_cos M theta, r * Math_sin M theta).
Proof. reflexivity. Qed.

Lemma finite_regular v : finite v -> regular v = true.
Proof.
  unfold finite, regular, Math_abs. rewrite ltb_spec, abs_spec.
  change (Prim2SF infinity) with (S754_infinity false).
  destruct (Prim2SF v) as [[]|[]| |[] m e]; simpl; try contradiction; reflexivity.
Qed.

(** The sample angles of the loop lie between 0 and [2 * pi]. *)
Lemma theta_within i :
  (i <= 10)%nat -> within 0 (2 * Math_PI) ((num i / 10) * Math_PI * 2) = true.
Proof.
  intros H. do 11 (destruct i as [|i]; [vm_compute; reflexivity|]). lia.
Qed.

(** The arguments [draw()] gives to the sine and the cosine are regular
    numbers, for a time read from a [Date] and a phase between 0 and
    [2 * pi]. *)
Lemma wave_arguments_regular theta now o :
  within 0 (2 * Math_PI) theta = true -> within 0 max_date now = true ->
  within 0 (2 * Math_PI) o = true ->
  regular theta = true
  /\ regular (theta * 2 + now * 0.001 + o) = true
  /\ regular (theta * 3 - now * 0.001) = true.
Proof.
  intros Ht Hn Ho.
  assert (FP : finite (2 * Math_PI)) by finite_lit.
  assert (FD : finite max_date) by finite_lit.
  assert (Ft : finite theta) by (apply (finite_within 0 (2 * Math_PI)); auto using finite_0).
  assert (Fn : finite now) by (apply (finite_within 0 max_date); auto using finite_0).
  assert (Fo : finite o) by (apply (finite_within 0 (2 * Math_PI)); auto using finite_0).
  apply within_spec in Ht, Hn, Ho.
  destruct Ht as [T1 T2]. destruct Hn as [N1 N2]. destruct Ho as [O1 O2].
  assert (A1 : (0 <=? theta * 2) = true) by (apply mul_nonneg; auto; finite_lit).
  assert (A2 : (theta * 2 <=? 2 * Math_PI * 2) = true) by (apply mul_mono_r; auto; finite_lit).
  assert (FA : finite (theta * 2)).
  { apply (finite_between 0 _ (2 * Math_PI * 2)); auto using finite_0; finite_lit. }
  assert (B1 : (0 <=? theta * 3) = true) by (apply mul_nonneg; auto; finite_lit).
  assert (B2 : (theta * 3 <=? 2 * Math_PI * 3) = true) by (apply mul_mono_r; auto; finite_lit).
  assert (FB : finite (theta * 3)).
  { apply (finite_between 0 _ (2 * Math_PI * 3)); auto using finite_0; finite_lit. }
  assert (C1 : (0 <=? now * 0.001) = true) by (apply mul_nonneg; auto; finite_lit).
  assert (C2 : (now * 0.001 <=? max_date * 0.001) = true) by (apply mul_mono_r; auto; finite_lit).
  assert (FC : finite (now * 0.001)).
  { apply (finite_between 0 _ (max_date * 0.001)); auto using finite_0; finite_lit. }
  assert (D1 : (0 <=? theta * 2 + now * 0.001) = true) by (apply F64.add_nonneg; auto).
  assert (D2 : (theta * 2 + now * 0.001 <=? 2 * Math_PI * 2 + max_date * 0.001) = true).
  { apply add_mono; auto; finite_lit. }
  assert (FD' : finite (theta * 2 + now * 0.001)).
  { apply (finite_between 0 _ (2 * Math_PI * 2 + max_date * 0.001)); auto using finite_0;
      finite_lit. }
  split; [now apply finite_regular|]. split; apply finite_regular.
  - apply (finite_between 0 _ (2 * Math_PI * 2 + max_date * 0.001 + 2 * Math_PI));
      auto using finite_0, F64.add_nonneg; try finite_lit.
    apply add_mono; auto; finite_lit.
  - apply (finite_between (0 - max_date * 0.001) _ (2 * Math_PI * 3 - 0));
      try finite_lit; apply sub_mono; auto using finite_0; finite_lit.
Qed.

(** X13: the noise of [draw()] changes the radius by at most a fifth.  As
    long as the host's sine and cosine of a regular number lie between -1
    and 1, for each of the eleven vertices the factor [r] that the loop
    multiplies the cosine and the sine of the sample angle by lies between
    0.8 and 1.2 times the radius, and each of the two coordinates of the
    vertex has magnitude at most 1.2 times the radius, at every time a
    [Date] can give.  The phase read from [offsets] lies between 0 and
    [2 * pi], the radius is not negative, and 1.2 times the radius is a
    finite number, as in every state the script reaches. *)
Theorem blob_stays_near_radius M p now i :
  let time := now * 0.001 in
  let theta := (num i / 10) * Math_PI * 2 in
  let r := radius p * (1 + (Math_sin M (theta * 2 + time + nth (i mod 8) (offsets p) nan) * 0.1
                            + Math_cos M (theta * 3 - time) * 0.1)) in
  bounded_waves M -> (i <= 10)%nat -> within 0 max_date now = true ->
  within 0 (2 * Math_PI) (nth (i mod 8) (offsets p) nan) = true ->
  dimension (radius p) = true -> (radius p * 1.2 <? infinity) = true ->
  vertex M p time i = (r * Math_cos M theta, r * Math_sin M theta)
  /\ within (radius p * 0.8) (radius p * 1.2) r = true
  /\ (Math_abs (fst (vertex M p time i)) <=? radius p * 1.2) = true
  /\ (Math_abs (snd (vertex M p time i)) <=? radius p * 1.2) = true.
Proof.
  intros time theta r HW Hi Hn Ho Hr Hfin. destruct (dimension_spec _ Hr) as [Fr R0].
  destruct (wave_arguments_regular theta now _ (theta_within i Hi) Hn Ho)
    as (G0 & G1 & G2).
  fold time in G1, G2.
  set (s := Math_sin M (theta * 2 + time + nth (i mod 8) (offsets p) nan)) in *.
  set (c := Math_cos M (theta * 3 - time)) in *.
  pose proof (noise_bounds s c (proj1 (HW _ G1)) (proj2 (HW _ G2))) as N.
  assert (Fn : finite (1 + (s * 0.1 + c * 0.1))).
  { apply (finite_within 0.8 1.2); auto; finite_lit. }
  apply within_spec in N. destruct N as [N1 N2].
  assert (R1 : (radius p * 0.8 <=? r) = true).
  { apply mul_mono_l; auto; finite_lit. }
  assert (R2 : (r <=? radius p * 1.2) = true).
  { apply mul_mono_l; auto; finite_lit. }
  assert (F8 : finite (radius p * 0.8)).
  { apply finite_mul_small; [exact Fr | reflexivity]. }
  assert (P8 : (0 <=? radius p * 0.8) = true) by (apply mul_nonneg; auto; finite_lit).
  assert (F12 : finite (radius p * 1.2)).
  { apply dimension_spec. unfold dimension. rewrite Hfin, andb_true_r.
    apply (F64.leb_trans _ _ _ P8). apply (F64.leb_trans _ _ _ R1 R2). }
  assert (Fr' : finite r) by (apply (finite_between _ r _ F8 F12); auto).
  assert (Pr : (0 <=? r) = true) by (apply (F64.leb_trans _ _ _ P8 R1)).
  assert (Ar : (abs r <=? radius p * 1.2) = true).
  { apply abs_leb; [exact R2|].
    apply (F64.leb_trans _ 0); [|exact Pr].
    apply F64.opp_nonneg. apply (F64.leb_trans _ _ _ Pr R2). }
  split; [reflexivity|]. split; [apply within_spec; split; assumption|].
  rewrite vertex_radius. cbn [fst snd]. fold theta. fold s c. fold r.
  split; (eapply F64.leb_trans; [apply mul_direction; [exact Fr'|apply (HW _ G0)] | exact Ar]).
Qed.

Lemma blob_stays_near_radius_witness :
  (Math_abs (fst (vertex Clamped.Math Toy.particle (1000 * 0.001) 3)) <=? 450 * 1.2) = true
  /\ (Math_abs (snd (vertex Clamped.Math Toy.particle (1000 * 0.001) 3)) <=? 450 * 1.2) = true.
Proof.
  destruct (blob_stays_near_radius Clamped.Math Toy.particle 1000 3
              Clamped_bounded_waves) as (_ & _ & Hx & Hy);
    try reflexivity; [lia|].
  split; [exact Hx | exact Hy].
Defined.

(** ** Positions *)

(** *** The wrap, once more *)

Lemma wrap_coord_inside dim buffer c :
  within (- buffer) (dim + buffer) c = true -> wrap_coord dim buffer c = c.
Proof.
  intros H. apply within_spec in H. destruct H as [L U].
  unfold wrap_coord. rewrite (F64.leb_nltb _ _ L), (F64.leb_nltb _ _ U). reflexivity.
Qed.

Lemma wrap_coord_nan dim buffer c : is_nan c = true -> wrap_coord dim buffer c = c.
Proof.
  intros H. unfold wrap_coord.
  destruct (c <? - buffer) eqn:E1.
  { apply F64.ltb_notnan in E1. destruct E1. congruence. }
  destruct (dim + buffer <? c) eqn:E2.
  { apply F64.ltb_notnan in E2. destruct E2. congruence. }
  reflexivity.
Qed.

Lemma boundaries_spec w h q :
  boundaries w h q
  = set_y (set_x q (wrap_coord w (radius q) (x q))) (wrap_coord h (radius q) (y q)).
Proof. destruct q; reflexivity. Qed.

(** X14: the wrap moves only what is outside.  A particle whose position is
    within the viewport extended by its radius is returned as it is; and,
    the dimensions and the radius being not negative, wrapping the result of
    a wrap changes nothing. *)
Theorem wrap_moves_only_outside w h q :
  let r := radius q in
  (0 <=? w) = true -> (0 <=? h) = true -> (0 <=? r) = true ->
  (within (- r) (w + r) (x q) = true -> within (- r) (h + r) (y q) = true ->
   boundaries w h q = q)
  /\ boundaries w h (boundaries w h q) = boundaries w h q.
Proof.
  intros r Hw Hh Hr.
  assert (In : forall p, within (- radius p) (w + radius p) (x p) = true ->
                         within (- radius p) (h + radius p) (y p) = true ->
                         boundaries w h p = p).
  { intros p Hx Hy. rewrite boundaries_spec.
    rewrite (wrap_coord_inside _ _ _ Hx), (wrap_coord_inside _ _ _ Hy).
    destruct p; reflexivity. }
  split; [apply In|].
  assert (K : forall dim c, (0 <=? dim) = true ->
            wrap_coord dim r (wrap_coord dim r c) = wrap_coord dim r c).
  { intros dim c Hd. destruct (is_nan c) eqn:N.
    - now rewrite !wrap_coord_nan by (rewrite ?wrap_coord_nan; assumption).
    - destruct (wrap_coord_spec dim r c Hd Hr N) as (L & U & _).
      apply wrap_coord_inside. apply within_spec. split; assumption. }
  rewrite (boundaries_spec w h (boundaries w h q)).
  rewrite (boundaries_spec w h q). destruct q as [x0 y0 vx0 vy0 ts r0 c a s os].
  unfold set_x, set_y; fields. cbn [radius] in r. fold r.
  now rewrite (K w x0 Hw), (K h y0 Hh).
Qed.

Lemma wrap_moves_only_outside_witness :
  boundaries 1280 720 Toy.particle = Toy.particle.
Proof.
  apply (proj1 (wrap_moves_only_outside 1280 720 Toy.particle eq_refl eq_refl eq_refl));
    reflexivity.
Defined.

(** *** NaN *)

Lemma nan_add_r x y : is_nan y = true -> is_nan (x + y) = true.
Proof.
  intros H. destruct (is_nan (x + y)) eqn:E; [reflexivity|].
  apply add_notnan in E. destruct E. congruence.
Qed.

Lemma nan_mul_l x y : is_nan x = true -> is_nan (x * y) = true.
Proof.
  intros H. destruct (is_nan (x * y)) eqn:E; [reflexivity|].
  apply mul_notnan in E. destruct E. congruence.
Qed.

Lemma nan_sub_l x y : is_nan x = true -> is_nan (x - y) = true.
Proof.
  intros H. destruct (is_nan (x - y)) eqn:E; [reflexivity|].
  apply F64.is_nan_spec in E. rewrite sub_spec in E. apply SFsub_notnan in E.
  destruct E as [E _]. apply F64.is_nan_spec in E. congruence.
Qed.

Lemma nan_abs x : is_nan x = true -> is_nan (abs x) = true.
Proof.
  intros H. destruct (is_nan (abs x)) eqn:E; [reflexivity|].
  apply abs_notnan in E. congruence.
Qed.

Lemma nan_ltb_l x y : is_nan x = true -> (x <? y) = false.
Proof.
  intros H. destruct (x <? y) eqn:E; [|reflexivity].
  apply F64.ltb_notnan in E. destruct E. congruence.
Qed.

Lemma nudged_nan M v n : is_nan v = true -> fst (nudged M v n) = v.
Proof.
  intros H. unfold nudged, Math_abs. now rewrite (nan_ltb_l _ _ (nan_abs _ H)).
Qed.

Lemma mouse_interaction_nan M mx my q :
  (is_nan (vx q) = true -> is_nan (vx (mouse_interaction M mx my q)) = true)
  /\ (is_nan (vy q) = true -> is_nan (vy (mouse_interaction M mx my q)) = true).
Proof.
  destruct (repel_force M mx my q) as [[fx fy]|] eqn:E.
  - destruct (mouse_interaction_velocity M mx my q fx fy E) as [-> ->].
    split; apply nan_sub_l.
  - unfold mouse_interaction. rewrite E. tauto.
Qed.

(** X15: NaN is never repaired.  Once a coordinate of a particle or the
    velocity component that moves it is NaN, [update()] returns that
    coordinate as NaN, and the velocity component stays NaN as well: the
    wrap and the minimum-speed nudge both compare, and every comparison
    with NaN is false.  A NaN scroll speed does the same to [y] and [vy]. *)
Theorem nan_is_never_repaired M w h mx my ss p n :
  let p' := fst (update M w h mx my ss p n) in
  (is_nan (x p) = true \/ is_nan (vx p) = true -> is_nan (x p') = true)
  /\ (is_nan (y p) = true \/ is_nan (vy p) = true \/ is_nan ss = true ->
      is_nan (y p') = true)
  /\ (is_nan (vx p) = true -> is_nan (vx p') = true)
  /\ (is_nan (vy p) = true \/ is_nan ss = true -> is_nan (vy p') = true).
Proof.
  intros p'.
  destruct (update_position M w h mx my ss p n) as [Px Py].
  destruct (update_velocity M w h mx my ss p n) as (n1 & Vx & Vy).
  fold p' in Px, Py, Vx, Vy.
  set (q := boundaries w h (basic_motion (scroll_interaction ss p))) in *.
  destruct (moved_velocity w h ss p) as [Qx Qy]. fold q in Qx, Qy.
  assert (Xq : x q = wrap_coord w (radius p) (x p + vx p)) by (destruct p; reflexivity).
  assert (Yq : y q = wrap_coord h (radius p) (y p + (vy p + ss * 0.05)))
    by (destruct p; reflexivity).
  assert (K : is_nan (vy p) = true \/ is_nan ss = true ->
              is_nan (vy p + ss * 0.05) = true).
  { intros [H|H]; [now apply nan_add_l | apply nan_add_r; now apply nan_mul_l]. }
  destruct (mouse_interaction_nan M mx my q) as [Mx My].
  repeat split.
  - intros H. rewrite Px, Xq.
    assert (N : is_nan (x p + vx p) = true)
      by (destruct H; [now apply nan_add_l | now apply nan_add_r]).
    now rewrite wrap_coord_nan.
  - intros H. rewrite Py, Yq.
    assert (N : is_nan (y p + (vy p + ss * 0.05)) = true).
    { destruct H as [H|H]; [now apply nan_add_l | apply nan_add_r; now apply K]. }
    now rewrite wrap_coord_nan.
  - intros H. rewrite Vx.
    assert (N : is_nan (vx (mouse_interaction M mx my q) * 0.98) = true).
    { apply nan_mul_l, Mx. now rewrite Qx. }
    now rewrite nudged_nan.
  - intros H. rewrite Vy.
    assert (N : is_nan (vy (mouse_interaction M mx my q) * 0.98) = true).
    { apply nan_mul_l, My. rewrite Qy. now apply K. }
    now rewrite nudged_nan.
Qed.

Lemma nan_is_never_repaired_witness :
  let p := Particle.mk nan 200 0.3 (-0.25) 450 450 None 1 0.001 [] in
  is_nan (x (fst (update Toy.Math 1280 720 (Some 300) (Some 250) 3 p 0))) = true.
Proof.
  intros p.
  apply (proj1 (nan_is_never_repaired Toy.Math 1280 720 (Some 300) (Some 250) 3 p 0)).
  left. reflexivity.
Defined.

(** *** The field stays around the viewport *)

Lemma coordinate_kept dim r c :
  (0 <=? dim) = true -> (0 <=? r) = true ->
  is_nan (wrap_coord dim r c) || within (- r) (dim + r) (wrap_coord dim r c) = true.
Proof.
  intros Hd Hr. destruct (is_nan c) eqn:N.
  - rewrite wrap_coord_nan by exact N. now rewrite N.
  - destruct (wrap_coord_spec dim r c Hd Hr N) as (L & U & _).
    apply orb_true_iff. right. apply within_spec. split; assumption.
Qed.

Lemma coordinate_created dim r c :
  dimension dim = true -> within 400 600 r = true -> within 0 dim c = true ->
  is_nan c || within (- r) (dim + r) c = true.
Proof.
  intros Hd Hr Hc. destruct (dimension_spec _ Hd) as [Fd D0].
  assert (Fr : finite r) by (apply (finite_within 400 600); auto; finite_lit).
  apply within_spec in Hr, Hc. destruct Hr as [R1 R2]. destruct Hc as [C1 C2].
  assert (R0 : (0 <=? r) = true) by (apply (F64.leb_trans _ 400); auto).
  apply orb_true_iff. right. apply within_spec. split.
  - apply (F64.leb_trans _ 0); [|exact C1]. now apply F64.opp_nonneg.
  - apply (F64.leb_trans _ dim); [exact C2|]. now apply add_le_r.
Qed.

Lemma new_in_extended_viewport M w h n :
  unit_draws M -> dimension w = true -> dimension h = true ->
  in_extended_viewport w h (fst (new M w h n)) = true.
Proof.
  intros HM Hw Hh. unfold in_extended_viewport.
  destruct (new_size M w h n HM) as [_ Hr].
  destruct (new_position M w h n) as [Ex Ey].
  apply andb_true_iff. split; apply coordinate_created; auto.
  - rewrite Ex. now apply scaled_draw.
  - rewrite Ey. now apply scaled_draw.
Qed.

Lemma update_in_extended_viewport M w h mx my ss p n :
  (0 <=? w) = true -> (0 <=? h) = true -> (0 <=? radius p) = true ->
  in_extended_viewport w h (fst (update M w h mx my ss p n)) = true.
Proof.
  intros Hw Hh Hr. unfold in_extended_viewport.
  destruct (update_position M w h mx my ss p n) as [-> ->].
  pose proof (update_fixed_fields M w h mx my ss p n) as E.
  unfold fixed_fields in E. injection E as _ -> _ _ _.
  rewrite boundaries_spec.
  set (q := basic_motion (scroll_interaction ss p)).
  assert (Rq : radius q = radius p) by (destruct p; reflexivity).
  rewrite Rq. destruct q; unfold set_x, set_y; fields.
  apply andb_true_iff. split; now apply coordinate_kept.
Qed.

Lemma step_in_extended_viewport M W e :
  unit_draws M -> proper_resize e = true ->
  dimension (width W) = true -> dimension (height W) = true ->
  Forall (fun p => within 400 600 (radius p) = true
                   /\ in_extended_viewport (width W) (height W) p = true) (particles W) ->
  let W' := fst (step M W e) in
  dimension (width W') = true /\ dimension (height W') = true
  /\ Forall (fun p => within 400 600 (radius p) = true
                      /\ in_extended_viewport (width W') (height W') p = true) (particles W').
Proof.
  intros HM He Hw Hh HP.
  destruct e; cbn [step fst proper_resize] in *.
  - repeat split; assumption.
  - repeat split; assumption.
  - apply andb_prop in He. destruct He as [Hiw Hih].
    destruct (resize_size M innerWidth innerHeight W) as [-> ->].
    split; [exact Hiw|]. split; [exact Hih|].
    rewrite (proj1 (resize_particles M innerWidth innerHeight W)).
    apply Forall_forall. intros p Hp. apply in_map_iff in Hp.
    destruct Hp as (k & <- & _). split.
    + apply (new_size M _ _ _ HM).
    + now apply new_in_extended_viewport.
  - repeat split; assumption.
  - destruct (step_frame_state M Date_now W) as (_ & _ & _ & _ & -> & ->).
    split; [exact Hw|]. split; [exact Hh|].
    rewrite animate_particles. apply update_all_Forall; [|exact HP].
    intros p n [Hr _].
    pose proof (update_fixed_fields M (width W) (height W) (mouse_x W) (mouse_y W)
                  (scrollSpeed W) p n) as E.
    unfold fixed_fields in E. injection E as _ Er _ _ _.
    split; [now rewrite Er|].
    apply update_in_extended_viewport.
    + exact (proj2 (dimension_spec _ Hw)).
    + exact (proj2 (dimension_spec _ Hh)).
    + apply within_spec in Hr. destruct Hr as [R1 _].
      apply (F64.leb_trans _ 400); auto.
Qed.

Lemma run_in_extended_viewport M :
  unit_draws M ->
  forall es W,
    forallb proper_resize es = true ->
    dimension (width W) = true -> dimension (height W) = true ->
    Forall (fun p => within 400 600 (radius p) = true
                     /\ in_extended_viewport (width W) (height W) p = true) (particles W) ->
    let W' := run M W es in
    Forall (fun p => within 400 600 (radius p) = true
                     /\ in_extended_viewport (width W') (height W') p = true) (particles W').
Proof.
  intros HM. induction es as [|e es IH]; intros W H Hw Hh HP; [exact HP|].
  cbn [forallb run] in *. apply andb_prop in H. destruct H as [He Hes].
  destruct (step_in_extended_viewport M W e HM He Hw Hh HP) as (Hw' & Hh' & HP').
  now apply IH.
Qed.

(** X16: in every state the script reaches, every particle is inside the
    viewport extended by the particle's radius on each side,
    [-radius <= x <= width + radius] and [-radius <= y <= height + radius],
    as far as its position is a number: at creation, after every frame,
    and across every resize, for viewport dimensions that are not negative
    and not infinite. *)
Theorem field_stays_around_viewport M iw ih sy es :
  let W := run M (init M iw ih sy) es in
  unit_draws M -> dimension iw = true -> dimension ih = true ->
  forallb proper_resize es = true ->
  Forall (fun p => in_extended_viewport (width W) (height W) p = true) (particles W).
Proof.
  intros W HM Hw Hh Hes.
  destruct (init_state M iw ih sy) as (_ & _ & _ & Ew & Eh).
  assert (H : Forall (fun p => within 400 600 (radius p) = true
                     /\ in_extended_viewport (width W) (height W) p = true) (particles W)).
  { apply (run_in_extended_viewport M HM es (init M iw ih sy) Hes).
    - now rewrite Ew.
    - now rewrite Eh.
    - rewrite Ew, Eh. unfold init. rewrite (proj1 (resize_particles M iw ih _)).
      apply Forall_forall. intros p Hp. apply in_map_iff in Hp.
      destruct Hp as (k & <- & _). split.
      + apply (new_size M _ _ _ HM).
      + now apply new_in_extended_viewport. }
  revert H. apply Forall_impl. tauto.
Qed.

Lemma field_stays_around_viewport_witness :
  let W := run Toy.Math (init Toy.Math 1280 720 0)
             [ev_mousemove 300 250; ev_frame (fun _ => 1000); ev_scroll 40;
              ev_resize 800 600; ev_frame (fun _ => 1016)] in
  Forall (fun p => in_extended_viewport (width W) (height W) p = true) (particles W).
Proof.
  intros W.
  refine (field_stays_around_viewport Toy.Math 1280 720 0 _ Toy_random_unit _ _ _);
    reflexivity.
Defined.

(** ** Randomness and reach *)

(** *** The calls of [Math.random] *)

Lemma update_draws M w h mx my ss p n :
  (n <= snd (update M w h mx my ss p n) <= n + 2)%nat.
Proof.
  unfold update.
  set (r := damping (mouse_interaction M mx my
                       (boundaries w h (basic_motion (scroll_interaction ss p))))).
  pose proof (min_speed_spec M r n) as H. unfold nudged in H.
  destruct (Math_abs (vx r) <? 0.2), (Math_abs (vy r) <? 0.2);
    destruct H as (_ & _ & ->); lia.
Qed.

Lemma update_all_draws M W ps :
  forall n, (n <= snd (update_all M W ps n) <= n + 2 * List.length ps)%nat.
Proof.
  induction ps as [|p ps IH]; intros n; cbn [update_all List.length snd]; [lia|].
  pose proof (update_draws M (width W) (height W) (mouse_x W) (mouse_y W)
                (scrollSpeed W) p n) as Hp.
  destruct (update M _ _ _ _ _ p n) as [p' n']. cbn [snd] in Hp.
  specialize (IH n'). destruct (update_all M W ps n') as [qs n'']. cbn [snd] in *. lia.
Qed.

Lemma animate_draws M now W :
  draws (fst (animate M now W)) = snd (update_all M W (particles W) (draws W)).
Proof. unfold animate. destruct (update_all M W (particles W) (draws W)). reflexivity. Qed.

Lemma run_field_size M es :
  forall W, List.length (particles W) = 12%nat ->
  List.length (particles (run M W es)) = 12%nat.
Proof.
  induction es as [|e es IH]; intros W H; [exact H|].
  cbn [run]. apply IH. destruct (is_resize e) eqn:R.
  - destruct e; try discriminate R. cbn [step fst].
    rewrite (proj1 (resize_particles M innerWidth innerHeight W)).
    now rewrite length_map, length_seq.
  - rewrite <- (length_map fixed_fields), (step_fixed_fields M W e R), length_map.
    exact H.
Qed.

(** X17: who calls [Math.random], and how often.  In every state the script
    reaches the field has twelve particles; from there a resize makes
    exactly 216 calls, a frame at most 24 (at most two for each particle,
    one for each velocity component slower than 0.2), and the pointer and
    scroll listeners none. *)
Theorem random_calls_per_event M iw ih sy es e :
  let W := run M (init M iw ih sy) es in
  let W' := fst (step M W e) in
  List.length (particles W) = 12%nat
  /\ match e with
     | ev_resize _ _ => draws W' = (draws W + 216)%nat
     | ev_frame _ => (draws W <= draws W' <= draws W + 24)%nat
     | _ => draws W' = draws W
     end.
Proof.
  intros W W'.
  assert (L : List.length (particles W) = 12%nat).
  { apply run_field_size. unfold init.
    rewrite (proj1 (resize_particles M iw ih _)). now rewrite length_map, length_seq. }
  split; [exact L|]. unfold W'.
  destruct e; cbn [step fst]; try reflexivity.
  - apply (proj2 (resize_particles M innerWidth innerHeight W)).
  - rewrite animate_draws.
    pose proof (update_all_draws M W (particles W) (draws W)) as H.
    rewrite L in H. lia.
Qed.

(** *** Nearer is stronger *)

Lemma ltb_finite d : (0 <=? d) = true -> (d <? 600) = true -> finite d.
Proof.
  intros H0 H1. apply (finite_between 0 d 600); auto using finite_0, F64.ltb_leb;
    finite_lit.
Qed.

(** X18: the nearer the pointer, the stronger the push.  Of two particles
    within reach of the same pointer, the nearer one gets the factor
    [(600 - distance) / 600] that is at least as large; the factor is 1 at
    distance 0 and never negative. *)
Theorem nearer_pointer_pushes_harder M mxv my q1 q2 :
  let d1 := pointer_distance my mxv q1 in
  let d2 := pointer_distance my mxv q2 in
  let f1 := (600 - d1) / 600 in
  let f2 := (600 - d2) / 600 in
  (d1 <=? d2) = true -> (d2 <? 600) = true ->
  repel_force M (Some mxv) my q1
  = Some (Math_cos M (Math_atan2 M (pointer_dy my q1) (pointer_dx mxv q1)) * f1 * 0.02,
          Math_sin M (Math_atan2 M (pointer_dy my q1) (pointer_dx mxv q1)) * f1 * 0.02)
  /\ repel_force M (Some mxv) my q2
     = Some (Math_cos M (Math_atan2 M (pointer_dy my q2) (pointer_dx mxv q2)) * f2 * 0.02,
             Math_sin M (Math_atan2 M (pointer_dy my q2) (pointer_dx mxv q2)) * f2 * 0.02)
  /\ (0 <=? f2) = true /\ (f2 <=? f1) = true /\ (f1 <=? 1) = true
  /\ ((d1 =? 0) = true -> (f1 =? 1) = true).
Proof.
  intros d1 d2 f1 f2 H12 H2.
  assert (H1 : (d1 <? 600) = true) by (apply (F64.leb_ltb_trans _ d2); assumption).
  pose proof (pointer_distance_nonneg my mxv q1 H1) as P1.
  pose proof (pointer_distance_nonneg my mxv q2 H2) as P2.
  fold d1 in P1. fold d2 in P2.
  assert (F1 : finite d1) by now apply ltb_finite.
  assert (F2 : finite d2) by now apply ltb_finite.
  assert (F6 : finite 600) by finite_lit.
  destruct (force_factor_bounds d1 P1 H1) as [A1 B1].
  destruct (force_factor_bounds d2 P2 H2) as [A2 B2].
  split; [apply (repel_force_near M mxv my q1 H1)|].
  split; [apply (repel_force_near M mxv my q2 H2)|].
  split; [exact A2|]. split; [|split; [exact B1|]].
  - assert (S : (600 - d2 <=? 600 - d1) = true) by (apply sub_mono; auto).
    assert (S0 : (0 <=? 600 - d2) = true).
    { apply (sub_mono 600 600 600 d2); auto using F64.ltb_leb. }
    assert (S6 : (600 - d1 <=? 600) = true).
    { apply (sub_mono 600 600 d1 0); auto using finite_0. }
    assert (Fa : finite (600 - d1)).
    { apply (finite_between 0 _ 600); auto using finite_0.
      apply (F64.leb_trans _ _ _ S0 S). }
    assert (Fb : finite (600 - d2)).
    { apply (finite_between 0 _ 600); auto using finite_0.
      apply (F64.leb_trans _ _ _ S S6). }
    apply div_mono; auto.
  - intros E. apply eqb_leb in E. destruct E as [E1 E2].
    apply leb_antisym_eqb; [exact B1|].
    assert (S : (600 - 0 <=? 600 - d1) = true).
    { apply (sub_mono 600 600 0 d1); auto using finite_0, F64.leb_refl. }
    assert (S6 : (600 - d1 <=? 600) = true).
    { apply (sub_mono 600 600 d1 0); auto using finite_0. }
    assert (Fa : finite (600 - d1)).
    { apply (finite_between (600 - 0) _ 600); auto; finite_lit. }
    apply (div_mono (600 - 0) (600 - d1) 600); auto; finite_lit.
Qed.

Lemma nearer_pointer_pushes_harder_witness :
  let q1 := Particle.mk 310 260 0 0 450 450 None 0 0 [] in
  let q2 := Particle.mk 500 400 0 0 450 450 None 0 0 [] in
  ((600 - pointer_distance (Some 250) 300 q2) / 600
   <=? (600 - pointer_distance (Some 250) 300 q1) / 600) = true.
Proof.
  intros q1 q2.
  apply (nearer_pointer_pushes_harder Toy.Math 300 (Some 250) q1 q2); reflexivity.
Defined.

(** ** The field is always sound *)

Lemma Rounds_notnan v f : Rounds v f -> f <> S754_nan.
Proof.
  intros [[_ [s ->]]|[[_ (mx & ex & lx & I & ->)]|[_ (mx & ex & lx & I & ->)]]].
  - discriminate.
  - destruct I as (Hm & _). pose proof (F64.binary_round_aux_sign false mx ex lx Hm) as S.
    intros E. rewrite E in S. exact S.
  - destruct I as (Hm & _). pose proof (F64.binary_round_aux_sign true mx ex lx Hm) as S.
    intros E. rewrite E in S. exact S.
Qed.

(** A number plus a finite number is a number. *)
Lemma add_finite_notnan a b : is_nan a = false -> finite b -> is_nan (a + b) = false.
Proof.
  intros Ha Fb. apply F64.is_nan_spec.
  destruct (Prim2SF a) as [s|s| |s m e] eqn:E.
  - assert (Fa : finite a) by (apply finite_cases; left; eauto).
    apply (Rounds_notnan _ _ (add_Rounds a b Fa Fb)).
  - rewrite add_spec, E. unfold finite in Fb.
    destruct (Prim2SF b) as [[]|[]| |[] ? ?]; try contradiction; destruct s; discriminate.
  - apply F64.is_nan_spec in Ha. congruence.
  - assert (Fa : finite a) by (apply finite_cases; right; eauto).
    apply (Rounds_notnan _ _ (add_Rounds a b Fa Fb)).
Qed.

Lemma sound_particle_spec w h p :
  sound_particle w h p = true <->
  within 400 600 (radius p) = true
  /\ within (-0.0025) 0.0025 (spin p) = true
  /\ is_nan (angle p) = false
  /\ within (-1) 1 (vx p) = true
  /\ within (- max_vy) max_vy (vy p) = true
  /\ within (- radius p) (w + radius p) (x p) = true
  /\ within (- radius p) (h + radius p) (y p) = true.
Proof.
  unfold sound_particle. rewrite !andb_true_iff, negb_true_iff. tauto.
Qed.

Lemma within_notnan lo hi v : within lo hi v = true -> is_nan v = false.
Proof.
  intros H. apply within_spec in H. destruct H as [H _].
  exact (proj2 (F64.leb_notnan _ _ H)).
Qed.

(** The vertical velocity after the scroll kick and the mouse block, for a
    scroll speed of magnitude at most [max_scroll]. *)
Lemma kicked_vy_bounded M w h mx my ss p :
  sound_trig M ->
  within (- max_scroll) max_scroll ss = true ->
  within (- max_vy) max_vy (vy p) = true ->
  let q := boundaries w h (basic_motion (scroll_interaction ss p)) in
  within (- max_kicked_vy) max_kicked_vy (vy q) = true
  /\ within (- max_pushed_vy) max_pushed_vy (vy (mouse_interaction M mx my q)) = true.
Proof.
  intros HW Hs Hv q.
  assert (FS : finite max_scroll) by finite_lit.
  assert (FmS : finite (- max_scroll)) by finite_lit.
  assert (FB : finite max_vy) by finite_lit.
  assert (FmB : finite (- max_vy)) by finite_lit.
  assert (Fc : finite 0.05) by finite_lit.
  assert (Fs : finite ss) by now apply (finite_within (- max_scroll) max_scroll).
  assert (Fv : finite (vy p)) by now apply (finite_within (- max_vy) max_vy).
  apply within_spec in Hs, Hv. destruct Hs as [S1 S2]. destruct Hv as [V1 V2].
  assert (K1 : (- max_scroll * 0.05 <=? ss * 0.05) = true) by (apply mul_mono_r; auto).
  assert (K2 : (ss * 0.05 <=? max_scroll * 0.05) = true) by (apply mul_mono_r; auto).
  assert (Fk : finite (ss * 0.05)).
  { apply (finite_between (- max_scroll * 0.05) _ (max_scroll * 0.05)); auto; finite_lit. }
  assert (Q : within (- max_kicked_vy) max_kicked_vy (vy q) = true).
  { unfold q. rewrite (proj2 (moved_velocity w h ss p)). apply within_spec. split.
    - apply (add_mono (- max_vy) _ (- max_scroll * 0.05) _); auto; finite_lit.
    - apply (add_mono _ max_vy _ (max_scroll * 0.05)); auto; finite_lit. }
  split; [exact Q|].
  assert (Fq : finite (vy q)).
  { apply (finite_within (- max_kicked_vy) max_kicked_vy); auto; finite_lit. }
  destruct (repel_force M mx my q) as [[fx fy]|] eqn:E.
  - destruct (mouse_interaction_velocity M mx my q fx fy E) as [_ ->].
    destruct (repel_force_bounded M mx my q fx fy HW E) as [_ By].
    assert (Ff : finite fy).
    { apply (finite_within (-0.02) 0.02); auto; finite_lit. }
    apply within_spec in Q, By. destruct Q as [Q1 Q2]. destruct By as [G1 G2].
    apply within_spec. split.
    + apply (sub_mono (- max_kicked_vy) _ 0.02 _); auto; finite_lit.
    + apply (sub_mono _ max_kicked_vy _ (-0.02)); auto; finite_lit.
  - unfold mouse_interaction. rewrite E.
    revert Q. apply within_weaken; reflexivity.
Qed.

Lemma wrapped_sound dim r c v :
  (0 <=? dim) = true -> (0 <=? r) = true -> is_nan c = false -> finite v ->
  within (- r) (dim + r) (wrap_coord dim r (c + v)) = true.
Proof.
  intros Hd Hr Hc Fv.
  destruct (wrap_coord_spec dim r (c + v) Hd Hr (add_finite_notnan c v Hc Fv))
    as (L & U & _).
  apply within_spec. split; assumption.
Qed.

Lemma update_sound M w h mx my ss p n :
  unit_draws M -> sound_trig M ->
  dimension w = true -> dimension h = true ->
  within (- max_scroll) max_scroll ss = true ->
  sound_particle w h p = true ->
  sound_particle w h (fst (update M w h mx my ss p n)) = true.
Proof.
  intros HM HW Hw Hh Hs Hp.
  apply sound_particle_spec in Hp.
  destruct Hp as (Pr & Ps & Pa & Pvx & Pvy & Px & Py).
  pose proof (update_fixed_fields M w h mx my ss p n) as E.
  unfold fixed_fields in E. injection E as _ Er _ Es _.
  destruct (update_position M w h mx my ss p n) as [Ex Ey].
  destruct (update_velocity M w h mx my ss p n) as (n1 & Evx & Evy).
  destruct (kicked_vy_bounded M w h mx my ss p HW Hs Pvy) as [K1 K2].
  set (q := boundaries w h (basic_motion (scroll_interaction ss p))) in *.
  assert (R0 : (0 <=? radius p) = true).
  { apply within_spec in Pr. destruct Pr as [R1 _]. apply (F64.leb_trans _ 400); auto. }
  assert (Fvx : finite (vx p)) by (apply (finite_within (-1) 1); auto; finite_lit).
  assert (Fk : finite (vy p + ss * 0.05)).
  { rewrite <- (proj2 (moved_velocity w h ss p)). fold q.
    apply (finite_within (- max_kicked_vy) max_kicked_vy); auto; finite_lit. }
  assert (Xq : x q = wrap_coord w (radius p) (x p + vx p)) by (destruct p; reflexivity).
  assert (Yq : y q = wrap_coord h (radius p) (y p + (vy p + ss * 0.05)))
    by (destruct p; reflexivity).
  apply sound_particle_spec. rewrite Er, Es, Ex, Ey, Xq, Yq, update_angle.
  split; [exact Pr|]. split; [exact Ps|].
  split.
  { apply add_finite_notnan; [exact Pa|].
    apply (finite_within (-0.0025) 0.0025); auto; finite_lit. }
  split; [now apply update_vx_bounded|].
  split.
  { rewrite Evy.
    apply (damp_nudge_bound M _ n1 max_pushed_vy max_vy); auto;
      try reflexivity; finite_lit. }
  split.
  - apply wrapped_sound; auto.
    + exact (proj2 (dimension_spec _ Hw)).
    + exact (within_notnan _ _ _ Px).
  - apply wrapped_sound; auto.
    + exact (proj2 (dimension_spec _ Hh)).
    + exact (within_notnan _ _ _ Py).
Qed.

Lemma new_sound M w h n :
  unit_draws M -> dimension w = true -> dimension h = true ->
  sound_particle w h (fst (new M w h n)) = true.
Proof.
  intros HM Hw Hh.
  pose proof (new_in_extended_viewport M w h n HM Hw Hh) as V.
  unfold in_extended_viewport in V. apply andb_prop in V. destruct V as [Vx Vy].
  destruct (new_position M w h n) as [Ex Ey].
  pose proof (scaled_draw M (n + 16) w HM Hw) as Sx.
  pose proof (scaled_draw M (n + 17) h HM Hh) as Sy.
  rewrite <- Ex in Sx. rewrite <- Ey in Sy.
  rewrite (within_notnan _ _ _ Sx) in Vx. rewrite (within_notnan _ _ _ Sy) in Vy.
  cbn [orb] in Vx, Vy.
  destruct (new_velocity_unit M w h n HM) as [Hvx Hvy].
  apply sound_particle_spec.
  split; [apply (new_size M w h n HM)|]. split; [apply (new_spin M w h n HM)|].
  split; [apply (within_notnan _ _ _ (new_angle M w h n HM))|].
  split; [exact Hvx|].
  split; [revert Hvy; apply within_weaken; reflexivity|].
  split; assumption.
Qed.

Lemma step_sound M W e :
  unit_draws M -> sound_trig M -> proper_event e = true ->
  dimension (width W) = true -> dimension (height W) = true ->
  within 0 max_scroll (lastScrollY W) = true ->
  within (- max_scroll) max_scroll (scrollSpeed W) = true ->
  Forall (fun p => sound_particle (width W) (height W) p = true) (particles W) ->
  let W' := fst (step M W e) in
  dimension (width W') = true /\ dimension (height W') = true
  /\ within 0 max_scroll (lastScrollY W') = true
  /\ within (- max_scroll) max_scroll (scrollSpeed W') = true
  /\ Forall (fun p => sound_particle (width W') (height W') p = true) (particles W').
Proof.
  intros HM HW He Hw Hh Hl Hs HP.
  assert (FS : finite max_scroll) by finite_lit.
  destruct e; cbn [step fst proper_event] in *.
  - repeat split; assumption.
  - repeat split; assumption.
  - apply andb_prop in He. destruct He as [Hiw Hih].
    destruct (resize_size M innerWidth innerHeight W) as [-> ->].
    destruct (resize_state M innerWidth innerHeight W) as (_ & _ & _ & -> & ->).
    repeat (split; [assumption|]).
    rewrite (proj1 (resize_particles M innerWidth innerHeight W)).
    apply Forall_forall. intros p Hp. apply in_map_iff in Hp.
    destruct Hp as (k & <- & _). now apply new_sound.
  - cbn [on_scroll width height lastScrollY scrollSpeed particles].
    repeat (split; [assumption|]). split; [|exact HP].
    assert (Fs : finite window_scrollY) by (apply (finite_within 0 max_scroll); auto using finite_0).
    assert (Fl : finite (lastScrollY W)) by (apply (finite_within 0 max_scroll); auto using finite_0).
    apply within_spec in He, Hl. destruct He as [E1 E2]. destruct Hl as [L1 L2].
    apply within_spec. split.
    + apply (sub_mono 0 _ max_scroll _); auto using finite_0.
    + apply (sub_mono _ max_scroll _ 0); auto using finite_0.
  - destruct (step_frame_state M Date_now W) as (_ & _ & _ & -> & -> & ->).
    rewrite animate_scrollSpeed, animate_particles.
    repeat (split; [assumption|]). split.
    + assert (Fs : finite (scrollSpeed W)).
      { apply (finite_within (- max_scroll) max_scroll); auto; finite_lit. }
      apply within_spec in Hs. destruct Hs as [S1 S2].
      apply (within_weaken (- max_scroll * 0.9) (max_scroll * 0.9)); try reflexivity.
      apply within_spec. split; apply mul_mono_r; auto; finite_lit.
    + apply update_all_Forall; [|exact HP]. intros p n Hp. now apply update_sound.
Qed.

Lemma run_sound M :
  unit_draws M -> sound_trig M ->
  forall es W,
    forallb proper_event es = true ->
    dimension (width W) = true -> dimension (height W) = true ->
    within 0 max_scroll (lastScrollY W) = true ->
    within (- max_scroll) max_scroll (scrollSpeed W) = true ->
    Forall (fun p => sound_particle (width W) (height W) p = true) (particles W) ->
    let W' := run M W es in
    within (- max_scroll) max_scroll (scrollSpeed W') = true
    /\ Forall (fun p => sound_particle (width W') (height W') p = true) (particles W').
Proof.
  intros HM HW. induction es as [|e es IH]; intros W H Hw Hh Hl Hs HP; [split; assumption|].
  cbn [forallb run] in *. apply andb_prop in H. destruct H as [He Hes].
  destruct (step_sound M W e HM HW He Hw Hh Hl Hs HP) as (Hw' & Hh' & Hl' & Hs' & HP').
  now apply IH.
Qed.

(** X19: the animation never produces NaN.  With a host whose random
    numbers lie in [0, 1), whose [atan2] of two numbers is a regular number
    and whose sine and cosine of a regular number lie in [-1, 1], proper
    viewport dimensions, and scroll positions between 0 and 2^53, every
    state the script reaches is sound: each particle's position is a number
    inside the viewport extended by its radius, its horizontal speed is at
    most 1 and its vertical speed at most 2^55, its angle is a number, and
    the scroll speed is at most 2^53 in magnitude; whatever the pointer
    does. *)
Theorem field_is_always_sound M iw ih sy es :
  let W := run M (init M iw ih sy) es in
  unit_draws M -> sound_trig M ->
  dimension iw = true -> dimension ih = true -> within 0 max_scroll sy = true ->
  forallb proper_event es = true ->
  within (- max_scroll) max_scroll (scrollSpeed W) = true
  /\ Forall (fun p => sound_particle (width W) (height W) p = true) (particles W)
  /\ Forall (fun p => is_nan (x p) = false /\ is_nan (y p) = false
                      /\ is_nan (vx p) = false /\ is_nan (vy p) = false
                      /\ is_nan (angle p) = false) (particles W).
Proof.
  intros W HM HW Hw Hh Hsy Hes.
  destruct (init_state M iw ih sy) as (_ & _ & Sz & Ew & Eh).
  assert (El : lastScrollY (init M iw ih sy) = sy).
  { unfold init. now rewrite (proj1 (proj2 (proj2 (proj2 (resize_state M iw ih _))))). }
  assert (I : Forall (fun p => sound_particle iw ih p = true) (particles (init M iw ih sy))).
  { unfold init. rewrite (proj1 (resize_particles M iw ih _)).
    apply Forall_forall. intros p Hp. apply in_map_iff in Hp.
    destruct Hp as (k & <- & _). now apply new_sound. }
  destruct (run_sound M HM HW es (init M iw ih sy)) as [HS HP];
    rewrite ?Ew, ?Eh, ?El, ?Sz; try assumption; try reflexivity.
  fold W in HS, HP. split; [exact HS|]. split; [exact HP|].
  revert HP. apply Forall_impl. intros p Hp. apply sound_particle_spec in Hp.
  destruct Hp as (_ & _ & Pa & Pvx & Pvy & Px & Py).
  repeat split; eauto using within_notnan.
Qed.

Lemma field_is_always_sound_witness :
  let W := run Clamped.Math (init Clamped.Math 1280 720 0)
             [ev_mousemove 300 250; ev_frame (fun _ => 1000); ev_scroll 40;
              ev_frame (fun _ => 1016); ev_resize 800 600; ev_mouseout;
              ev_frame (fun _ => 1033)] in
  Forall (fun p => is_nan (x p) = false /\ is_nan (y p) = false
                   /\ is_nan (vx p) = false /\ is_nan (vy p) = false
                   /\ is_nan (angle p) = false) (particles W).
Proof.
  intros W.
  refine (proj2 (proj2 (field_is_always_sound Clamped.Math 1280 720 0 _
                          Clamped_unit_draws Clamped_sound_trig _ _ _ _)));
    reflexivity.
Defined.

(** ** The contact form, for every input *)

Local Open Scope Z_scope.

Ltac bools :=
  repeat match goal with
  | H : _ && _ = true |- _ => apply andb_prop in H; destruct H
  | H : _ || _ = true |- _ => apply orb_prop in H; destruct H
  | H : _ && _ = false |- _ => apply andb_false_iff in H
  | H : _ || _ = false |- _ => apply orb_false_iff in H; destruct H
  | H : (_ <=? _) = true |- _ => apply Z.leb_le in H
  | H : (_ <=? _) = false |- _ => apply Z.leb_gt in H
  | H : (_ <? _) = true |- _ => apply Z.ltb_lt in H
  | H : (_ <? _) = false |- _ => apply Z.ltb_ge in H
  | H : (_ =? _) = true |- _ => apply Z.eqb_eq in H
  | H : (_ =? _) = false |- _ => apply Z.eqb_neq in H
  end.

Lemma in_range_spec lo hi c : URI.in_range lo hi c = true <-> lo <= c <= hi.
Proof. unfold URI.in_range. rewrite andb_true_iff, !Z.leb_le. tauto. Qed.

Lemma in_range_intro lo hi c : lo <= c <= hi -> URI.in_range lo hi c = true.
Proof. apply in_range_spec. Qed.

Lemma in_range_out lo hi c : c < lo \/ hi < c -> URI.in_range lo hi c = false.
Proof.
  intros H. destruct (URI.in_range lo hi c) eqn:E; [|reflexivity].
  apply in_range_spec in E. lia.
Qed.

Lemma unreserved_ascii c : URI.unreserved c = true -> 33 <= c <= 126 /\ c <> 37 /\ c <> 38 /\ c <> 61 /\ c <> 63.
Proof.
  unfold URI.unreserved, URI.in_range. cbn [existsb]. intros H. bools; lia.
Qed.

Lemma hex_digit_unreserved d : 0 <= d < 16 -> URI.unreserved (URI.hex_digit d) = true.
Proof.
  intros H. unfold URI.hex_digit, URI.unreserved.
  destruct (d <? 10) eqn:E; bools.
  - rewrite (in_range_intro 48 57) by lia. now rewrite !orb_true_r.
  - rewrite (in_range_intro 65 90) by lia. reflexivity.
Qed.

Lemma hex_value_digit d : 0 <= d < 16 -> URI.hex_value (URI.hex_digit d) = Some d.
Proof.
  intros H. unfold URI.hex_digit, URI.hex_value.
  destruct (d <? 10) eqn:E; bools.
  - rewrite (in_range_intro 48 57) by lia. f_equal. lia.
  - rewrite (in_range_out 48 57), (in_range_intro 65 70) by lia. f_equal. lia.
Qed.

Lemma escape_safe b : 0 <= b < 256 -> forallb uri_safe (URI.escape b) = true.
Proof.
  intros H. unfold URI.escape. cbn [forallb]. unfold uri_safe at 1.
  rewrite Z.eqb_refl, orb_true_r. unfold uri_safe.
  rewrite !hex_digit_unreserved; [reflexivity| |].
  - apply Z.mod_pos_bound. lia.
  - split; [apply Z.div_pos; lia | apply Z.div_lt_upper_bound; lia].
Qed.

Lemma octets_escape b rest :
  0 <= b < 256 ->
  URI.octets (URI.escape b ++ rest) = option_map (cons b) (URI.octets rest).
Proof.
  intros H. unfold URI.escape. cbn [app URI.octets]. rewrite Z.eqb_refl.
  rewrite !hex_value_digit.
  - replace (b / 16 * 16 + b mod 16) with b
      by (rewrite (Z.div_mod b 16) at 1 by lia; lia).
    destruct (URI.octets rest); reflexivity.
  - apply Z.mod_pos_bound. lia.
  - split; [apply Z.div_pos; lia | apply Z.div_lt_upper_bound; lia].
Qed.

Lemma byte_lor a b : 0 <= a < 256 -> 0 <= b < 256 -> 0 <= Z.lor a b < 256.
Proof.
  intros Ha Hb.
  assert (N : 0 <= Z.lor a b) by (apply Z.lor_nonneg; lia).
  split; [exact N|].
  destruct (Z.eq_dec (Z.lor a b) 0) as [->|NZ]; [lia|].
  change 256 with (2 ^ 8). apply Z.log2_lt_pow2; [lia|].
  rewrite Z.log2_lor by lia.
  assert (La : Z.log2 a < 8).
  { destruct (Z.eq_dec a 0) as [->|]; [reflexivity|].
    apply Z.log2_lt_pow2; [lia|]. change (2 ^ 8) with 256. lia. }
  assert (Lb : Z.log2 b < 8).
  { destruct (Z.eq_dec b 0) as [->|]; [reflexivity|].
    apply Z.log2_lt_pow2; [lia|]. change (2 ^ 8) with 256. lia. }
  lia.
Qed.

Lemma low_six x : 0 <= Z.land x 63 < 64.
Proof.
  change 63 with (Z.ones 6). rewrite Z.land_ones by lia.
  apply Z.mod_pos_bound. reflexivity.
Qed.

Lemma shiftr_bound x k n : 0 <= k -> 0 <= x < n * 2 ^ k -> 0 <= Z.shiftr x k < n.
Proof.
  intros Hk Hx. rewrite Z.shiftr_div_pow2 by lia.
  assert (0 < 2 ^ k) by (apply Z.pow_pos_nonneg; lia).
  split; [apply Z.div_pos; lia | apply Z.div_lt_upper_bound; lia].
Qed.

Lemma utf8_bytes cp :
  0 <= cp < 1114112 -> Forall (fun b => 0 <= b < 256) (URI.utf8 cp).
Proof.
  intros H. unfold URI.utf8.
  pose proof (low_six cp). pose proof (low_six (Z.shiftr cp 6)).
  pose proof (low_six (Z.shiftr cp 12)).
  destruct (cp <? 128) eqn:E1; bools; [repeat constructor; lia|].
  destruct (cp <? 2048) eqn:E2; bools.
  { pose proof (shiftr_bound cp 6 32 ltac:(lia) ltac:(lia)).
    repeat constructor; apply byte_lor; lia. }
  destruct (cp <? 65536) eqn:E3; bools.
  { pose proof (shiftr_bound cp 12 16 ltac:(lia) ltac:(lia)).
    repeat constructor; apply byte_lor; lia. }
  pose proof (shiftr_bound cp 18 5 ltac:(lia) ltac:(lia)).
  repeat constructor; apply byte_lor; lia.
Qed.

Lemma escapes_safe bs :
  Forall (fun b => 0 <= b < 256) bs -> forallb uri_safe (flat_map URI.escape bs) = true.
Proof.
  induction 1 as [|b bs Hb _ IH]; [reflexivity|].
  cbn [flat_map]. rewrite forallb_app, escape_safe, IH by assumption. reflexivity.
Qed.

Lemma octets_escapes bs rest :
  Forall (fun b => 0 <= b < 256) bs ->
  URI.octets (flat_map URI.escape bs ++ rest) = option_map (app bs) (URI.octets rest).
Proof.
  induction 1 as [|b bs Hb _ IH].
  - cbn [flat_map app]. destruct (URI.octets rest); reflexivity.
  - cbn [flat_map]. rewrite <- app_assoc, octets_escape, IH by assumption.
    destruct (URI.octets rest); reflexivity.
Qed.

Lemma unreserved_not_surrogate c :
  URI.unreserved c = true -> URI.is_lead c = false /\ URI.is_trail c = false.
Proof.
  intros H. apply unreserved_ascii in H. unfold URI.is_lead, URI.is_trail.
  split; apply in_range_out; lia.
Qed.

Lemma utf8_ascii c : 0 <= c < 128 -> URI.utf8 c = [c].
Proof.
  intros H. unfold URI.utf8.
  replace (c <? 128) with true by (symmetry; apply Z.ltb_lt; lia). reflexivity.
Qed.


Lemma encoded_cons_plain c rest :
  code_unit c = true -> URI.is_lead c = false -> URI.is_trail c = false ->
  encoded_as rest -> encoded_as (c :: rest).
Proof.
  unfold encoded_as. intros Hc HL HT IH. cbn [code_points URI.encodeURIComponent].
  rewrite HL, HT.
  destruct (URI.unreserved c) eqn:U.
  - destruct (unreserved_ascii c U) as (R & N37 & _).
    destruct (code_points rest) as [cps|]; cbn [option_map].
    + destruct IH as (e & -> & S & O). exists (c :: e). cbn [option_map].
      split; [reflexivity|]. split.
      * cbn [forallb]. unfold uri_safe at 1. now rewrite U, S.
      * cbn [URI.octets flat_map].
        replace (c =? 37) with false by (symmetry; apply Z.eqb_neq; exact N37).
        rewrite O, utf8_ascii by lia. reflexivity.
    + now rewrite IH.
  - unfold code_unit in Hc. bools.
    assert (B : Forall (fun b => 0 <= b < 256) (URI.utf8 c)) by (apply utf8_bytes; lia).
    destruct (code_points rest) as [cps|]; cbn [option_map].
    + destruct IH as (e & -> & S & O). exists (flat_map URI.escape (URI.utf8 c) ++ e).
      cbn [option_map]. split; [reflexivity|]. split.
      * now rewrite forallb_app, escapes_safe, S.
      * rewrite octets_escapes, O by assumption. reflexivity.
    + now rewrite IH.
Qed.

Lemma encoded_cons_pair c c2 rest :
  URI.is_lead c = true -> URI.is_trail c2 = true ->
  encoded_as rest -> encoded_as (c :: c2 :: rest).
Proof.
  unfold encoded_as. intros HL HT IH. cbn [code_points URI.encodeURIComponent].
  rewrite HL, HT.
  assert (U : URI.unreserved c = false).
  { destruct (URI.unreserved c) eqn:U; [|reflexivity].
    apply unreserved_not_surrogate in U. destruct U. congruence. }
  rewrite U.
  unfold URI.is_lead, URI.is_trail in HL, HT.
  apply in_range_spec in HL, HT.
  set (cp := (c - 55296) * 1024 + (c2 - 56320) + 65536).
  assert (B : Forall (fun b => 0 <= b < 256) (URI.utf8 cp))
    by (apply utf8_bytes; unfold cp; lia).
  destruct (code_points rest) as [cps|]; cbn [option_map].
  - destruct IH as (e & -> & S & O). exists (flat_map URI.escape (URI.utf8 cp) ++ e).
    cbn [option_map]. split; [reflexivity|]. split.
    + now rewrite forallb_app, escapes_safe, S.
    + rewrite octets_escapes, O by assumption. reflexivity.
  - now rewrite IH.
Qed.

Lemma encoded_lone c rest :
  (URI.is_lead c = true /\ match rest with c2 :: _ => URI.is_trail c2 = false | [] => True end)
  \/ (URI.is_lead c = false /\ URI.is_trail c = true) ->
  encoded_as (c :: rest).
Proof.
  unfold encoded_as. cbn [code_points URI.encodeURIComponent].
  assert (U : URI.is_lead c = true \/ URI.is_trail c = true -> URI.unreserved c = false).
  { intros H. destruct (URI.unreserved c) eqn:U; [|reflexivity].
    apply unreserved_not_surrogate in U. destruct U, H; congruence. }
  intros [[HL HR]|[HL HT]].
  - rewrite HL, U by tauto. destruct rest as [|c2 rest']; [reflexivity|].
    now rewrite HR.
  - rewrite HL, HT, U by tauto. reflexivity.
Qed.

Lemma encodeURIComponent_spec s : forallb code_unit s = true -> encoded_as s.
Proof.
  assert (K : forall n s, (List.length s <= n)%nat -> forallb code_unit s = true ->
                          encoded_as s).
  { induction n as [|n IH]; intros [|c rest] L H; cbn [List.length] in L;
      try lia; try (exists []; repeat split; reflexivity).
    cbn [forallb] in H. apply andb_prop in H. destruct H as [Hc Hr].
    destruct (URI.is_lead c) eqn:HL.
    - destruct rest as [|c2 rest'].
      + apply encoded_lone. left. tauto.
      + destruct (URI.is_trail c2) eqn:HT.
        * cbn [forallb] in Hr. apply andb_prop in Hr. destruct Hr as [_ Hr'].
          apply encoded_cons_pair; auto. apply IH; [cbn [List.length] in L; lia | exact Hr'].
        * apply encoded_lone. left. tauto.
    - destruct (URI.is_trail c) eqn:HT.
      + apply encoded_lone. right. tauto.
      + apply encoded_cons_plain; auto. apply IH; [lia | exact Hr]. }
  intros H. apply (K (List.length s)); [lia | exact H].
Qed.

(** *** The text of the body *)

Lemma code_points_app_plain a c b :
  URI.is_lead c = false -> URI.is_trail c = false ->
  code_points (a ++ c :: b)
  = match code_points a, code_points b with
    | Some ca, Some cb => Some (ca ++ c :: cb)
    | _, _ => None
    end.
Proof.
  intros HL HT.
  assert (K : forall n a, (List.length a <= n)%nat ->
            code_points (a ++ c :: b)
            = match code_points a, code_points b with
              | Some ca, Some cb => Some (ca ++ c :: cb)
              | _, _ => None
              end).
  { induction n as [|n IH]; intros [|x r] L; cbn [List.length] in L; try lia.
    - cbn [app code_points]. rewrite HL, HT. destruct (code_points b); reflexivity.
    - cbn [app code_points]. rewrite HL, HT. destruct (code_points b); reflexivity.
    - cbn [app code_points]. destruct (URI.is_lead x) eqn:XL.
      + destruct r as [|x2 r'].
        * cbn [app]. now rewrite HT.
        * cbn [app]. destruct (URI.is_trail x2); [|reflexivity].
          rewrite IH by (cbn [List.length] in L; lia).
          destruct (code_points r'), (code_points b); reflexivity.
      + destruct (URI.is_trail x); [reflexivity|].
        rewrite IH by lia.
        destruct (code_points r), (code_points b); reflexivity. }
  apply (K (List.length a)). lia.
Qed.

Lemma code_points_bodyRaw name email message :
  code_points (bodyRaw name email message)
  = match code_points name, code_points email, code_points message with
    | Some n, Some e, Some m => Some (bodyRaw n e m)
    | _, _, _ => None
    end.
Proof.
  unfold bodyRaw.
  change (lit "Name: " ++ name ++ [10] ++ lit "Email: " ++ email ++ [10; 10] ++ message)
    with (lit "Name: " ++ (name ++ 10 :: (lit "Email: " ++ (email ++ 10 :: 10 :: message)))).
  assert (P : forall s, code_points (lit "Name: " ++ s)
                        = option_map (app (lit "Name: ")) (code_points s)).
  { intros s. cbn. destruct (code_points s); reflexivity. }
  assert (Q : forall s, code_points (lit "Email: " ++ s)
                        = option_map (app (lit "Email: ")) (code_points s)).
  { intros s. cbn. destruct (code_points s); reflexivity. }
  assert (R : forall s, code_points (10 :: s) = option_map (cons 10) (code_points s)).
  { intros s. reflexivity. }
  rewrite P, (code_points_app_plain name 10) by reflexivity.
  rewrite Q, (code_points_app_plain email 10) by reflexivity.
  rewrite R.
  destruct (code_points name) as [n|]; [|reflexivity].
  destruct (code_points email) as [e|]; [|reflexivity].
  destruct (code_points message) as [m|]; [|reflexivity].
  cbn [option_map]. f_equal.
Qed.

Lemma code_unit_bodyRaw name email message :
  forallb code_unit name = true -> forallb code_unit email = true ->
  forallb code_unit message = true ->
  forallb code_unit (bodyRaw name email message) = true.
Proof.
  intros Hn He Hm. unfold bodyRaw.
  rewrite !forallb_app, Hn, He, Hm. reflexivity.
Qed.

Lemma ascii_code_points s : ascii_text s = true -> code_points s = Some s.
Proof.
  induction s as [|c s IH]; [reflexivity|].
  unfold ascii_text. cbn [forallb]. intros H. apply andb_prop in H. destruct H as [Hc Hs].
  bools. cbn [code_points]. unfold URI.is_lead, URI.is_trail.
  rewrite !in_range_out by lia. now rewrite (IH Hs).
Qed.

Lemma ascii_utf8 s : ascii_text s = true -> flat_map URI.utf8 s = s.
Proof.
  induction s as [|c s IH]; [reflexivity|].
  unfold ascii_text. cbn [forallb]. intros H. apply andb_prop in H. destruct H as [Hc Hs].
  bools. cbn [flat_map]. rewrite utf8_ascii by lia. now rewrite (IH Hs).
Qed.

Lemma ascii_code_unit s : ascii_text s = true -> forallb code_unit s = true.
Proof.
  unfold ascii_text. rewrite !forallb_forall. intros H c Hc. specialize (H c Hc).
  unfold code_unit. bools. apply andb_true_iff. split; [apply Z.leb_le | apply Z.ltb_lt]; lia.
Qed.

Lemma safe_count l k :
  forallb uri_safe l = true -> uri_safe k = false -> count_occ Z.eq_dec l k = 0%nat.
Proof.
  intros H Hk. apply count_occ_not_In. intros HI.
  rewrite forallb_forall in H. rewrite (H k HI) in Hk. discriminate.
Qed.

Lemma on_submit_spec name email subject message :
  on_submit name email subject message
  = {| defaultPrevented := true;
       location_href :=
         match URI.encodeURIComponent subject,
               URI.encodeURIComponent (bodyRaw name email message) with
         | Some s, Some b =>
             Some (lit "mailto:goodteachtech@gmail.com?subject=" ++ s ++ lit "&body=" ++ b)
         | _, _ => None
         end |}.
Proof.
  unfold on_submit.
  destruct (URI.encodeURIComponent subject),
    (URI.encodeURIComponent (bodyRaw name email message)); reflexivity.
Qed.

(** X20: whatever the user types, the link keeps its shape.  When the
    listener navigates, the link is the fixed prefix, the encoded subject,
    ["&body="] and the encoded body; the two encoded components consist of
    unreserved characters and percent escapes only, so the link has exactly
    one [?], one [&] and two [=], and no space, line feed or [#]: no field
    can end a component early or add a header of its own. *)
Theorem mailto_link_keeps_its_shape name email subject message link :
  forallb code_unit name = true -> forallb code_unit email = true ->
  forallb code_unit subject = true -> forallb code_unit message = true ->
  location_href (on_submit name email subject message) = Some link ->
  exists s b,
    link = lit "mailto:goodteachtech@gmail.com?subject=" ++ s ++ lit "&body=" ++ b
    /\ URI.encodeURIComponent subject = Some s
    /\ URI.encodeURIComponent (bodyRaw name email message) = Some b
    /\ forallb uri_safe (s ++ b) = true
    /\ count_occ Z.eq_dec link 63 = 1%nat
    /\ count_occ Z.eq_dec link 38 = 1%nat
    /\ count_occ Z.eq_dec link 61 = 2%nat
    /\ count_occ Z.eq_dec link 32 = 0%nat
    /\ count_occ Z.eq_dec link 10 = 0%nat
    /\ count_occ Z.eq_dec link 35 = 0%nat.
Proof.
  intros Hn He Hs Hm HL. rewrite on_submit_spec in HL. cbn [location_href] in HL.
  pose proof (encodeURIComponent_spec subject Hs) as ES.
  pose proof (encodeURIComponent_spec _ (code_unit_bodyRaw name email message Hn He Hm)) as EB.
  unfold encoded_as in ES, EB.
  destruct (URI.encodeURIComponent subject) as [s|]; [|discriminate HL].
  destruct (URI.encodeURIComponent (bodyRaw name email message)) as [b|]; [|discriminate HL].
  assert (EL : link = lit "mailto:goodteachtech@gmail.com?subject=" ++ s ++ lit "&body=" ++ b)
    by (injection HL as <-; reflexivity).
  clear HL. subst link.
  assert (Ss : forallb uri_safe s = true).
  { destruct (code_points subject); [|discriminate ES].
    destruct ES as (e & E & S & _). now injection E as <-. }
  assert (Sb : forallb uri_safe b = true).
  { destruct (code_points (bodyRaw name email message)); [|discriminate EB].
    destruct EB as (e & E & S & _). now injection E as <-. }
  exists s, b. split; [reflexivity|]. split; [reflexivity|]. split; [reflexivity|].
  split; [now rewrite forallb_app, Ss, Sb|].
  rewrite !count_occ_app.
  repeat split; rewrite !(safe_count s), !(safe_count b) by (assumption || reflexivity);
    reflexivity.
Qed.

Lemma mailto_link_keeps_its_shape_witness :
  exists s b,
    location_href (on_submit (lit "Tom & Jerry") (lit "a@b.com") (lit "Hi?cc=x")
                             (lit "1+1=2 #done"))
    = Some (lit "mailto:goodteachtech@gmail.com?subject=" ++ s ++ lit "&body=" ++ b)
    /\ forallb uri_safe (s ++ b) = true.
Proof.
  destruct (mailto_link_keeps_its_shape
              (lit "Tom & Jerry") (lit "a@b.com") (lit "Hi?cc=x") (lit "1+1=2 #done")
              _ eq_refl eq_refl eq_refl eq_refl eq_refl)
    as (s & b & E & _ & _ & S & _).
  exists s, b. split; [now rewrite <- E | exact S].
Defined.

(** X21: the link carries the four fields unchanged.  The encoded subject,
    with its escapes read back, is the UTF-8 encoding of the subject, and
    the encoded body is that of the text
    ["Name: <name>\nEmail: <email>\n\n<message>"]; for fields of ASCII
    characters these are the subject and the text themselves. *)
Theorem mailto_link_round_trip name email subject message n e s m :
  forallb code_unit name = true -> forallb code_unit email = true ->
  forallb code_unit subject = true -> forallb code_unit message = true ->
  code_points name = Some n -> code_points email = Some e ->
  code_points subject = Some s -> code_points message = Some m ->
  exists es eb,
    on_submit name email subject message
    = {| defaultPrevented := true;
         location_href :=
           Some (lit "mailto:goodteachtech@gmail.com?subject=" ++ es ++ lit "&body=" ++ eb) |}
    /\ URI.octets es = Some (flat_map URI.utf8 s)
    /\ URI.octets eb = Some (flat_map URI.utf8 (bodyRaw n e m))
    /\ (ascii_text name = true -> ascii_text email = true ->
        ascii_text subject = true -> ascii_text message = true ->
        URI.octets es = Some subject
        /\ URI.octets eb = Some (bodyRaw name email message)).
Proof.
  intros Hn He Hs Hm Cn Ce Cs Cm.
  pose proof (encodeURIComponent_spec subject Hs) as ES.
  pose proof (encodeURIComponent_spec _ (code_unit_bodyRaw name email message Hn He Hm)) as EB.
  unfold encoded_as in ES, EB.
  rewrite code_points_bodyRaw, Cn, Ce, Cm in EB. rewrite Cs in ES.
  destruct ES as (es & E1 & _ & O1). destruct EB as (eb & E2 & _ & O2).
  exists es, eb. rewrite on_submit_spec, E1, E2.
  split; [reflexivity|]. split; [exact O1|]. split; [exact O2|].
  intros An Ae As Am.
  rewrite (ascii_code_points _ An) in Cn. rewrite (ascii_code_points _ Ae) in Ce.
  rewrite (ascii_code_points _ As) in Cs. rewrite (ascii_code_points _ Am) in Cm.
  injection Cn as <-. injection Ce as <-. injection Cs as <-. injection Cm as <-.
  rewrite O1, O2. rewrite (ascii_utf8 _ As).
  assert (Ab : ascii_text (bodyRaw name email message) = true).
  { unfold ascii_text, bodyRaw in *. rewrite !forallb_app, An, Ae, Am. reflexivity. }
  rewrite (ascii_utf8 _ Ab). split; reflexivity.
Qed.

Lemma mailto_link_round_trip_witness :
  exists es eb,
    location_href (on_submit (lit "Tom & Jerry") (lit "a@b.com") (lit "Hi?cc=x")
                             (lit "1+1=2 #done"))
    = Some (lit "mailto:goodteachtech@gmail.com?subject=" ++ es ++ lit "&body=" ++ eb)
    /\ URI.octets es = Some (lit "Hi?cc=x")
    /\ URI.octets eb
       = Some (bodyRaw (lit "Tom & Jerry") (lit "a@b.com") (lit "1+1=2 #done")).
Proof.
  destruct (mailto_link_round_trip
              (lit "Tom & Jerry") (lit "a@b.com") (lit "Hi?cc=x") (lit "1+1=2 #done")
              _ _ _ _ eq_refl eq_refl eq_refl eq_refl eq_refl eq_refl eq_refl eq_refl)
    as (es & eb & E & _ & _ & A).
  exists es, eb. rewrite E. split; [reflexivity|]. apply A; reflexivity.
Defined.

(** X22: a surrogate that stands alone stops the mail, silently.  The
    listener always cancels the default submission; it navigates to the
    link unless one of the four fields holds a lead surrogate with no trail
    surrogate after it or a trail surrogate with no lead before it, in
    which case [encodeURIComponent] throws and nothing else happens. *)
Theorem lone_surrogate_blocks_the_mail name email subject message :
  forallb code_unit name = true -> forallb code_unit email = true ->
  forallb code_unit subject = true -> forallb code_unit message = true ->
  defaultPrevented (on_submit name email subject message) = true
  /\ (location_href (on_submit name email subject message) = None
      <-> code_points subject = None \/ code_points name = None
          \/ code_points email = None \/ code_points message = None).
Proof.
  intros Hn He Hs Hm. rewrite on_submit_spec. cbn [defaultPrevented location_href].
  split; [reflexivity|].
  pose proof (encodeURIComponent_spec subject Hs) as ES.
  pose proof (encodeURIComponent_spec _ (code_unit_bodyRaw name email message Hn He Hm)) as EB.
  unfold encoded_as in ES, EB. rewrite code_points_bodyRaw in EB.
  destruct (code_points subject) as [cs|].
  - destruct ES as (es & -> & _).
    destruct (code_points name) as [cn|]; [|rewrite EB; tauto].
    destruct (code_points email) as [ce|]; [|rewrite EB; tauto].
    destruct (code_points message) as [cm|]; [|rewrite EB; tauto].
    destruct EB as (eb & -> & _). split; [discriminate|].
    intros [H|[H|[H|H]]]; discriminate H.
  - rewrite ES. tauto.
Qed.

Lemma lone_surrogate_blocks_the_mail_witness :
  on_submit (lit "A") (lit "a@b.com") (lit "Hi") (lit "Hello" ++ [55357])
  = {| defaultPrevented := true; location_href := None |}.
Proof.
  destruct (lone_surrogate_blocks_the_mail (lit "A") (lit "a@b.com") (lit "Hi")
              (lit "Hello" ++ [55357]) eq_refl eq_refl eq_refl eq_refl) as [D [_ N]].
  destruct (on_submit (lit "A") (lit "a@b.com") (lit "Hi") (lit "Hello" ++ [55357]))
    as [d l]. cbn [defaultPrevented location_href] in *.
  rewrite D, N; [reflexivity|]. right; right; right. reflexivity.
Defined.

(** *** The lines of the body *)

Lemma lines_from_line a :
  forall cur rest, single_line a = true ->
  lines_from cur (a ++ 10 :: rest) = (cur ++ a) :: lines_from [] rest.
Proof.
  induction a as [|c a IH]; intros cur rest H.
  - cbn [app lines_from]. rewrite Z.eqb_refl, app_nil_r. reflexivity.
  - unfold single_line in H. cbn [forallb] in H. apply andb_prop in H.
    destruct H as [Hc Ha]. apply negb_true_iff in Hc.
    cbn [app lines_from]. rewrite Hc, (IH _ _ Ha), <- app_assoc. reflexivity.
Qed.

(** X23: the body always has the three header lines in front.  For a name
    and an e-mail address without line feed (they come from single-line
    inputs), the lines of the body are ["Name: <name>"], ["Email: <email>"],
    an empty line, and then the lines of the message, however many. *)
Theorem body_starts_with_header_lines name email message :
  single_line name = true -> single_line email = true ->
  lines (bodyRaw name email message)
  = (lit "Name: " ++ name) :: (lit "Email: " ++ email) :: [] :: lines message.
Proof.
  intros Hn He. unfold lines, bodyRaw.
  change (lit "Name: " ++ name ++ [10] ++ lit "Email: " ++ email ++ [10; 10] ++ message)
    with (lit "Name: " ++ (name ++ 10 :: (lit "Email: " ++ (email ++ 10 :: 10 :: message)))).
  assert (P : forall s, lines_from [] (lit "Name: " ++ s) = lines_from (lit "Name: ") s)
    by reflexivity.
  assert (Q : forall s, lines_from [] (lit "Email: " ++ s) = lines_from (lit "Email: ") s)
    by reflexivity.
  rewrite P, (lines_from_line name) by exact Hn.
  rewrite Q, (lines_from_line email) by exact He.
  reflexivity.
Qed.

Lemma body_starts_with_header_lines_witness :
  lines (bodyRaw (lit "Tom & Jerry") (lit "a@b.com") (lit "one" ++ [10] ++ lit "two"))
  = [lit "Name: Tom & Jerry"; lit "Email: a@b.com"; []; lit "one"; lit "two"].
Proof.
  rewrite (body_starts_with_header_lines (lit "Tom & Jerry") (lit "a@b.com")
             (lit "one" ++ [10] ++ lit "two") eq_refl eq_refl).
  reflexivity.
Defined.
